(** * GOV.UK Frontend Button component: config normalisation, debounce and
      client-side validation

    A shallow embedding of
    [packages/govuk-frontend/dist/govuk/components/button/button.bundle.mjs]
    (the bundle carries the shared helpers [normaliseString], [mergeConfigs],
    [extractConfigByNamespace], [normaliseDataset], the error classes and the
    [GOVUKFrontendComponent] base class next to the [Button] class itself).

    Conventions of the embedding:
    - JavaScript strings are Rocq [string]s, read as sequences of code units
      in the range U+0000 .. U+00FF;
    - plain objects are association lists in insertion order (the order of
      [Object.keys] and [Object.entries] for keys that are not array
      indices); a JavaScript object never holds a key twice, which is the
      well-formedness predicate [wf_value] below;
    - a property read whose key the code writes out (such as
      [this.config.focusOnError]) sees the own properties of the object,
      none of these keys being a member of [Object.prototype]; the read
      [validationMessages[field]], whose key comes from the configuration,
      goes on to [Object.prototype] ([member]), which is taken as the
      language provides it; in the helpers that build objects from configs
      and data attributes, a key or a part of a key that is [__proto__]
      and a schema field named like a member of [Object.prototype] are
      outside the model ([own_dataset], [own_fields]), and so is the
      place of keys that are array indices in [Object.keys]
      ([ordinary_key]);
    - code that can throw returns a [result];
    - the DOM is a tree of elements carrying node identifiers, so that a
      reference held by the script (such as [errors[0].element]) survives
      mutations of the tree around it. *)

From Stdlib Require Import String Ascii List ZArith NArith Lia Bool Arith PeanoNat.
From Stdlib Require Import DecimalString.
Import ListNotations.
Open Scope string_scope.
Open Scope list_scope.

(* ===================================================================== *)
(** * 1. JavaScript values                                                 *)
(* ===================================================================== *)

(** ** Strings *)

(** White space and line terminators recognised by [String.prototype.trim]
    and by [StringToNumber], restricted to code units below U+0100:
    TAB, LF, VT, FF, CR, SPACE and NBSP. *)
Definition is_white_space (c : ascii) : bool :=
  let n := nat_of_ascii c in
  ((n =? 9) || (n =? 10) || (n =? 11) || (n =? 12) || (n =? 13)
   || (n =? 32) || (n =? 160))%nat.

Fixpoint trimStart (s : string) : string :=
  match s with
  | EmptyString => EmptyString
  | String c r => if is_white_space c then trimStart r else s
  end.

Fixpoint string_rev_onto (s acc : string) : string :=
  match s with
  | EmptyString => acc
  | String c r => string_rev_onto r (String c acc)
  end.

Definition string_rev (s : string) : string := string_rev_onto s EmptyString.

Definition trimEnd (s : string) : string := string_rev (trimStart (string_rev s)).

(** [value.trim()] *)
Definition trim (s : string) : string := trimEnd (trimStart s).

(** [key.split('.')]: the pieces between occurrences of the separator; the
    empty string splits into one empty piece. *)
Fixpoint split_on (sep : ascii) (s : string) : list string :=
  match s with
  | EmptyString => [EmptyString]
  | String c r =>
      if Ascii.eqb c sep then EmptyString :: split_on sep r
      else match split_on sep r with
           | [] => [String c EmptyString]
           | p :: ps => String c p :: ps
           end
  end.

(** ** Numbers *)

(** A Number value.  A finite number is kept as the exact value of the
    literal it was read from, [(-1)^negative * mantissa * 10^exp10]; the
    rounding of the fraction bits to binary64 is not represented, but the
    two places where rounding changes what the program can observe are:
    overflow to [Infinity] and underflow to zero. *)
Inductive number : Type :=
| NaN
| Infinity (negative : bool)
| Finite (negative : bool) (mantissa : N) (exp10 : Z).

(** The least magnitude that rounds to [Infinity] under round-to-nearest,
    ties-to-even: half way between the largest binary64 and [2^1024]. *)
Definition overflow_threshold : Z := (2 ^ 1024 - 2 ^ 970)%Z.

Definition overflows (m : N) (e : Z) : bool :=
  if (0 <=? e)%Z
  then (overflow_threshold <=? Z.of_N m * 10 ^ e)%Z
  else (overflow_threshold * 10 ^ (- e) <=? Z.of_N m)%Z.

(** Magnitudes up to [2^-1075] round to zero. *)
Definition rounds_to_zero (m : N) (e : Z) : bool :=
  (m =? 0)%N
  || ((e <? 0)%Z && (Z.of_N m * 2 ^ 1075 <=? 10 ^ (- e))%Z).

Definition round (negative : bool) (m : N) (e : Z) : number :=
  if overflows m e then Infinity negative else Finite negative m e.

(** [isFinite(n)] for a Number [n] *)
Definition isFinite (n : number) : bool :=
  match n with
  | Finite _ _ _ => true
  | _ => false
  end.

Definition digit_value (radix : N) (c : ascii) : option N :=
  let n := N_of_ascii c in
  let d :=
    if (48 <=? n)%N && (n <=? 57)%N then Some (n - 48)%N
    else if (97 <=? n)%N && (n <=? 102)%N then Some (n - 87)%N
    else if (65 <=? n)%N && (n <=? 70)%N then Some (n - 55)%N
    else None in
  match d with
  | Some v => if (v <? radix)%N then Some v else None
  | None => None
  end.

(** Reads the longest prefix of digits in [radix]: the value read so far,
    how many digits were read, and the rest of the input. *)
Fixpoint read_digits (radix : N) (s : string) (acc : N) (count : nat)
  : N * nat * string :=
  match s with
  | EmptyString => (acc, count, s)
  | String c r =>
      match digit_value radix c with
      | Some d => read_digits radix r (acc * radix + d)%N (S count)
      | None => (acc, count, s)
      end
  end.

(** [NonDecimalIntegerLiteral] after its two-character prefix *)
Definition non_decimal (radix : N) (digits : string) : number :=
  match read_digits radix digits 0%N 0 with
  | (v, S _, EmptyString) => round false v 0
  | _ => NaN
  end.

(** [ExponentPart_opt] followed by the end of the input: the exponent, or
    [None] when the rest is not a well-formed exponent part. *)
Definition read_exponent (s : string) : option Z :=
  match s with
  | EmptyString => Some 0%Z
  | String c r =>
      if Ascii.eqb c "e" || Ascii.eqb c "E" then
        let '(neg, r') :=
          match r with
          | String "-" r' => (true, r')
          | String "+" r' => (false, r')
          | _ => (false, r)
          end in
        match read_digits 10 r' 0%N 0 with
        | (v, S _, EmptyString) =>
            Some (if neg then (- Z.of_N v)%Z else Z.of_N v)
        | _ => None
        end
      else None
  end.

(** [StrUnsignedDecimalLiteral] other than [Infinity] *)
Definition unsigned_decimal (negative : bool) (s : string) : number :=
  let '(int_part, int_count, r1) := read_digits 10 s 0%N 0 in
  let '(mantissa, frac_count, r2) :=
    match r1 with
    | String "." r => read_digits 10 r int_part 0
    | _ => (int_part, 0, r1)
    end in
  match int_count + frac_count with
  | O => NaN
  | S _ =>
      match read_exponent r2 with
      | Some e => round negative mantissa (e - Z.of_nat frac_count)
      | None => NaN
      end
  end.

Definition str_decimal (negative : bool) (s : string) : number :=
  if String.eqb s "Infinity" then Infinity negative
  else unsigned_decimal negative s.

(** [Number(s)] for a string [s]: the abstract operation [StringToNumber] *)
Definition Number (s : string) : number :=
  match trim s with
  | EmptyString => Finite false 0 0
  | String "0" (String "x" r) | String "0" (String "X" r) => non_decimal 16 r
  | String "0" (String "o" r) | String "0" (String "O" r) => non_decimal 8 r
  | String "0" (String "b" r) | String "0" (String "B" r) => non_decimal 2 r
  | String "-" r => str_decimal true r
  | String "+" r => str_decimal false r
  | t => str_decimal false t
  end.

(** ** Values and objects *)

#[warnings="-register-all"]
Inductive jsvalue : Type :=
| JUndefined
| JNull
| JBool (b : bool)
| JNum (n : number)
| JStr (s : string)
| JArr (items : list jsvalue)
| JObj (props : list (string * jsvalue))
| JFun (name : string).   (* a function, known by its name *)

Definition obj : Type := list (string * jsvalue).

Fixpoint lookup (key : string) (o : obj) : option jsvalue :=
  match o with
  | [] => None
  | (k, v) :: r => if String.eqb k key then Some v else lookup key r
  end.

(** [o[key]] *)
Definition get (o : obj) (key : string) : jsvalue :=
  match lookup key o with
  | Some v => v
  | None => JUndefined
  end.

(** [o[key] = v]: an existing key keeps its place, a new one goes last
    (which is its place in [Object.keys] unless it is an array index). *)
Fixpoint set (key : string) (v : jsvalue) (o : obj) : obj :=
  match o with
  | [] => [(key, v)]
  | (k, x) :: r =>
      if String.eqb k key then (k, v) :: r else (k, x) :: set key v r
  end.

(** [Object.keys(o)] *)
Definition keys (o : obj) : list string := map fst o.

(** [key in o] *)
Definition has_key (key : string) (o : obj) : bool :=
  match lookup key o with
  | Some _ => true
  | None => false
  end.

(** [!!v] *)
Definition truthy (v : jsvalue) : bool :=
  match v with
  | JUndefined | JNull => false
  | JBool b => b
  | JNum NaN => false
  | JNum (Infinity _) => true
  | JNum (Finite _ m e) => negb (rounds_to_zero m e)
  | JStr s => negb (String.eqb s "")
  | JArr _ | JObj _ | JFun _ => true
  end.

(** [isObject(option)]: [!!option && typeof option === 'object' &&
    !isArray(option)] *)
Definition isObject (option : jsvalue) : bool :=
  match option with
  | JObj _ => true
  | _ => false
  end.

Fixpoint mem (key : string) (l : list string) : bool :=
  match l with
  | [] => false
  | k :: r => String.eqb k key || mem key r
  end.

Fixpoint nodup_keys (l : list string) : bool :=
  match l with
  | [] => true
  | k :: r => negb (mem k r) && nodup_keys r
  end.

(** No object anywhere inside the value holds a key twice. *)
Fixpoint wf_value (v : jsvalue) : bool :=
  match v with
  | JArr items => forallb wf_value items
  | JObj props =>
      nodup_keys (map fst props)
      && forallb (fun kv => wf_value (snd kv)) props
  | _ => true
  end.

Definition wf_obj (o : obj) : bool := wf_value (JObj o).

(** Nesting depth of objects: a flat object has depth 1. *)
Fixpoint depth (v : jsvalue) : nat :=
  match v with
  | JObj props => S (fold_right (fun kv d => Nat.max (depth (snd kv)) d) 0 props)
  | _ => 0
  end.

(* ===================================================================== *)
(** * 2. Config helpers                                                    *)
(* ===================================================================== *)

(** [SchemaProperty.type] *)
Inductive SchemaType : Type := TString | TBoolean | TNumber | TObject.

Record SchemaProperty : Type := { ptype : SchemaType }.

(** [Schema.properties]: a field may be listed with an undefined property. *)
Definition SchemaProperties : Type := list (string * option SchemaProperty).

Definition SchemaType_eqb (a b : SchemaType) : bool :=
  match a, b with
  | TString, TString | TBoolean, TBoolean
  | TNumber, TNumber | TObject, TObject => true
  | _, _ => false
  end.

(** [normaliseString(value, property)], lines 1-24.  [value] is a string at
    both call sites; the empty string is the only falsy one and trims to
    itself. *)
Definition normaliseString (value : string) (property : option SchemaProperty)
  : jsvalue :=
  let trimmedValue := trim value in
  let outputType := option_map ptype property in
  let outputType :=
    match outputType with
    | Some t => Some t
    | None =>
        let outputType :=
          if String.eqb trimmedValue "true" || String.eqb trimmedValue "false"
          then Some TBoolean else None in
        if (0 <? String.length trimmedValue)%nat && isFinite (Number trimmedValue)
        then Some TNumber else outputType
    end in
  match outputType with
  | Some TBoolean => JBool (String.eqb trimmedValue "true")
  | Some TNumber => JNum (Number trimmedValue)
  | _ => JStr value
  end.

(** One pass of the inner loop of [mergeConfigs] for a given way [rec] of
    merging two objects. *)
Definition merge_key (rec : obj -> obj -> option obj) (configObject : obj)
  (acc : option obj) (key : string) : option obj :=
  match acc with
  | None => None
  | Some formattedConfigObject =>
      let option := get formattedConfigObject key in
      let override := get configObject key in
      match option, override with
      | JObj a, JObj b =>
          match rec a b with
          | Some m => Some (set key (JObj m) formattedConfigObject)
          | None => None
          end
      | _, _ => Some (set key override formattedConfigObject)
      end
  end.

(** [mergeConfigs(...configObjects)], lines 30-44.  The recursive call
    [mergeConfigs(option, override)] takes [option] from the object under
    construction, so the recursion is bounded by [fuel]; [None] means the
    fuel ran out. *)
Fixpoint mergeConfigs (fuel : nat) (configObjects : list obj) : option obj :=
  match fuel with
  | O => None
  | S fuel' =>
      fold_left
        (fun acc configObject =>
           fold_left
             (merge_key (fun a b => mergeConfigs fuel' [a; b]) configObject)
             (keys configObject) acc)
        configObjects (Some [])
  end.

(** Fuel that is enough for the objects at hand. *)
Definition enough_fuel (configObjects : list obj) : nat :=
  fold_right (fun o d => Nat.max (depth (JObj o)) d) 1 configObjects.

(** The walk of [extractConfigByNamespace] along the parts of one dataset
    key, lines 56-67.  [current] starts at [newObject] and each step either
    descends into [current[name]] (created when it is not an object) or, at
    the last part, stores the normalised value; the objects on the path are
    updated in place in the source, which is the rebuilt path here.  A part
    [__proto__] is a name like any other here, while the source reaches
    [Object.prototype] through it: such keys are outside the model. *)
Fixpoint assign_parts (current : jsvalue) (keyParts : list string)
  (key namespace value : string) : jsvalue :=
  match keyParts with
  | [] => current
  | name :: rest =>
      match current with
      | JObj o =>
          match rest with
          | _ :: _ =>
              let next :=
                if isObject (get o name) then get o name else JObj [] in
              JObj (set name (assign_parts next rest key namespace value) o)
          | [] =>
              if negb (String.eqb key namespace)
              then JObj (set name (normaliseString value None) o)
              else current
          end
      | _ => current
      end
  end.

Definition is_object_property (property : option SchemaProperty) : bool :=
  match property with
  | Some p => SchemaType_eqb (ptype p) TObject
  | None => false
  end.

Fixpoint lookup_property (field : string) (properties : SchemaProperties)
  : option SchemaProperty :=
  match properties with
  | [] => None
  | (k, p) :: r => if String.eqb k field then p else lookup_property field r
  end.

Fixpoint lookup_string (key : string) (d : list (string * string))
  : option string :=
  match d with
  | [] => None
  | (k, v) :: r => if String.eqb k key then Some v else lookup_string key r
  end.

(** [extractConfigByNamespace(Component, dataset, namespace)], lines 45-70 *)
Definition extractConfigByNamespace (properties : SchemaProperties)
  (dataset : list (string * string)) (namespace : string) : jsvalue :=
  let property := lookup_property namespace properties in
  if negb (is_object_property property) then JUndefined
  else
    let newObject := JObj [(namespace, JObj [])] in
    let newObject :=
      fold_left
        (fun newObject kv =>
           assign_parts newObject (split_on "." (fst kv))
             (fst kv) namespace (snd kv))
        dataset newObject in
    match newObject with
    | JObj o => get o namespace
    | _ => JUndefined
    end.

(** [normaliseDataset(Component, dataset)], lines 127-138.  [field in
    dataset] is the presence of the data attribute, as it is for every
    field that is not named like a member of [Object.prototype]. *)
Definition normaliseDataset (properties : SchemaProperties)
  (dataset : list (string * string)) : obj :=
  fold_left
    (fun out fp =>
       let field := fst fp in
       let property := snd fp in
       let out :=
         match lookup_string field dataset with
         | Some v => set field (normaliseString v property) out
         | None => out
         end in
       if is_object_property property
       then set field (extractConfigByNamespace properties dataset field) out
       else out)
    properties [].

(** [Button.defaults] *)
Definition Button_defaults : obj :=
  [ ("preventDoubleClick", JBool false);
    ("enableValidation", JBool false);
    ("validationSelectors", JObj []);
    ("validationMessages", JObj []);
    ("focusOnError", JBool true);
    ("showErrorSummary", JBool true) ].

(** [Button.schema.properties] *)
Definition Button_schema : SchemaProperties :=
  [ ("preventDoubleClick", Some {| ptype := TBoolean |});
    ("enableValidation", Some {| ptype := TBoolean |});
    ("validationSelectors", Some {| ptype := TObject |});
    ("validationMessages", Some {| ptype := TObject |});
    ("focusOnError", Some {| ptype := TBoolean |});
    ("showErrorSummary", Some {| ptype := TBoolean |}) ].


(** ** Key-wise merge, from the data model of the specification

    "merging three sources in priority order [...], recursively merging
    nested objects, with later non-object values overriding earlier ones":
    where both the earlier and the later value are objects, every key of the
    earlier object stays in place, merged with the later object's value for
    that key when there is one, and the keys found only in the later object
    follow; in every other case the later value stands. *)
Fixpoint merge_value (earlier later : jsvalue) {struct earlier} : jsvalue :=
  match earlier, later with
  | JObj a, JObj b =>
      JObj
        (map (fun kv =>
                (fst kv,
                 match lookup (fst kv) b with
                 | Some vb => merge_value (snd kv) vb
                 | None => snd kv
                 end)) a
         ++ filter (fun kv => negb (mem (fst kv) (map fst a))) b)
  | _, _ => later
  end.

(** What a lower-priority and a higher-priority source give for one key. *)
Definition prefer (lower higher : option jsvalue) : option jsvalue :=
  match higher with
  | None => lower
  | Some h =>
      match lower with
      | Some l => Some (merge_value l h)
      | None => Some h
      end
  end.

(* ===================================================================== *)
(** * 3. The document                                                      *)
(* ===================================================================== *)

(** ** Selectors

    Selector text is read by [parse_selector], which covers the fragment of
    CSS that the component and its usual configuration need: selector lists
    of compound selectors built from a type selector, [#id], [.class],
    [[name="value"]] and [:checked].  Any other text - a selector the
    browser rejects with a [SyntaxError], or one it accepts that lies
    outside the fragment - is not given a meaning ([None]). *)

Inductive simple_selector : Type :=
| SType (name : string)
| SId (id : string)
| SClass (name : string)
| SName (value : string)
| SChecked.

Definition compound_selector : Type := list simple_selector.
Definition selector : Type := list compound_selector.

Definition is_letter (c : ascii) : bool :=
  let n := nat_of_ascii c in
  (((65 <=? n) && (n <=? 90)) || ((97 <=? n) && (n <=? 122)))%nat.

Definition is_digit (c : ascii) : bool :=
  let n := nat_of_ascii c in ((48 <=? n) && (n <=? 57))%nat.

Definition is_ident_start (c : ascii) : bool :=
  is_letter c || Ascii.eqb c "_".

Definition is_ident_char (c : ascii) : bool :=
  is_letter c || is_digit c || Ascii.eqb c "_" || Ascii.eqb c "-".

Definition lower_ascii (c : ascii) : ascii :=
  let n := nat_of_ascii c in
  if ((65 <=? n) && (n <=? 90))%nat then ascii_of_nat (n + 32) else c.

Definition upper_ascii (c : ascii) : ascii :=
  let n := nat_of_ascii c in
  if ((97 <=? n) && (n <=? 122))%nat then ascii_of_nat (n - 32) else c.

Fixpoint lower (s : string) : string :=
  match s with
  | EmptyString => EmptyString
  | String c r => String (lower_ascii c) (lower r)
  end.

(** The double quote, and the characters that may not stand unescaped in a
    double-quoted CSS string. *)
Definition dquote : ascii := ascii_of_nat 34.

Definition is_plain_string_char (c : ascii) : bool :=
  let n := nat_of_ascii c in
  negb ((n =? 34) || (n =? 92) || (n =? 10) || (n =? 12) || (n =? 13)
        || (n =? 0))%nat.

Inductive ident_kind : Type := KType | KId | KClass | KPseudo.

Inductive parse_mode : Type :=
| PStart                                  (* before a compound selector *)
| PSigil (k : ident_kind)                 (* after [#], [.] or [:] *)
| PIdent (k : ident_kind) (rev_acc : string)
| PAfterSimple                            (* after a complete simple selector *)
| PAttrName (rev_acc : string)            (* after [[] *)
| PAttrEq                                 (* after [[name=] *)
| PAttrValue (rev_acc : string)           (* inside the quoted value *)
| PAttrClose                              (* after the closing quote *)
| PTrail.                                 (* spaces after a compound *)

Definition finish_ident (k : ident_kind) (rev_acc : string)
  : option simple_selector :=
  let name := string_rev rev_acc in
  match k with
  | KType => Some (SType (lower name))
  | KId => Some (SId name)
  | KClass => Some (SClass name)
  | KPseudo => if String.eqb (lower name) "checked" then Some SChecked else None
  end.

(** Starts the simple selector that begins with [c], inside a compound. *)
Definition start_simple (c : ascii) : option parse_mode :=
  if Ascii.eqb c "#" then Some (PSigil KId)
  else if Ascii.eqb c "." then Some (PSigil KClass)
  else if Ascii.eqb c ":" then Some (PSigil KPseudo)
  else if Ascii.eqb c "[" then Some (PAttrName EmptyString)
  else None.

(** What follows a complete simple selector: a space, a comma, or the next
    simple selector of the same compound. *)
Definition after_simple (c : ascii) (current : compound_selector)
  (done : selector) : option (parse_mode * compound_selector * selector) :=
  if Ascii.eqb c " " then Some (PTrail, current, done)
  else if Ascii.eqb c "," then Some (PStart, [], rev current :: done)
  else match start_simple c with
       | Some m => Some (m, current, done)
       | None => None
       end.

(** [parse_from mode current done s]: [done] holds the finished compounds
    and [current] the simple selectors of the compound being read, both
    latest first. *)
Fixpoint parse_from (mode : parse_mode) (current : compound_selector)
  (done : selector) (s : string) {struct s} : option selector :=
  match s with
  | EmptyString =>
      match mode with
      | PIdent k acc =>
          match finish_ident k acc with
          | Some x => Some (rev (rev (x :: current) :: done))
          | None => None
          end
      | PAfterSimple | PTrail => Some (rev (rev current :: done))
      | _ => None
      end
  | String c r =>
      match mode with
      | PStart =>
          if Ascii.eqb c " " then parse_from PStart current done r
          else if is_ident_start c
          then parse_from (PIdent KType (String c EmptyString)) current done r
          else match start_simple c with
               | Some m => parse_from m current done r
               | None => None
               end
      | PSigil k =>
          if is_ident_start c
          then parse_from (PIdent k (String c EmptyString)) current done r
          else None
      | PIdent k acc =>
          if is_ident_char c
          then parse_from (PIdent k (String c acc)) current done r
          else match finish_ident k acc with
               | Some x =>
                   match after_simple c (x :: current) done with
                   | Some (m, current', done') => parse_from m current' done' r
                   | None => None
                   end
               | None => None
               end
      | PAfterSimple =>
          match after_simple c current done with
          | Some (m, current', done') => parse_from m current' done' r
          | None => None
          end
      | PAttrName acc =>
          if is_ident_char c
          then parse_from (PAttrName (String c acc)) current done r
          else if Ascii.eqb c "=" && String.eqb (string_rev acc) "name"
          then parse_from PAttrEq current done r
          else None
      | PAttrEq =>
          if Ascii.eqb c dquote
          then parse_from (PAttrValue EmptyString) current done r
          else None
      | PAttrValue acc =>
          if Ascii.eqb c dquote then
            parse_from PAttrClose (SName (string_rev acc) :: current) done r
          else if is_plain_string_char c
          then parse_from (PAttrValue (String c acc)) current done r
          else None
      | PAttrClose =>
          if Ascii.eqb c "]" then parse_from PAfterSimple current done r
          else None
      | PTrail =>
          if Ascii.eqb c " " then parse_from PTrail current done r
          else if Ascii.eqb c ","
          then parse_from PStart [] (rev current :: done) r
          else None
      end
  end.

Definition parse_selector (text : string) : option selector :=
  parse_from PStart [] [] text.

(** ** Elements and the tree *)

(** A piece of markup assigned to [innerHTML] through a template literal:
    literal text, or an interpolated value. *)
Inductive html_piece : Type :=
| Lit (text : string)
| Interp (v : jsvalue).

(** The data of one element.  [etype], [evalue] and [echecked] are the IDL
    properties [type], [value] and [checked] ([None] where the element has
    no such string property); the [class] attribute is held as the token
    set [classList] and never appears among [attributes]. *)
Record element : Type := {
  node_id : nat;
  tag : string;
  is_html : bool;
  attributes : list (string * string);
  classList : list string;
  etype : option string;
  evalue : option string;
  echecked : bool
}.

(** A node is an element with its children, or markup that was assigned to
    [innerHTML] and is kept unparsed (it also stands for text nodes). *)
#[warnings="-register-all"]
Inductive node : Type :=
| Node (e : element) (children : list node)
| Markup (pieces : list html_piece).

Definition has_id (id : nat) (n : node) : bool :=
  match n with
  | Node e _ => Nat.eqb (node_id e) id
  | Markup _ => false
  end.

(** [getAttribute(name)] *)
Definition getAttribute (e : element) (name : string) : option string :=
  lookup_string name (attributes e).

Fixpoint setAttribute_list (name value : string) (l : list (string * string))
  : list (string * string) :=
  match l with
  | [] => [(name, value)]
  | (k, x) :: r =>
      if String.eqb k name then (k, value) :: r
      else (k, x) :: setAttribute_list name value r
  end.

Definition with_attributes (e : element) (a : list (string * string)) : element :=
  {| node_id := node_id e; tag := tag e; is_html := is_html e;
     attributes := a; classList := classList e;
     etype := etype e; evalue := evalue e; echecked := echecked e |}.

Definition with_classList (e : element) (c : list string) : element :=
  {| node_id := node_id e; tag := tag e; is_html := is_html e;
     attributes := attributes e; classList := c;
     etype := etype e; evalue := evalue e; echecked := echecked e |}.

(** [e.setAttribute(name, value)] *)
Definition setAttribute (name value : string) (e : element) : element :=
  with_attributes e (setAttribute_list name value (attributes e)).

(** [e.classList.add(token)] and [e.classList.remove(token)] *)
Definition classList_add (token : string) (e : element) : element :=
  if mem token (classList e) then e
  else with_classList e (classList e ++ [token]).

Definition classList_remove (token : string) (e : element) : element :=
  with_classList e (filter (fun c => negb (String.eqb c token)) (classList e)).

Definition matches_simple (e : element) (s : simple_selector) : bool :=
  match s with
  | SType name =>
      String.eqb (if is_html e then lower (tag e) else tag e) name
  | SId id =>
      match getAttribute e "id" with
      | Some v => String.eqb v id
      | None => false
      end
  | SClass name => mem name (classList e)
  | SName value =>
      match getAttribute e "name" with
      | Some v => String.eqb v value
      | None => false
      end
  | SChecked =>
      echecked e && String.eqb (tag e) "input"
      && match etype e with
         | Some t => String.eqb t "checkbox" || String.eqb t "radio"
         | None => false
         end
  end.

(** [e.matches(selector)] for a parsed selector *)
Definition matches (sel : selector) (e : element) : bool :=
  existsb (fun compound => forallb (matches_simple e) compound) sel.

(** The elements of a subtree in document order, its root first. *)
Fixpoint elements (n : node) : list element :=
  match n with
  | Node e children => e :: flat_map elements children
  | Markup _ => []
  end.

Definition first_some {A B : Type} (f : A -> option B) : list A -> option B :=
  fix go (l : list A) : option B :=
    match l with
    | [] => None
    | x :: r => match f x with
                | Some y => Some y
                | None => go r
                end
    end.

(** The subtree rooted at the element [id]. *)
Fixpoint find (id : nat) (n : node) : option node :=
  match n with
  | Node e children =>
      if Nat.eqb (node_id e) id then Some n
      else first_some (find id) children
  | Markup _ => None
  end.

(** The element [id] followed by its ancestors, nearest first. *)
Fixpoint ancestors_or_self (id : nat) (n : node) : option (list element) :=
  match n with
  | Node e children =>
      if Nat.eqb (node_id e) id then Some [e]
      else match first_some (ancestors_or_self id) children with
           | Some path => Some (path ++ [e])
           | None => None
           end
  | Markup _ => None
  end.

(** Applies [f] to the element [id]. *)
Fixpoint update (id : nat) (f : element -> element) (n : node) : node :=
  match n with
  | Node e children =>
      Node (if Nat.eqb (node_id e) id then f e else e)
           (map (update id f) children)
  | Markup _ => n
  end.

(** [node.remove()] for the element [id]; the root of the document stays. *)
Fixpoint remove_node (id : nat) (n : node) : node :=
  match n with
  | Node e children =>
      Node e (flat_map
                (fun k => if has_id id k then [] else [remove_node id k])
                children)
  | Markup _ => n
  end.

(** [ref.parentNode.insertBefore(new, ref)] for the element [ref] *)
Fixpoint insert_before (ref : nat) (new : node) (n : node) : node :=
  match n with
  | Node e children =>
      Node e (flat_map
                (fun k => if has_id ref k then [new; k]
                          else [insert_before ref new k])
                children)
  | Markup _ => n
  end.

(** [parent.insertBefore(new, parent.firstChild)] for the element [parent] *)
Fixpoint prepend_child (parent : nat) (new : node) (n : node) : node :=
  match n with
  | Node e children =>
      if Nat.eqb (node_id e) parent then Node e (new :: children)
      else Node e (map (prepend_child parent new) children)
  | Markup _ => n
  end.

(** The proper descendants of the element [scope], in document order. *)
Definition descendants (scope : nat) (d : node) : list element :=
  match find scope d with
  | Some (Node _ children) => flat_map elements children
  | _ => []
  end.

(** ** Property access on values *)

Definition string_of_nat (n : nat) : string :=
  NilZero.string_of_uint (Nat.to_uint n).

(** The array index that a property key denotes, if any. *)
Definition index_of_key (key : string) : option nat :=
  match read_digits 10 key 0%N 0 with
  | (v, S _, EmptyString) =>
      if String.eqb (string_of_nat (N.to_nat v)) key
      then Some (N.to_nat v) else None
  | _ => None
  end.

Definition length_value (n : nat) : jsvalue := JNum (Finite false (N.of_nat n) 0).

(** The methods that every plain object inherits from [Object.prototype]. *)
Definition Object_prototype_methods : list string :=
  [ "constructor"; "hasOwnProperty"; "isPrototypeOf"; "propertyIsEnumerable";
    "toLocaleString"; "toString"; "valueOf";
    "__defineGetter__"; "__defineSetter__";
    "__lookupGetter__"; "__lookupSetter__" ].

(** [key] names a member of [Object.prototype]: one of its methods, or the
    accessor [__proto__]. *)
Definition inherited_name (key : string) : bool :=
  mem key Object_prototype_methods || String.eqb key "__proto__".

(** What a read of [key] finds on [Object.prototype] once the object itself
    has no such property: the method of that name, [Object.prototype] itself
    (an object without enumerable properties) for [__proto__], and
    [undefined] for every other key. *)
Definition inherited (key : string) : jsvalue :=
  if mem key Object_prototype_methods then JFun key
  else if String.eqb key "__proto__" then JObj []
  else JUndefined.

(** [v[key]] for a value that is neither [undefined] nor [null] and a key
    that the code takes from its data.  The read of a plain object goes on
    to [Object.prototype] where the object has no such property; of an
    array and of a string the length and the indexed members are
    modelled. *)
Definition member (v : jsvalue) (key : string) : jsvalue :=
  match v with
  | JObj o =>
      match lookup key o with
      | Some x => x
      | None => inherited key
      end
  | JArr items =>
      if String.eqb key "length" then length_value (List.length items)
      else match index_of_key key with
           | Some i => nth i items JUndefined
           | None => JUndefined
           end
  | JStr s =>
      if String.eqb key "length" then length_value (String.length s)
      else match index_of_key key with
           | Some i => match String.get i s with
                       | Some c => JStr (String c EmptyString)
                       | None => JUndefined
                       end
           | None => JUndefined
           end
  | _ => JUndefined
  end.

Fixpoint indexed {A : Type} (f : A -> jsvalue) (i : nat) (l : list A) : obj :=
  match l with
  | [] => []
  | x :: r => (string_of_nat i, f x) :: indexed f (S i) r
  end.

(** [Object.entries(v)] *)
Definition entries (v : jsvalue) : obj :=
  match v with
  | JObj o => o
  | JArr items => indexed (fun x => x) 0 items
  | JStr s =>
      indexed (fun c => JStr (String c EmptyString)) 0 (list_ascii_of_string s)
  | _ => []
  end.

(** [a || b] *)
Definition js_or (a b : jsvalue) : jsvalue := if truthy a then a else b.

(** ** The page state and the effects of the script *)

Inductive exn : Type :=
| TypeError
| SelectorError     (* selector text without a meaning in the model *)
| ElementError
| InitError
| SupportError.

Inductive result (A : Type) : Type :=
| Ok (a : A)
| Throw (e : exn).
Arguments Ok {A} a.
Arguments Throw {A} e.

(** What the script can observe and change: the document, the supply of
    identifiers for created elements, the elements on which [focus()] was
    called (latest first), the [defaultPrevented] flag of the event being
    dispatched, the host's clock (in milliseconds) and pending timers, the
    registered listeners, and the one mutable field of the Button instance.
    Timer handles are integers greater than zero. *)
Record State : Type := {
  document : node;
  next_node : nat;
  focus_calls : list nat;
  defaultPrevented : bool;
  clock : Z;
  timers : list (positive * Z);
  next_timer : positive;
  listeners : list (nat * string);
  debounceFormSubmitTimer : option positive
}.

Definition with_document (d : node) (s : State) : State :=
  {| document := d; next_node := next_node s; focus_calls := focus_calls s;
     defaultPrevented := defaultPrevented s; clock := clock s;
     timers := timers s; next_timer := next_timer s;
     listeners := listeners s;
     debounceFormSubmitTimer := debounceFormSubmitTimer s |}.

Definition with_next_node (n : nat) (s : State) : State :=
  {| document := document s; next_node := n; focus_calls := focus_calls s;
     defaultPrevented := defaultPrevented s; clock := clock s;
     timers := timers s; next_timer := next_timer s;
     listeners := listeners s;
     debounceFormSubmitTimer := debounceFormSubmitTimer s |}.

Definition with_focus_calls (f : list nat) (s : State) : State :=
  {| document := document s; next_node := next_node s; focus_calls := f;
     defaultPrevented := defaultPrevented s; clock := clock s;
     timers := timers s; next_timer := next_timer s;
     listeners := listeners s;
     debounceFormSubmitTimer := debounceFormSubmitTimer s |}.

Definition with_defaultPrevented (b : bool) (s : State) : State :=
  {| document := document s; next_node := next_node s;
     focus_calls := focus_calls s;
     defaultPrevented := b; clock := clock s;
     timers := timers s; next_timer := next_timer s;
     listeners := listeners s;
     debounceFormSubmitTimer := debounceFormSubmitTimer s |}.

Definition with_timers (c : Z) (t : list (positive * Z)) (n : positive)
  (field : option positive) (s : State) : State :=
  {| document := document s; next_node := next_node s;
     focus_calls := focus_calls s;
     defaultPrevented := defaultPrevented s; clock := c;
     timers := t; next_timer := n;
     listeners := listeners s;
     debounceFormSubmitTimer := field |}.

Definition with_listeners (l : list (nat * string)) (s : State) : State :=
  {| document := document s; next_node := next_node s;
     focus_calls := focus_calls s;
     defaultPrevented := defaultPrevented s; clock := clock s;
     timers := timers s; next_timer := next_timer s;
     listeners := l;
     debounceFormSubmitTimer := debounceFormSubmitTimer s |}.

(** Computations that read and change the state and may throw; what was
    changed before a throw stays changed. *)
Definition M (A : Type) : Type := State -> result A * State.

Definition ret {A : Type} (a : A) : M A := fun s => (Ok a, s).

Definition throw {A : Type} (e : exn) : M A := fun s => (Throw e, s).

Definition bind {A B : Type} (m : M A) (k : A -> M B) : M B :=
  fun s =>
    match m s with
    | (Ok a, s') => k a s'
    | (Throw e, s') => (Throw e, s')
    end.

Notation "x <- m ;; k" := (bind m (fun x => k))
  (at level 61, m at next level, right associativity).
Notation "m ;; k" := (bind m (fun _ => k))
  (at level 61, right associativity).

Definition modify_document (f : node -> node) : M unit :=
  fun s => (Ok tt, with_document (f (document s)) s).

(** [list.forEach(f)] *)
Fixpoint forEach {A : Type} (f : A -> M unit) (l : list A) : M unit :=
  match l with
  | [] => ret tt
  | x :: r => f x ;; forEach f r
  end.

(** [scope.querySelectorAll(text)] as the list of the matching elements'
    identifiers, in document order. *)
Definition querySelectorAll (scope : nat) (text : string) : M (list nat) :=
  fun s =>
    match parse_selector text with
    | None => (Throw SelectorError, s)
    | Some sel =>
        (Ok (map node_id (filter (matches sel) (descendants scope (document s)))), s)
    end.

(** [scope.querySelector(text)] *)
Definition querySelector (scope : nat) (text : string) : M (option nat) :=
  ids <- querySelectorAll scope text ;;
  ret (hd_error ids).

(** [element.closest(text)] *)
Definition closest (id : nat) (text : string) : M (option nat) :=
  fun s =>
    match parse_selector text with
    | None => (Throw SelectorError, s)
    | Some sel =>
        (Ok match ancestors_or_self id (document s) with
            | Some path => option_map node_id (List.find (matches sel) path)
            | None => None
            end, s)
    end.

(** The data of the element [id] as it stands in the document. *)
Definition element_data (id : nat) (s : State) : option element :=
  match find id (document s) with
  | Some (Node e _) => Some e
  | _ => None
  end.

(** A new HTML element, without attributes or children. *)
Definition new_element (id : nat) (name : string) : element :=
  {| node_id := id; tag := name; is_html := true;
     attributes := []; classList := [];
     etype := None; evalue := None; echecked := false |}.

(** [document.createElement(tag)]: a fresh HTML element, not yet attached. *)
Definition createElement (name : string) : M element :=
  fun s =>
    (Ok (new_element (next_node s) name), with_next_node (S (next_node s)) s).

(** [event.preventDefault()] *)
Definition preventDefault : M unit :=
  fun s => (Ok tt, with_defaultPrevented true s).

(** [element.focus()] *)
Definition focus (id : nat) : M unit :=
  fun s => (Ok tt, with_focus_calls (id :: focus_calls s) s).

(** [window.setTimeout(callback, delay)]; the only callback the component
    registers is the one that resets [debounceFormSubmitTimer]. *)
Definition setTimeout (delay : Z) : M positive :=
  fun s =>
    (Ok (next_timer s),
     with_timers (clock s) (timers s ++ [(next_timer s, (clock s + delay)%Z)])
       (Pos.succ (next_timer s)) (debounceFormSubmitTimer s) s).

Definition set_debounceFormSubmitTimer (t : option positive) : M unit :=
  fun s => (Ok tt, with_timers (clock s) (timers s) (next_timer s) t s).

(** The host lets [ms] milliseconds pass: every timer that is due by then
    fires and is discarded; a firing timer runs its callback,
    [this.debounceFormSubmitTimer = null]. *)
Definition advance (ms : Z) (s : State) : State :=
  let c := (clock s + ms)%Z in
  let due := filter (fun t => (snd t <=? c)%Z) (timers s) in
  let pending := filter (fun t => negb (snd t <=? c)%Z) (timers s) in
  with_timers c pending (next_timer s)
    (match due with
     | [] => debounceFormSubmitTimer s
     | _ :: _ => None
     end) s.

(* ===================================================================== *)
(** * 4. The component base class                                          *)
(* ===================================================================== *)

(** [Button.moduleName] *)
Definition moduleName : string := "govuk-button".

Definition init_attribute : string := ("data-" ++ moduleName ++ "-init")%string.

(** [isInitialised($root, moduleName)], lines 71-73 *)
Definition isInitialised (e : element) : bool :=
  is_html e
  && match getAttribute e init_attribute with
     | Some _ => true
     | None => false
     end.

(** [document.body]: the first [body] or [frameset] child of the root. *)
Definition document_body (d : node) : option element :=
  match d with
  | Node _ children =>
      List.find
        (fun e => String.eqb (tag e) "body" || String.eqb (tag e) "frameset")
        (flat_map (fun k => match k with
                            | Node e _ => [e]
                            | Markup _ => []
                            end) children)
  | Markup _ => None
  end.

(** [isSupported($scope = document.body)], lines 84-89 *)
Definition isSupported (d : node) : bool :=
  match document_body d with
  | None => false
  | Some scope => mem "govuk-frontend-supported" (classList scope)
  end.

(** [GOVUKFrontendComponent.checkSupport()] *)
Definition checkSupport : M unit :=
  fun s =>
    if isSupported (document s) then (Ok tt, s) else (Throw SupportError, s).

(** [checkInitialised()] *)
Definition checkInitialised (e : element) : M unit :=
  if negb (String.eqb moduleName "") && isInitialised e
  then throw InitError else ret tt.

(** [new GOVUKFrontendComponent($root)], lines 197-217, for the child class
    [Button], whose [moduleName] is a string and whose [elementType] is
    [HTMLElement].  [$root] is [null] ([None]) or an element of the
    document. *)
Definition GOVUKFrontendComponent_constructor (root : option nat) : M nat :=
  fun s =>
    match match root with
          | Some id => element_data id s
          | None => None
          end with
    | Some e =>
        if is_html e then
          (checkSupport ;;
           checkInitialised e ;;
           modify_document (update (node_id e) (setAttribute init_attribute "")) ;;
           ret (node_id e)) s
        else (Throw ElementError, s)
    | None => (Throw ElementError, s)
    end.

(* ===================================================================== *)
(** * 5. The Button class                                                  *)
(* ===================================================================== *)

Definition DEBOUNCE_TIMEOUT_IN_SECONDS : Z := 1.

(** The fields of a Button that are set once, by the constructor. *)
Record Button : Type := {
  root : nat;
  config : obj;
  form : option nat
}.

(** An entry of the [errors] array of [handleFormSubmit]. *)
Record ValidationError : Type := {
  field : string;
  element_ref : nat;
  message : jsvalue
}.

(** [mergeConfigs] run with fuel that is enough for its arguments. *)
Definition mergeConfigs_run (configObjects : list obj) : obj :=
  match mergeConfigs (enough_fuel configObjects) configObjects with
  | Some merged => merged
  | None => []
  end.

(** ** [element.dataset] *)

Definition is_upper (c : ascii) : bool :=
  let n := nat_of_ascii c in ((65 <=? n) && (n <=? 90))%nat.

Definition is_lower (c : ascii) : bool :=
  let n := nat_of_ascii c in ((97 <=? n) && (n <=? 122))%nat.

Fixpoint has_upper (s : string) : bool :=
  match s with
  | EmptyString => false
  | String c r => is_upper c || has_upper r
  end.

(** A hyphen followed by a lower-case letter becomes that letter in upper
    case. *)
Fixpoint camel_case (s : string) : string :=
  match s with
  | String "-" (String c r as rest) =>
      if is_lower c then String (upper_ascii c) (camel_case r)
      else String "-" (camel_case rest)
  | String c r => String c (camel_case r)
  | EmptyString => EmptyString
  end.

Definition dataset_entry (attribute : string * string)
  : list (string * string) :=
  match fst attribute with
  | String "d" (String "a" (String "t" (String "a" (String "-" name)))) =>
      if has_upper name then [] else [(camel_case name, snd attribute)]
  | _ => []
  end.

Definition dataset (e : element) : list (string * string) :=
  flat_map dataset_entry (attributes e).

(** [$root.addEventListener(type, ...)]: the listener is the method of this
    Button that handles [type]. *)
Definition addEventListener (target : nat) (type : string) : M unit :=
  fun s => (Ok tt, with_listeners (listeners s ++ [(target, type)]) s).

(** [new Button($root, config)], lines 254-262 *)
Definition Button_constructor (root : option nat) (config : obj) : M Button :=
  id <- GOVUKFrontendComponent_constructor root ;;
  set_debounceFormSubmitTimer None ;;
  e <- (fun s => match element_data id s with
                 | Some e => (Ok e, s)
                 | None => (Throw TypeError, s)
                 end) ;;
  let merged :=
    mergeConfigs_run
      [Button_defaults; config; normaliseDataset Button_schema (dataset e)] in
  form <- closest id "form" ;;
  addEventListener id "keydown" ;;
  addEventListener id "click" ;;
  ret {| root := id; config := merged; form := form |}.

(** ** Validation *)

Definition quoted (s : string) : string :=
  String dquote (s ++ String dquote EmptyString)%string.

(** [$element.type === t] *)
Definition has_type (e : element) (t : string) : bool :=
  match etype e with
  | Some x => String.eqb x t
  | None => false
  end.

(** [validateElement($element, field)], lines 315-324 *)
Definition validateElement (form : nat) (id : nat) (field : string) : M bool :=
  fun s =>
    match element_data id s with
    | None => (Throw TypeError, s)
    | Some e =>
        if has_type e "checkbox" then (Ok (echecked e), s)
        else if has_type e "radio" then
          match getAttribute e "name" with
          | Some name =>
              if negb (String.eqb name "") then
                (found <- querySelector form
                            ("input[name=" ++ quoted name ++ "]:checked")%string ;;
                 ret (match found with Some _ => true | None => false end)) s
              else (Ok false, s)
          | None => (Ok false, s)
          end
        else
          match evalue e with
          | Some v => (Ok (negb (String.eqb (trim v) "")), s)
          | None => (Throw TypeError, s)
          end
    end.

(** [clearErrors()], lines 325-332 *)
Definition clearErrors (form : nat) : M unit :=
  groups <- querySelectorAll form ".govuk-form-group--error" ;;
  forEach
    (fun g => modify_document (update g (classList_remove "govuk-form-group--error")))
    groups ;;
  messages <- querySelectorAll form ".govuk-error-message" ;;
  forEach (fun m => modify_document (remove_node m)) messages ;;
  errorSummary <- querySelector form ".govuk-error-summary" ;;
  match errorSummary with
  | Some x => modify_document (remove_node x)
  | None => ret tt
  end.

(** The markup of one inline error message. *)
Definition error_markup (msg : jsvalue) : list html_piece :=
  [ Lit ("<span class=" ++ quoted "govuk-visually-hidden"
         ++ ">Error:</span> ")%string;
    Interp msg ].

(** The markup of the error summary. *)
Definition summary_markup (errors : list ValidationError) : list html_piece :=
  [ Lit ("
      <div role=" ++ quoted "alert" ++ ">
        <h2 class=" ++ quoted "govuk-error-summary__title" ++ ">
          There is a problem
        </h2>
        <div class=" ++ quoted "govuk-error-summary__body" ++ ">
          <ul class=" ++ quoted "govuk-list govuk-error-summary__list" ++ ">
            ")%string ]
  ++ flat_map (fun err => [ Lit "
              <li>"; Interp (message err); Lit "</li>
            " ]) errors
  ++ [ Lit "
          </ul>
        </div>
      </div>
    " ].

(** [createErrorSummary(errors)], lines 364-385 *)
Definition createErrorSummary (form : nat) (errors : list ValidationError)
  : M unit :=
  summary <- createElement "div" ;;
  let summary := with_classList summary ["govuk-error-summary"] in
  let summary := setAttribute "data-module" "govuk-error-summary" summary in
  let summary := Node summary [Markup (summary_markup errors)] in
  modify_document (prepend_child form summary).

(** The callback of [errors.forEach] in [showErrors], lines 339-354 *)
Definition showError (err : ValidationError) : M unit :=
  formGroup <- closest (element_ref err) ".govuk-form-group" ;;
  match formGroup with
  | None => ret tt
  | Some g =>
      modify_document (update g (classList_add "govuk-form-group--error")) ;;
      error <- createElement "p" ;;
      let error := with_classList error ["govuk-error-message"] in
      let error := Node error [Markup (error_markup (message err))] in
      fld <- querySelector g ".govuk-input, .govuk-fieldset" ;;
      match fld with
      | Some f => modify_document (insert_before f error)
      | None => ret tt
      end
  end.

(** [showErrors(errors)], lines 338-358 *)
Definition showErrors (this : Button) (form : nat)
  (errors : list ValidationError) : M unit :=
  forEach showError errors ;;
  if truthy (get (config this) "showErrorSummary")
     && (0 <? List.length errors)%nat
  then createErrorSummary form errors
  else ret tt.

(** [this.config.validationMessages?.[field] || 'This field is required'] *)
Definition error_message (this : Button) (field : string) : jsvalue :=
  let validationMessages := get (config this) "validationMessages" in
  js_or
    (match validationMessages with
     | JUndefined | JNull => JUndefined
     | v => member v field
     end)
    (JStr "This field is required").

(** The [for] loop of [handleFormSubmit], lines 286-299, with its two
    variables [isValid] and [errors].  A selector that is not a string
    would be converted by the browser; the model gives a meaning to strings
    only. *)
Fixpoint validate_fields (this : Button) (form : nat) (fields : obj)
  (isValid : bool) (errors : list ValidationError)
  : M (bool * list ValidationError) :=
  match fields with
  | [] => ret (isValid, errors)
  | (field, selector) :: rest =>
      found <- match selector with
               | JStr text => querySelector form text
               | _ => throw SelectorError
               end ;;
      match found with
      | None => validate_fields this form rest isValid errors
      | Some id =>
          valid <- validateElement form id field ;;
          if negb valid then
            validate_fields this form rest false
              (errors ++ [ {| field := field; element_ref := id;
                              message := error_message this field |} ])
          else validate_fields this form rest isValid errors
      end
  end.

(** [handleFormSubmit(event)], lines 281-307 *)
Definition handleFormSubmit (this : Button) : M unit :=
  match form this with
  | None => throw TypeError
  | Some form =>
      clearErrors form ;;
      let validationSelectors :=
        js_or (get (config this) "validationSelectors") (JObj []) in
      checked <- validate_fields this form (entries validationSelectors) true [] ;;
      let '(isValid, errors) := checked in
      if negb isValid then
        preventDefault ;;
        showErrors this form errors ;;
        match errors with
        | first :: _ =>
            if truthy (get (config this) "focusOnError")
            then focus (element_ref first) else ret tt
        | [] => ret tt
        end
      else ret tt
  end.

(** ** Clicks *)

(** [debounce(event)], lines 396-407: [undefined], or [false] when the
    click is debounced. *)
Definition debounce (this : Button) : M jsvalue :=
  if negb (truthy (get (config this) "preventDoubleClick")) then ret JUndefined
  else
    fun s =>
      match debounceFormSubmitTimer s with
      | Some _ => (preventDefault ;; ret (JBool false)) s
      | None =>
          (timer <- setTimeout (DEBOUNCE_TIMEOUT_IN_SECONDS * 1000) ;;
           set_debounceFormSubmitTimer (Some timer) ;;
           ret JUndefined) s
      end.

(** [this.$root.getAttribute('type') === 'submit'] *)
Definition root_is_submit (this : Button) (s : State) : bool :=
  match element_data (root this) s with
  | Some e =>
      match getAttribute e "type" with
      | Some t => String.eqb t "submit"
      | None => false
      end
  | None => false
  end.

(** What [handleClick] does once the click has passed the debounce,
    lines 272-274. *)
Definition validate_on_submit (this : Button) : M unit :=
  fun s =>
    if truthy (get (config this) "enableValidation")
       && match form this with Some _ => true | None => false end
       && root_is_submit this s
    then handleFormSubmit this s
    else (Ok tt, s).

(** [handleClick(event)], lines 268-275 *)
Definition handleClick (this : Button) : M unit :=
  debounced <- debounce this ;;
  match debounced with
  | JBool false => ret tt
  | _ => validate_on_submit this
  end.

(** The browser dispatches a click event to the Button's listener: a fresh
    event, whose default has not been prevented. *)
Definition click (this : Button) : M unit :=
  fun s => handleClick this (with_defaultPrevented false s).

(* ===================================================================== *)
(** * 6. Sample pages                                                      *)
(* ===================================================================== *)

Definition el (id : nat) (t : string) (attrs : list (string * string))
  (classes : list string) (ty val : option string) (chk : bool) : element :=
  {| node_id := id; tag := t; is_html := true; attributes := attrs;
     classList := classes; etype := ty; evalue := val; echecked := chk |}.

Definition page_of (body_classes : list string) (content : list node) : node :=
  Node (el 0 "html" [] [] None None false)
    [ Node (el 1 "body" [] body_classes None None false) content ].

Definition state_of (d : node) : State :=
  {| document := d; next_node := 100; focus_calls := [];
     defaultPrevented := false; clock := 0; timers := [];
     next_timer := 1%positive; listeners := [];
     debounceFormSubmitTimer := None |}.

(** ** Trial parsing, from the specification

    "coerce string attribute values to boolean/number/string by trial
    parsing": a value whose trimmed form is [true] or [false] becomes that
    boolean, a value whose trimmed form is non-empty and reads as a finite
    number becomes that number, and any other value stays the string it
    was. *)
Definition coerced_by_trial_parsing (value : string) (output : jsvalue) : Prop :=
  (trim value = "true" -> output = JBool true)
  /\ (trim value = "false" -> output = JBool false)
  /\ (trim value <> "" -> isFinite (Number (trim value)) = true ->
      output = JNum (Number (trim value)))
  /\ (trim value <> "true" -> trim value <> "false" ->
      (trim value = "" \/ isFinite (Number (trim value)) = false) ->
      output = JStr value).

(** Coercion to the type that the schema gives for a field. *)
Definition coerced_to_type (t : SchemaType) (value : string) : jsvalue :=
  match t with
  | TBoolean => JBool (String.eqb (trim value) "true")
  | TNumber => JNum (Number (trim value))
  | TString | TObject => JStr value
  end.

(** ** Validation, from the specification *)





Definition default_message : jsvalue := JStr "This field is required".

(** Sample form: a checked radio button whose [name] attribute is empty. *)
Definition page_radio_empty_name : node :=
  page_of ["govuk-frontend-supported"]
    [ Node (el 2 "form" [] [] None None false)
        [ Node (el 3 "input" [("name", "")] [] (Some "radio") (Some "on") true) [] ] ].



(** Sample form: a text input holding only spaces, a checkbox and a group
    of radio buttons, with a submit button. *)
Definition page_form : node :=
  page_of ["govuk-frontend-supported"]
    [ Node (el 2 "form" [] [] None None false)
        [ Node (el 3 "div" [] ["govuk-form-group"] None None false)
            [ Node (el 4 "input" [("id", "email")] ["govuk-input"]
                     (Some "text") (Some "  ") false) [] ];
          Node (el 5 "div" [] ["govuk-form-group"] None None false)
            [ Node (el 6 "fieldset" [] ["govuk-fieldset"]
                     (Some "fieldset") None false)
                [ Node (el 7 "input" [("name", "colour"); ("id", "red")] []
                         (Some "radio") (Some "red") false) [];
                  Node (el 8 "input" [("name", "colour"); ("id", "blue")] []
                         (Some "radio") (Some "blue") true) [] ] ];
          Node (el 9 "input" [("id", "terms")] [] (Some "checkbox") (Some "on") false) [];
          Node (el 10 "button" [("type", "submit")] ["govuk-button"]
                 (Some "submit") (Some "") false) [] ] ].

Definition button_with (cfg : obj) : Button :=
  {| root := 10; config := cfg; form := Some 2 |}.

(** Sample pages for construction: a button that is already initialised,
    on a page with and without the support class, and an SVG element. *)
Definition initialised_button : node :=
  Node (el 2 "button" [("data-govuk-button-init", "")] ["govuk-button"]
          (Some "submit") (Some "") false) [].

Definition page_initialised : node :=
  page_of ["govuk-frontend-supported"] [initialised_button].

Definition page_initialised_unsupported : node :=
  page_of [] [initialised_button].

Definition page_svg_root : node :=
  page_of ["govuk-frontend-supported"]
    [ Node {| node_id := 2; tag := "svg"; is_html := false; attributes := [];
              classList := []; etype := None; evalue := None;
              echecked := false |} [] ].

(** ** Debounce, from the specification *)

(** The state in which [debounce] leaves a click that it lets through: a
    timer is pending, due one second from now, and its handle is stored in
    [debounceFormSubmitTimer]. *)
Definition timer_started (s : State) : State :=
  with_timers (clock s)
    (timers s ++ [(next_timer s, (clock s + 1000)%Z)])
    (Pos.succ (next_timer s)) (Some (next_timer s)) s.

(** What the host holds about time, and the Button's timer field. *)
Definition timer_state (s : State)
  : Z * list (positive * Z) * positive * option positive :=
  (clock s, timers s, next_timer s, debounceFormSubmitTimer s).

(** A computation leaves a view of the state as it found it. *)
Definition preserves {X A : Type} (view : State -> X) (m : M A) : Prop :=
  forall s, view (snd (m s)) = view s.

(** The Button with another [config.validationSelectors]. *)
Definition with_validationSelectors (this : Button) (selectors : obj) : Button :=
  {| root := root this;
     config := set "validationSelectors" (JObj selectors) (config this);
     form := form this |}.

(** Sample configuration: two fields to validate, one of them with a
    message of its own. *)
Definition sample_selectors : obj :=
  [("email", JStr "#email"); ("terms", JStr "#terms")].

Definition sample_config (focusOnError showErrorSummary : bool) : obj :=
  [ ("preventDoubleClick", JBool false);
    ("enableValidation", JBool true);
    ("validationSelectors", JObj sample_selectors);
    ("validationMessages", JObj [("email", JStr "Enter an email")]);
    ("focusOnError", JBool focusOnError);
    ("showErrorSummary", JBool showErrorSummary) ].

(** ** Identifiers, and operations on the children of the form *)

Definition ids (n : node) : list nat := map node_id (elements n).

Definition forest_elements (ks : list node) : list element :=
  flat_map elements ks.

Definition forest_ids (ks : list node) : list nat :=
  map node_id (forest_elements ks).

Fixpoint unique (l : list nat) : bool :=
  match l with
  | [] => true
  | x :: r => negb (existsb (Nat.eqb x) r) && unique r
  end.

(** Every element of the document has its own identifier, below the
    supply of identifiers for new elements. *)
Definition wf_state (s : State) : bool :=
  unique (ids (document s))
  && forallb (fun i => i <? next_node s)%nat (ids (document s)).

(** Applies [T] to the list of children of the element [f]. *)
Fixpoint on_children (f : nat) (T : list node -> list node) (n : node) : node :=
  match n with
  | Node e ks =>
      if Nat.eqb (node_id e) f then Node e (T ks)
      else Node e (map (on_children f T) ks)
  | Markup _ => n
  end.

(** The three mutations, on a list of sibling nodes. *)
Definition updateF (x : nat) (h : element -> element) (ks : list node)
  : list node :=
  map (update x h) ks.

Definition removeF (x : nat) (ks : list node) : list node :=
  flat_map (fun k => if has_id x k then [] else [remove_node x k]) ks.

Definition insertF (r : nat) (new : node) (ks : list node) : list node :=
  flat_map (fun k => if has_id r k then [new; k]
                     else [insert_before r new k]) ks.

Definition root_targeted (target : nat -> bool) (k : node) : bool :=
  match k with
  | Node e _ => target (node_id e)
  | Markup _ => false
  end.

(** Applies [h] to the elements that satisfy [P], throughout a subtree. *)
Fixpoint update_where (P : element -> bool) (h : element -> element)
  (n : node) : node :=
  match n with
  | Node e ks => Node (if P e then h e else e) (map (update_where P h) ks)
  | Markup _ => n
  end.

(** Drops the subtrees whose root satisfies [P]. *)
Fixpoint prune (P : element -> bool) (n : node) : list node :=
  match n with
  | Node e ks => if P e then [] else [Node e (flat_map (prune P) ks)]
  | Markup _ => [n]
  end.

Definition remove_where (P : element -> bool) (n : node) : node :=
  match n with
  | Node e ks => Node e (flat_map (prune P) ks)
  | Markup _ => n
  end.

Definition memn (x : nat) (l : list nat) : bool := existsb (Nat.eqb x) l.

(** ** The effect of [clearErrors] on the document *)

Definition sel_error_group : selector := [[SClass "govuk-form-group--error"]].
Definition sel_message : selector := [[SClass "govuk-error-message"]].
Definition sel_summary : selector := [[SClass "govuk-error-summary"]].
Definition sel_group : selector := [[SClass "govuk-form-group"]].
Definition sel_field : selector :=
  [[SClass "govuk-input"]; [SClass "govuk-fieldset"]].

(** The identifiers that [scope.querySelectorAll] returns for a parsed
    selector. *)
Definition select (scope : nat) (sel : selector) (d : node) : list nat :=
  map node_id (filter (matches sel) (descendants scope d)).

Definition selectF (sel : selector) (ks : list node) : list nat :=
  map node_id (filter (matches sel) (forest_elements ks)).

Definition unmark_group : element -> element :=
  classList_remove "govuk-form-group--error".

Definition mark_group : element -> element :=
  classList_add "govuk-form-group--error".

(** The document that [clearErrors] leaves. *)
Definition clear_document (f : nat) (d : node) : node :=
  let d1 :=
    fold_left (fun d g => update g unmark_group d)
      (select f sel_error_group d) d in
  let d2 :=
    fold_left (fun d m => remove_node m d) (select f sel_message d1) d1 in
  match hd_error (select f sel_summary d2) with
  | Some x => remove_node x d2
  | None => d2
  end.

Definition is_message (e : element) : bool :=
  mem "govuk-error-message" (classList e).

Definition is_summary (e : element) : bool :=
  mem "govuk-error-summary" (classList e).

Definition is_marked (e : element) : bool :=
  mem "govuk-form-group--error" (classList e).

(** The children of the form without error classes and without message
    elements; and then without the first summary. *)
Definition strip (ks : list node) : list node :=
  flat_map (prune is_message) (map (update_where (fun _ => true) unmark_group) ks).

Definition drop_first_summary (ks : list node) : list node :=
  match hd_error (selectF sel_summary ks) with
  | Some x => removeF x ks
  | None => ks
  end.

Definition clearF (ks : list node) : list node :=
  drop_first_summary (strip ks).

(** ** The effect of [showErrors] on the document *)

(** The identifier that [element.closest] returns for a parsed selector. *)
Definition closest_in (id : nat) (sel : selector) (d : node) : option nat :=
  match ancestors_or_self id d with
  | Some path => option_map node_id (List.find (matches sel) path)
  | None => None
  end.

(** The [p] element that [showErrors] builds for one error, and the [div]
    that [createErrorSummary] builds. *)
Definition message_node (id : nat) (msg : jsvalue) : node :=
  Node (with_classList (new_element id "p") ["govuk-error-message"])
    [Markup (error_markup msg)].

Definition summary_node (id : nat) (errors : list ValidationError) : node :=
  Node (setAttribute "data-module" "govuk-error-summary"
          (with_classList (new_element id "div") ["govuk-error-summary"]))
    [Markup (summary_markup errors)].

(** What [showError] does to the document and to the supply of
    identifiers. *)
Definition show_error_document (err : ValidationError) (dn : node * nat)
  : node * nat :=
  match closest_in (element_ref err) sel_group (fst dn) with
  | None => dn
  | Some g =>
      let d1 := update g mark_group (fst dn) in
      match hd_error (select g sel_field d1) with
      | Some r =>
          (insert_before r (message_node (snd dn) (message err)) d1,
           S (snd dn))
      | None => (d1, S (snd dn))
      end
  end.

Definition show_errors_document (errors : list ValidationError)
  (dn : node * nat) : node * nat :=
  fold_left (fun dn err => show_error_document err dn) errors dn.

(** What [showErrors] does, with or without the summary. *)
Definition render_document (with_summary : bool) (f : nat)
  (errors : list ValidationError) (dn : node * nat) : node * nat :=
  let dn' := show_errors_document errors dn in
  if with_summary && (0 <? List.length errors)%nat
  then (prepend_child f (summary_node (snd dn') errors) (fst dn'), S (snd dn'))
  else dn'.

(** The state with another document and another supply of identifiers. *)
Definition with_rendering (dn : node * nat) (s : State) : State :=
  with_next_node (snd dn) (with_document (fst dn) s).

(** ** The error summary, from the specification *)

(** "the govuk-error-summary element is created and inserted as the first
    child of the form": in the state [s'] reached from [s], the first child
    of the form is an element made since [s] that carries the summary
    class. *)
Definition summary_inserted (f : nat) (s s' : State) : Prop :=
  exists ef e ks rest,
    find f (document s') = Some (Node ef (Node e ks :: rest))
    /\ (next_node s <= node_id e)%nat
    /\ is_summary e = true.

(** "a summary is created": the document of [s'] holds an element made
    since [s] that carries the summary class. *)
Definition summary_created (s s' : State) : Prop :=
  exists e,
    In e (elements (document s'))
    /\ (next_node s <= node_id e)%nat
    /\ is_summary e = true.

(** The properties of the key-wise merge of two objects. *)
Definition merge_props (a b : obj) : obj :=
  map (fun kv =>
         (fst kv,
          match lookup (fst kv) b with
          | Some vb => merge_value (snd kv) vb
          | None => snd kv
          end)) a
  ++ filter (fun kv => negb (mem (fst kv) (map fst a))) b.

(** One assignment [formattedConfigObject[key] = ...] of the merge, on the
    entry [(key, override)] of the object being merged in. *)
Definition merge_entry (acc : obj) (kv : string * jsvalue) : obj :=
  set (fst kv)
    (match lookup (fst kv) acc with
     | Some option => merge_value option (snd kv)
     | None => snd kv
     end) acc.

Definition depth_props (props : obj) : nat :=
  fold_right (fun kv d => Nat.max (depth (snd kv)) d) 0 props.

(** Induction on a value, with the property known for the items of an
    array and for the values of an object. *)
Fixpoint jsvalue_induction (P : jsvalue -> Prop)
  (HUndefined : P JUndefined) (HNull : P JNull)
  (HBool : forall b, P (JBool b)) (HNum : forall n, P (JNum n))
  (HStr : forall s, P (JStr s))
  (HArr : forall items, Forall P items -> P (JArr items))
  (HObj : forall props, Forall (fun kv => P (snd kv)) props -> P (JObj props))
  (HFun : forall name, P (JFun name))
  (v : jsvalue) : P v :=
  match v with
  | JUndefined => HUndefined
  | JNull => HNull
  | JBool b => HBool b
  | JNum n => HNum n
  | JStr s => HStr s
  | JArr items =>
      HArr items
        ((fix go (l : list jsvalue) : Forall P l :=
            match l with
            | [] => Forall_nil P
            | x :: r =>
                Forall_cons x
                  (jsvalue_induction P HUndefined HNull HBool HNum HStr
                     HArr HObj HFun x) (go r)
            end) items)
  | JObj props =>
      HObj props
        ((fix go (l : obj) : Forall (fun kv => P (snd kv)) l :=
            match l with
            | [] => Forall_nil _
            | kv :: r =>
                Forall_cons kv
                  (jsvalue_induction P HUndefined HNull HBool HNum HStr
                     HArr HObj HFun (snd kv)) (go r)
            end) props)
  | JFun name => HFun name
  end.

(** ** Error decorations, from the specification *)

(** An element that [clearErrors] is meant to undo: a form group marked as
    in error, an inline error message, or an error summary. *)
Definition is_decoration (e : element) : bool :=
  is_marked e || is_message e || is_summary e.

(** The form holds at most one error summary. *)
Definition at_most_one_summary (f : nat) (d : node) : bool :=
  (List.length (select f sel_summary d) <=? 1)%nat.

(** The form is in the document, and neither the form nor an ancestor of
    it is a form group. *)
Definition form_outside_groups (f : nat) (d : node) : bool :=
  match ancestors_or_self f d with
  | Some path => forallb (fun e => negb (matches sel_group e)) path
  | None => false
  end.


(** The document [fst dn] is the cleared document [dc] with other children
    [ks] of the form, which still strip to the cleared children [B]; the
    identifiers are in order, and every message or summary below the form
    was made from the supply [n0] onwards. *)
Definition rendered_from (f : nat) (dc : node) (B : list node) (n0 : nat)
  (dn : node * nat) : Prop :=
  exists ks,
    fst dn = on_children f (fun _ => ks) dc
    /\ strip ks = B
    /\ NoDup (ids (fst dn))
    /\ (forall y, In y (ids (fst dn)) -> (y < snd dn)%nat)
    /\ incl (forest_ids B) (forest_ids ks)
    /\ (n0 <= snd dn)%nat
    /\ (forall a, In a (forest_elements ks) ->
                  is_message a || is_summary a = true ->
                  (n0 <= node_id a)%nat).


(** ** Sample pages for repeated submits *)

(** A form that holds two error summaries, and a valid field. *)
Definition page_two_summaries : node :=
  page_of ["govuk-frontend-supported"]
    [ Node (el 2 "form" [] [] None None false)
        [ Node (el 3 "div" [] ["govuk-error-summary"] None None false) [];
          Node (el 4 "div" [] ["govuk-error-summary"] None None false) [];
          Node (el 5 "div" [] ["govuk-form-group"] None None false)
            [ Node (el 6 "input" [("id", "email")] ["govuk-input"]
                     (Some "text") (Some "a@example.org") false) [] ];
          Node (el 10 "button" [("type", "submit")] ["govuk-button"]
                 (Some "submit") (Some "") false) [] ] ].

(** A form inside a form group that has an input of its own before the
    form; the field of the form is empty. *)
Definition page_form_in_group : node :=
  page_of ["govuk-frontend-supported"]
    [ Node (el 3 "div" [] ["govuk-form-group"] None None false)
        [ Node (el 4 "input" [("id", "search")] ["govuk-input"]
                 (Some "text") (Some "") false) [];
          Node (el 2 "form" [] [] None None false)
            [ Node (el 5 "input" [("id", "email")] []
                     (Some "text") (Some "") false) [];
              Node (el 10 "button" [("type", "submit")] ["govuk-button"]
                     (Some "submit") (Some "") false) [] ] ] ].

(** The number of elements of the document that satisfy [P]. *)
Definition count_where (P : element -> bool) (d : node) : nat :=
  List.length (filter P (elements d)).


(** Induction on a node, with the property known for its children. *)
Fixpoint node_induction (P : node -> Prop)
  (HNode : forall e ks, Forall P ks -> P (Node e ks))
  (HMarkup : forall p, P (Markup p)) (n : node) : P n :=
  match n with
  | Node e ks =>
      HNode e ks
        ((fix go (l : list node) : Forall P l :=
            match l with
            | [] => Forall_nil P
            | k :: r => Forall_cons k (node_induction P HNode HMarkup k) (go r)
            end) ks)
  | Markup p => HMarkup p
  end.

(** What holds of the document while [showErrors] goes through the errors:
    the form is there, and no element made since the submit began carries
    the summary class. *)
Definition no_new_summary (n0 : nat) (f : nat) (dn : node * nat) : Prop :=
  (n0 <= snd dn)%nat
  /\ find f (fst dn) <> None
  /\ forall e, In e (elements (fst dn)) -> (n0 <= node_id e)%nat ->
               is_summary e = false.

(* ===================================================================== *)
(** * 6b. Further notions for the helpers and the handlers                 *)
(* ===================================================================== *)

(** ** Dataset keys and nested objects *)

(** [v[p1][p2]...] along a path of property names; [undefined] where the
    path leaves the objects. *)
Fixpoint get_path (path : list string) (v : jsvalue) : jsvalue :=
  match path with
  | [] => v
  | name :: rest =>
      match v with
      | JObj o => get_path rest (get o name)
      | _ => JUndefined
      end
  end.

(** The dataset key has more than one part and its first part is the
    namespace. *)
Definition in_namespace (namespace key : string) : bool :=
  match split_on "." key with
  | first :: _ :: _ => String.eqb first namespace
  | _ => false
  end.

(** What one dataset entry does to the object of the namespace. *)
Definition assign_in_namespace (namespace : string) (current : jsvalue)
  (kv : string * string) : jsvalue :=
  if in_namespace namespace (fst kv)
  then assign_parts current (tl (split_on "." (fst kv))) (fst kv) namespace
         (snd kv)
  else current.

(** What [normaliseDataset] gives for one field. *)
Definition normalised_field (properties : SchemaProperties)
  (dataset : list (string * string)) (field : string) : option jsvalue :=
  if mem field (map fst properties) then
    let property := lookup_property field properties in
    if is_object_property property
    then Some (extractConfigByNamespace properties dataset field)
    else option_map (fun v => normaliseString v property)
           (lookup_string field dataset)
  else None.

(** ** Keys that stay clear of [Object.prototype] and of the array indices

    The helpers read and write properties under keys taken from their
    input.  A method inherited from [Object.prototype] is no object, so
    such a read goes the way of a missing property, and a write under its
    name makes a property of the object.  A key [__proto__] is different:
    reading it gives [Object.prototype] and writing it sets the prototype,
    so the walk of [extractConfigByNamespace] leaves [newObject] there.
    And [field in dataset] holds for a field named like a member of
    [Object.prototype] without any such attribute. *)

(** No part of the dataset key is [__proto__]. *)
Definition own_key (key : string) : bool :=
  negb (mem "__proto__" (split_on "." key)).

Definition own_dataset (dataset : list (string * string)) : bool :=
  forallb (fun kv => own_key (fst kv)) dataset.

(** No field of the schema is named like a member of [Object.prototype]. *)
Definition own_fields (properties : SchemaProperties) : bool :=
  forallb (fun fp => negb (inherited_name (fst fp))) properties.

(** A key that [Object.keys] lists at the place where it was added, and
    that names a property of the object itself: neither an array index
    (these come first, in ascending order) nor [__proto__]. *)
Definition ordinary_key (key : string) : bool :=
  match index_of_key key with
  | Some _ => false
  | None => negb (String.eqb key "__proto__")
  end.

(** Every key of every object inside the value is ordinary. *)
Fixpoint ordinary_keys (v : jsvalue) : bool :=
  match v with
  | JObj props =>
      forallb (fun kv => ordinary_key (fst kv) && ordinary_keys (snd kv)) props
  | _ => true
  end.

(** Every part of every dataset key is ordinary. *)
Definition ordinary_dataset (dataset : list (string * string)) : bool :=
  forallb (fun kv => forallb ordinary_key (split_on "." (fst kv))) dataset.


(** ** Construction *)

(** The state that a completed construction on the element [id] leaves:
    the root carries the init attribute, the timer field is [null], and
    the two listeners are registered, [keydown] first. *)
Definition constructed (id : nat) (s : State) : State :=
  with_listeners (listeners s ++ [(id, "keydown"); (id, "click")])
    (with_timers (clock s) (timers s) (next_timer s) None
       (with_document
          (update id (setAttribute init_attribute "") (document s)) s)).

(** The Button that it returns, for the root element [e] as it was found
    in the state [s]. *)
Definition constructed_button (id : nat) (cfg : obj) (e : element)
  (s : State) : Button :=
  {| root := id;
     config :=
       mergeConfigs_run
         [Button_defaults; cfg; normaliseDataset Button_schema (dataset e)];
     form := closest_in id [[SType "form"]] (document s) |}.


(** ** The validation pass, entry by entry *)

(** [a] is [b] with some items left out. *)
Fixpoint subsequence (a b : list string) : bool :=
  match a, b with
  | [], _ => true
  | _ :: _, [] => false
  | x :: a', y :: b' =>
      if String.eqb x y then subsequence a' b' else subsequence a b'
  end.

(** The error [err] stands for an entry of [fields] whose selector finds,
    in the state [s], an element that [validateElement] rejects. *)
Definition reported (this : Button) (f : nat) (s : State) (fields : obj)
  (err : ValidationError) : Prop :=
  exists text,
    In (field err, JStr text) fields
    /\ querySelector f text s = (Ok (Some (element_ref err)), s)
    /\ validateElement f (element_ref err) (field err) s = (Ok false, s)
    /\ message err = error_message this (field err).


(** ** Clicks over time *)

(** What happens to a Button: a click, or time passing. *)
Inductive happening : Type :=
| Click
| Wait (ms : Z).

(** The state after a series of clicks and waits; an exception thrown by
    the click listener ends that click and nothing else. *)
Fixpoint run (this : Button) (l : list happening) (s : State) : State :=
  match l with
  | [] => s
  | Click :: r => run this r (snd (click this s))
  | Wait ms :: r => run this r (advance ms s)
  end.

Definition waits_forward (l : list happening) : bool :=
  forallb (fun h => match h with
                    | Click => true
                    | Wait ms => (0 <=? ms)%Z
                    end) l.

(** The timer field and the pending timers agree: the field is [null] and
    no timer is pending, or the field holds the handle of the one pending
    timer, which is due within a second. *)
Definition timer_consistent (s : State) : bool :=
  match debounceFormSubmitTimer s, timers s with
  | None, [] => true
  | Some t, [(t', due)] =>
      Pos.eqb t t' && (clock s <? due)%Z && (due <=? clock s + 1000)%Z
  | _, _ => false
  end.


(** ** Looking at one element *)

(** The element at the root of a subtree that was found. *)
Definition root_of (found : option node) : option element :=
  match found with
  | Some (Node e _) => Some e
  | _ => None
  end.


(** The element [g] of the document carries the error class of a form
    group. *)
Definition marked_in (g : nat) (d : node) : bool :=
  existsb (fun a => Nat.eqb (node_id a) g && is_marked a) (elements d).


(** While [showErrors] goes through the errors, starting from the document
    [d0] with the supply of identifiers [n0]: the identifiers stay below
    the supply, and [closest] finds, from an element that was there at
    the start, the form group that it found at the start. *)
Definition groups_stable (d0 : node) (n0 : nat) (dn : node * nat) : Prop :=
  (forall y, In y (ids (fst dn)) -> (y < snd dn)%nat)
  /\ (n0 <= snd dn)%nat
  /\ (forall x, (x < n0)%nat ->
                closest_in x sel_group (fst dn) = closest_in x sel_group d0).


(** ** Where new elements are put *)

(** The values interpolated into a piece of markup, in order. *)
Definition interpolated (pieces : list html_piece) : list jsvalue :=
  flat_map (fun p => match p with
                     | Interp v => [v]
                     | Lit _ => []
                     end) pieces.

(** Somewhere in the tree, the node [new] is the sibling just before the
    element [r]. *)
Inductive placed_before (new : node) (r : nat) : node -> Prop :=
| placed_here (e : element) (pre : list node) (k : node) (post : list node) :
    has_id r k = true ->
    placed_before new r (Node e (pre ++ new :: k :: post))
| placed_below (e : element) (ks : list node) (k : node) :
    In k ks -> placed_before new r k -> placed_before new r (Node e ks).


(** ** Keys *)

(** The click listener of the Button hears a click on [target]: the root
    of the Button is the target or above it, and the listener is
    registered on the root. *)
Definition hears_click (this : Button) (target : nat) (s : State) : bool :=
  match ancestors_or_self target (document s) with
  | Some path => existsb (fun a => Nat.eqb (node_id a) (root this)) path
  | None => false
  end
  && existsb (fun l => Nat.eqb (fst l) (root this)
                       && String.eqb (snd l) "click") (listeners s).

(** [$target.click()] called from a listener: a click event of its own is
    dispatched at the target (taken not to be a disabled form control, on
    which [click()] does nothing) and bubbles up to the click listener of
    the Button.  An exception thrown by that listener does not reach the
    caller of [click()].  Once the dispatch is over, the flag of the event
    that was being handled is what it was. *)
Definition target_click (this : Button) (target : nat) : M unit :=
  fun s =>
    if hears_click this target s
    then (Ok tt, with_defaultPrevented (defaultPrevented s)
                   (snd (click this s)))
    else (Ok tt, s).

(** [$target.getAttribute('role') === 'button'] *)
Definition has_button_role (e : element) : bool :=
  match getAttribute e "role" with
  | Some r => String.eqb r "button"
  | None => false
  end.

(** [handleKeyDown(event)], lines 386-395, for [event.key] and for
    [event.target], an element of the document or [null]. *)
Definition handleKeyDown (this : Button) (key : string) (target : option nat)
  : M unit :=
  if negb (String.eqb key " ") then ret tt
  else
    fun s =>
      match target with
      | Some id =>
          match element_data id s with
          | Some e =>
              if is_html e && has_button_role e
              then (preventDefault ;; target_click this id) s
              else (Ok tt, s)
          | None => (Ok tt, s)
          end
      | None => (Ok tt, s)
      end.

(** The browser dispatches a keydown event to the Button's listener: a
    fresh event, whose default has not been prevented. *)
Definition keydown (this : Button) (key : string) (target : option nat)
  : M unit :=
  fun s => handleKeyDown this key target (with_defaultPrevented false s).

(* ===================================================================== *)
(** * 7. Facts about strings and objects                                   *)
(* ===================================================================== *)

Lemma Number_true : Number "true" = NaN.
Proof. reflexivity. Qed.

Lemma Number_false : Number "false" = NaN.
Proof. reflexivity. Qed.

Lemma length_pos_nonempty (s : string) :
  (0 <? String.length s)%nat = negb (String.eqb s "").
Proof. destruct s; reflexivity. Qed.

Lemma normaliseString_untyped (value : string) :
  normaliseString value None =
  if (0 <? String.length (trim value))%nat && isFinite (Number (trim value))
  then JNum (Number (trim value))
  else if String.eqb (trim value) "true" || String.eqb (trim value) "false"
       then JBool (String.eqb (trim value) "true")
       else JStr value.
Proof.
  unfold normaliseString; simpl.
  destruct ((0 <? String.length (trim value))%nat
            && isFinite (Number (trim value))); [reflexivity|].
  destruct (String.eqb (trim value) "true" || String.eqb (trim value) "false");
    reflexivity.
Qed.

(** C8, as amended.  Without a schema type - the case of the dot-separated
    keys of an object namespace, which [extractConfigByNamespace] passes to
    [normaliseString] without a property - a dataset value is coerced by
    trial parsing; with a schema type the value is coerced to that type, so
    a [boolean] field reads as whether the trimmed value is [true] and
    nothing else is tried. *)
Theorem normaliseString_coercion (value : string) :
  coerced_by_trial_parsing value (normaliseString value None)
  /\ (forall p : SchemaProperty,
        normaliseString value (Some p) = coerced_to_type (ptype p) value)
  /\ extractConfigByNamespace Button_schema
       [("validationMessages.email", value)] "validationMessages"
     = JObj [("email", normaliseString value None)].
Proof.
  split; [|split].
  - rewrite normaliseString_untyped.
    unfold coerced_by_trial_parsing. repeat split.
    + intros ->. reflexivity.
    + intros ->. reflexivity.
    + intros Hne Hfin. rewrite length_pos_nonempty, Hfin.
      apply String.eqb_neq in Hne. rewrite Hne. reflexivity.
    + intros Ht Hf Hn.
      apply String.eqb_neq in Ht. apply String.eqb_neq in Hf.
      rewrite Ht, Hf. simpl.
      replace ((0 <? String.length (trim value))%nat
               && isFinite (Number (trim value))) with false; [reflexivity|].
      destruct Hn as [-> | ->]; [reflexivity|].
      now rewrite andb_false_r.
  - intros [t]. destruct t; reflexivity.
  - reflexivity.
Qed.

(** C8, counterexample: [data-prevent-double-click="1"] reads as a finite
    number, yet [normaliseDataset] gives the boolean [false] for it, because
    the schema types the field. *)
Lemma normaliseDataset_not_trial_parsing :
  lookup "preventDoubleClick"
    (normaliseDataset Button_schema [("preventDoubleClick", "1")])
  = Some (JBool false)
  /\ ~ coerced_by_trial_parsing "1" (JBool false).
Proof.
  split; [reflexivity|].
  intros (_ & _ & H & _).
  assert (E : JBool false = JNum (Number (trim "1"))).
  { apply H; [discriminate | reflexivity]. }
  discriminate E.
Qed.

(* ===================================================================== *)
(** * 8. Validation of one element                                         *)
(* ===================================================================== *)












Lemma radio_is_not_checkbox (e : element) :
  has_type e "radio" = true -> has_type e "checkbox" = false.
Proof.
  unfold has_type. destruct (etype e) as [t|]; [|discriminate].
  intros H. apply String.eqb_eq in H. now subst t.
Qed.






(** C10.  A radio button without a [name] attribute, or with an empty one,
    is invalid whatever its own checked state. *)
Theorem validateElement_radio_without_name (form id : nat) (fld : string)
  (s : State) (e : element) :
  element_data id s = Some e ->
  has_type e "radio" = true ->
  getAttribute e "name" = None \/ getAttribute e "name" = Some "" ->
  validateElement form id fld s = (Ok false, s).
Proof.
  intros He Hr Hn. unfold validateElement.
  rewrite He, (radio_is_not_checkbox e Hr), Hr.
  destruct Hn as [-> | ->]; reflexivity.
Qed.

Lemma validateElement_radio_without_name_witness :
  let s := state_of page_radio_empty_name in
  echecked (el 3 "input" [("name", "")] [] (Some "radio") (Some "on") true) = true
  /\ validateElement 2 3 "choice" s = (Ok false, s).
Proof.
  intros s. split; [reflexivity|].
  apply (validateElement_radio_without_name 2 3 "choice" s
           (el 3 "input" [("name", "")] [] (Some "radio") (Some "on") true)).
  - reflexivity.
  - reflexivity.
  - right. reflexivity.
Defined.

(* ===================================================================== *)
(** * 9. Construction                                                      *)
(* ===================================================================== *)

Lemma constructor_throws (root : option nat) (cfg : obj) (s : State) (x : exn) :
  GOVUKFrontendComponent_constructor root s = (Throw x, s) ->
  Button_constructor root cfg s = (Throw x, s).
Proof.
  intros H. unfold Button_constructor. unfold bind at 1. now rewrite H.
Qed.

Lemma base_constructor_listeners (root : option nat) (s : State) :
  listeners (snd (GOVUKFrontendComponent_constructor root s)) = listeners s.
Proof.
  unfold GOVUKFrontendComponent_constructor.
  destruct (match root with Some id => element_data id s | None => None end)
    as [e|]; [|reflexivity].
  destruct (is_html e); [|reflexivity].
  unfold bind, checkSupport, checkInitialised.
  destruct (isSupported (document s)); [|reflexivity].
  destruct (negb (String.eqb moduleName "") && isInitialised e); reflexivity.
Qed.

Lemma Button_constructor_throw_listeners (root : option nat) (cfg : obj)
  (s : State) :
  match Button_constructor root cfg s with
  | (Ok _, _) => True
  | (Throw _, s') => listeners s' = listeners s
  end.
Proof.
  unfold Button_constructor. unfold bind at 1.
  pose proof (base_constructor_listeners root s) as Hl.
  destruct (GOVUKFrontendComponent_constructor root s) as [[id|y] s'];
    simpl in Hl; [|exact Hl].
  cbv beta iota delta [bind ret set_debounceFormSubmitTimer closest
                         addEventListener].
  destruct (element_data id _) as [e|]; [|exact Hl].
  replace (parse_selector "form") with (Some [[SType "form"]]) by reflexivity.
  exact I.
Qed.

(** C6, as amended.  On a page that is supported, constructing a Button on
    an HTML element that already carries [data-govuk-button-init] throws
    [InitError]; construction throws [ElementError] when the root is
    missing or is not an HTML element, and [SupportError] when the root is
    an HTML element and the page lacks support.  In each case the state is
    left as it was: no listener is attached. *)
Theorem Button_constructor_failures (root : option nat) (cfg : obj) (s : State) :
  (forall id e,
     root = Some id -> element_data id s = Some e -> is_html e = true ->
     isSupported (document s) = true ->
     getAttribute e init_attribute <> None ->
     Button_constructor root cfg s = (Throw InitError, s))
  /\ (match root with
      | Some id => match element_data id s with
                   | Some e => is_html e = false
                   | None => True
                   end
      | None => True
      end ->
      Button_constructor root cfg s = (Throw ElementError, s))
  /\ (forall id e,
        root = Some id -> element_data id s = Some e -> is_html e = true ->
        isSupported (document s) = false ->
        Button_constructor root cfg s = (Throw SupportError, s))
  /\ (forall x, fst (Button_constructor root cfg s) = Throw x ->
        listeners (snd (Button_constructor root cfg s)) = listeners s).
Proof.
  split; [|split; [|split]].
  - intros id e -> He Hh Hs Hi. apply constructor_throws.
    unfold GOVUKFrontendComponent_constructor. rewrite He, Hh.
    unfold bind, checkSupport. rewrite Hs.
    unfold checkInitialised, isInitialised. rewrite Hh.
    destruct (getAttribute e init_attribute); [reflexivity | contradiction].
  - intros H. apply constructor_throws.
    unfold GOVUKFrontendComponent_constructor.
    destruct root as [id|]; [|reflexivity].
    destruct (element_data id s) as [e|]; [|reflexivity].
    now rewrite H.
  - intros id e -> He Hh Hs. apply constructor_throws.
    unfold GOVUKFrontendComponent_constructor. rewrite He, Hh.
    unfold bind, checkSupport. now rewrite Hs.
  - intros x. pose proof (Button_constructor_throw_listeners root cfg s) as Hl.
    destruct (Button_constructor root cfg s) as [[b|y] s'];
      [discriminate | intros _; exact Hl].
Qed.

Lemma Button_constructor_failures_witness :
  Button_constructor (Some 2) [] (state_of page_initialised)
  = (Throw InitError, state_of page_initialised)
  /\ Button_constructor None [] (state_of page_initialised)
     = (Throw ElementError, state_of page_initialised)
  /\ Button_constructor (Some 2) [] (state_of page_svg_root)
     = (Throw ElementError, state_of page_svg_root)
  /\ Button_constructor (Some 2) [] (state_of page_initialised_unsupported)
     = (Throw SupportError, state_of page_initialised_unsupported).
Proof.
  split; [|split; [|split]].
  - destruct (Button_constructor_failures (Some 2) [] (state_of page_initialised))
      as (H & _).
    apply (H 2 (el 2 "button" [("data-govuk-button-init", "")] ["govuk-button"]
                  (Some "submit") (Some "") false));
      try reflexivity.
    discriminate.
  - destruct (Button_constructor_failures None [] (state_of page_initialised))
      as (_ & H & _).
    apply H. exact I.
  - destruct (Button_constructor_failures (Some 2) [] (state_of page_svg_root))
      as (_ & H & _).
    apply H. reflexivity.
  - destruct (Button_constructor_failures (Some 2) []
                (state_of page_initialised_unsupported)) as (_ & _ & H & _).
    apply (H 2 (el 2 "button" [("data-govuk-button-init", "")] ["govuk-button"]
                  (Some "submit") (Some "") false));
      reflexivity.
Defined.

(** C6, counterexample: on a page without the support class, constructing
    a Button on an element that is already initialised throws
    [SupportError], not [InitError]. *)
Lemma Button_constructor_initialised_unsupported :
  (exists e, element_data 2 (state_of page_initialised_unsupported) = Some e
             /\ isInitialised e = true)
  /\ fst (Button_constructor (Some 2) [] (state_of page_initialised_unsupported))
     = Throw SupportError
  /\ fst (Button_constructor (Some 2) [] (state_of page_initialised_unsupported))
     <> Throw InitError.
Proof.
  split; [eexists; split; reflexivity|].
  split; [reflexivity | discriminate].
Qed.

(* ===================================================================== *)
(** * 10. What the handlers leave untouched                                *)
(* ===================================================================== *)

Section Frame.
Context {X : Type} (view : State -> X).

Lemma preserves_ret {A : Type} (a : A) : preserves view (ret a).
Proof. intros s. reflexivity. Qed.

Lemma preserves_throw {A : Type} (e : exn) : preserves view (@throw A e).
Proof. intros s. reflexivity. Qed.

Lemma preserves_bind {A B : Type} (m : M A) (k : A -> M B) :
  preserves view m -> (forall a, preserves view (k a)) ->
  preserves view (bind m k).
Proof.
  intros Hm Hk s. unfold bind. specialize (Hm s).
  destruct (m s) as [[a|e] s']; simpl in *.
  - now rewrite (Hk a s').
  - exact Hm.
Qed.

Lemma preserves_forEach {A : Type} (f : A -> M unit) (l : list A) :
  (forall x, preserves view (f x)) -> preserves view (forEach f l).
Proof.
  intros Hf. induction l as [|x l IH]; simpl.
  - apply preserves_ret.
  - apply preserves_bind; [apply Hf | intros _; exact IH].
Qed.

Lemma preserves_querySelectorAll (scope : nat) (text : string) :
  preserves view (querySelectorAll scope text).
Proof.
  intros s. unfold querySelectorAll.
  destruct (parse_selector text); reflexivity.
Qed.

Lemma preserves_querySelector (scope : nat) (text : string) :
  preserves view (querySelector scope text).
Proof.
  apply preserves_bind; [apply preserves_querySelectorAll|].
  intros ids. apply preserves_ret.
Qed.

Lemma preserves_closest (id : nat) (text : string) :
  preserves view (closest id text).
Proof.
  intros s. unfold closest. destruct (parse_selector text); reflexivity.
Qed.

Lemma preserves_validateElement (form id : nat) (fld : string) :
  preserves view (validateElement form id fld).
Proof.
  intros s. unfold validateElement.
  destruct (element_data id s) as [e|]; [|reflexivity].
  destruct (has_type e "checkbox"); [reflexivity|].
  destruct (has_type e "radio").
  - destruct (getAttribute e "name") as [name|]; [|reflexivity].
    destruct (negb (String.eqb name "")); [|reflexivity].
    apply (preserves_bind (querySelector form _)).
    + apply preserves_querySelector.
    + intros found. apply preserves_ret.
  - destruct (evalue e); reflexivity.
Qed.

Lemma preserves_validate_fields (this : Button) (form : nat) (fields : obj) :
  forall isValid errors,
    preserves view (validate_fields this form fields isValid errors).
Proof.
  induction fields as [|[fld selector] rest IH]; intros isValid errors.
  - apply preserves_ret.
  - cbn [validate_fields]. apply preserves_bind.
    + destruct selector; try apply preserves_throw.
      apply preserves_querySelector.
    + intros [id|]; [|apply IH].
      apply preserves_bind; [apply preserves_validateElement|].
      intros valid. destruct (negb valid); apply IH.
Qed.

Hypothesis view_document : forall d s, view (with_document d s) = view s.
Hypothesis view_next_node : forall n s, view (with_next_node n s) = view s.
Hypothesis view_defaultPrevented :
  forall b s, view (with_defaultPrevented b s) = view s.

Lemma preserves_modify_document (f : node -> node) :
  preserves view (modify_document f).
Proof. intros s. apply view_document. Qed.

Lemma preserves_createElement (name : string) :
  preserves view (createElement name).
Proof. intros s. apply view_next_node. Qed.

Lemma preserves_preventDefault : preserves view preventDefault.
Proof. intros s. apply view_defaultPrevented. Qed.

Lemma preserves_clearErrors (form : nat) : preserves view (clearErrors form).
Proof.
  unfold clearErrors.
  apply preserves_bind; [apply preserves_querySelectorAll | intros groups].
  apply preserves_bind.
  { apply preserves_forEach. intros g. apply preserves_modify_document. }
  intros _.
  apply preserves_bind; [apply preserves_querySelectorAll | intros messages].
  apply preserves_bind.
  { apply preserves_forEach. intros m. apply preserves_modify_document. }
  intros _.
  apply preserves_bind; [apply preserves_querySelector | intros [x|]].
  - apply preserves_modify_document.
  - apply preserves_ret.
Qed.

Lemma preserves_showError (err : ValidationError) :
  preserves view (showError err).
Proof.
  unfold showError.
  apply preserves_bind; [apply preserves_closest | intros [g|]].
  2: apply preserves_ret.
  apply preserves_bind; [apply preserves_modify_document | intros _].
  apply preserves_bind; [apply preserves_createElement | intros error].
  apply preserves_bind; [apply preserves_querySelector | intros [f|]].
  - apply preserves_modify_document.
  - apply preserves_ret.
Qed.

Lemma preserves_createErrorSummary (form : nat)
  (errors : list ValidationError) :
  preserves view (createErrorSummary form errors).
Proof.
  unfold createErrorSummary.
  apply preserves_bind; [apply preserves_createElement | intros summary].
  apply preserves_modify_document.
Qed.

Lemma preserves_showErrors (this : Button) (form : nat)
  (errors : list ValidationError) :
  preserves view (showErrors this form errors).
Proof.
  unfold showErrors.
  apply preserves_bind.
  { apply preserves_forEach. intros err. apply preserves_showError. }
  intros _. destruct (_ && _).
  - apply preserves_createErrorSummary.
  - apply preserves_ret.
Qed.

Hypothesis view_focus_calls :
  forall f s, view (with_focus_calls f s) = view s.

Lemma preserves_handleFormSubmit (this : Button) :
  preserves view (handleFormSubmit this).
Proof.
  unfold handleFormSubmit. destruct (form this) as [form|].
  2: apply preserves_throw.
  apply preserves_bind; [apply preserves_clearErrors | intros _].
  apply preserves_bind; [apply preserves_validate_fields|].
  intros [isValid errors]. destruct (negb isValid).
  2: apply preserves_ret.
  apply preserves_bind; [apply preserves_preventDefault | intros _].
  apply preserves_bind; [apply preserves_showErrors | intros _].
  destruct errors as [|first rest]; [apply preserves_ret|].
  destruct (truthy _); [|apply preserves_ret].
  intros s. apply view_focus_calls.
Qed.

Lemma preserves_validate_on_submit (this : Button) :
  preserves view (validate_on_submit this).
Proof.
  intros s. unfold validate_on_submit.
  destruct (_ && _); [apply preserves_handleFormSubmit | reflexivity].
Qed.
End Frame.

(* ===================================================================== *)
(** * 11. Debounce                                                         *)
(* ===================================================================== *)

Lemma click_let_through (this : Button) (s : State) :
  truthy (get (config this) "preventDoubleClick") = true ->
  debounceFormSubmitTimer s = None ->
  click this s
  = validate_on_submit this (timer_started (with_defaultPrevented false s)).
Proof.
  intros Hp Hn. unfold click, handleClick. unfold bind at 1.
  unfold debounce. rewrite Hp. cbn [negb].
  change (debounceFormSubmitTimer (with_defaultPrevented false s))
    with (debounceFormSubmitTimer s).
  rewrite Hn. reflexivity.
Qed.

Lemma click_suppressed (this : Button) (s : State) :
  truthy (get (config this) "preventDoubleClick") = true ->
  debounceFormSubmitTimer s <> None ->
  click this s = (Ok tt, with_defaultPrevented true s).
Proof.
  intros Hp Hn. unfold click, handleClick. unfold bind at 1.
  unfold debounce. rewrite Hp. cbn [negb].
  change (debounceFormSubmitTimer (with_defaultPrevented false s))
    with (debounceFormSubmitTimer s).
  destruct (debounceFormSubmitTimer s); [reflexivity | contradiction].
Qed.

Lemma timer_state_validate_on_submit (this : Button) (s : State) :
  timer_state (snd (validate_on_submit this s)) = timer_state s.
Proof.
  apply (preserves_validate_on_submit timer_state); reflexivity.
Qed.

(** C2.  With [preventDoubleClick] set and no click pending, a click is
    let through and starts the timer; a click that arrives less than a
    second later is suppressed - its default is prevented and nothing else
    changes, so submit validation did not run; from one second on the
    timer has fired, [debounceFormSubmitTimer] is [null] again, and the
    next click is let through as the first one was, starting a new timer. *)
Theorem Button_debounce (this : Button) (s0 : State) :
  truthy (get (config this) "preventDoubleClick") = true ->
  debounceFormSubmitTimer s0 = None ->
  timers s0 = [] ->
  let s1 := snd (click this s0) in
  click this s0
  = validate_on_submit this (timer_started (with_defaultPrevented false s0))
  /\ (forall ms, (0 <= ms < 1000)%Z ->
        debounceFormSubmitTimer (advance ms s1) = Some (next_timer s0)
        /\ click this (advance ms s1)
           = (Ok tt, with_defaultPrevented true (advance ms s1)))
  /\ (forall ms, (1000 <= ms)%Z ->
        let s2 := advance ms s1 in
        debounceFormSubmitTimer s2 = None
        /\ timers s2 = []
        /\ click this s2
           = validate_on_submit this
               (timer_started (with_defaultPrevented false s2))
        /\ debounceFormSubmitTimer (snd (click this s2))
           = Some (next_timer s2)).
Proof.
  intros Hp Hn Ht s1.
  pose proof (click_let_through this s0 Hp Hn) as Hfirst.
  assert (Hs1 : timer_state s1
                = (clock s0, [(next_timer s0, (clock s0 + 1000)%Z)],
                   Pos.succ (next_timer s0), Some (next_timer s0))).
  { unfold s1. rewrite Hfirst, timer_state_validate_on_submit.
    unfold timer_state, timer_started. cbn. now rewrite Ht. }
  unfold timer_state in Hs1. injection Hs1 as Hc Htm Hnt Hf.
  split; [exact Hfirst|]. split.
  - intros ms Hms.
    assert (Hadv : debounceFormSubmitTimer (advance ms s1)
                   = Some (next_timer s0)).
    { unfold advance. cbn. rewrite Htm, Hc. cbn.
      replace (clock s0 + 1000 <=? clock s0 + ms)%Z with false
        by (symmetry; apply Z.leb_gt; lia).
      cbn. exact Hf. }
    split; [exact Hadv|].
    apply click_suppressed; [exact Hp|]. now rewrite Hadv.
  - intros ms Hms s2.
    assert (Hadv : debounceFormSubmitTimer s2 = None /\ timers s2 = []).
    { unfold s2, advance. cbn. rewrite Htm, Hc. cbn.
      replace (clock s0 + 1000 <=? clock s0 + ms)%Z with true
        by (symmetry; apply Z.leb_le; lia).
      cbn. split; reflexivity. }
    destruct Hadv as [Hnone Hempty].
    pose proof (click_let_through this s2 Hp Hnone) as Hnext.
    repeat split; try assumption.
    rewrite Hnext.
    pose proof (timer_state_validate_on_submit this
                  (timer_started (with_defaultPrevented false s2))) as Hts.
    unfold timer_state in Hts. injection Hts as _ _ _ Hfield.
    rewrite Hfield. reflexivity.
Qed.

Lemma Button_debounce_witness :
  let this := button_with [("preventDoubleClick", JBool true)] in
  let s1 := snd (click this (state_of page_form)) in
  defaultPrevented (snd (click this (advance 999 s1))) = true
  /\ document (snd (click this (advance 999 s1))) = document s1
  /\ debounceFormSubmitTimer (advance 1000 s1) = None
  /\ debounceFormSubmitTimer (snd (click this (advance 1000 s1)))
     = Some 2%positive.
Proof.
  intros this s1.
  destruct (Button_debounce this (state_of page_form) eq_refl eq_refl eq_refl)
    as (_ & Hin & Hout).
  destruct (Hin 999%Z ltac:(lia)) as [_ Hclick].
  destruct (Hout 1000%Z ltac:(lia)) as (Hnull & _ & _ & Hnew).
  fold s1 in Hclick, Hnull, Hnew.
  rewrite Hclick.
  split; [reflexivity|]. split; [reflexivity|].
  split; [exact Hnull | exact Hnew].
Defined.

(* ===================================================================== *)
(** * 12. Reading and writing properties                                   *)
(* ===================================================================== *)

Lemma lookup_set_same (k : string) (v : jsvalue) (o : obj) :
  lookup k (set k v o) = Some v.
Proof.
  induction o as [|[k' x] o IH]; simpl.
  - now rewrite String.eqb_refl.
  - destruct (String.eqb k' k) eqn:E; simpl; rewrite E; [reflexivity | exact IH].
Qed.

Lemma lookup_set_other (k k' : string) (v : jsvalue) (o : obj) :
  k' <> k -> lookup k' (set k v o) = lookup k' o.
Proof.
  intros Hne. induction o as [|[j x] o IH]; simpl.
  - destruct (String.eqb_spec k k'); [congruence | reflexivity].
  - destruct (String.eqb_spec j k) as [->|Hj]; simpl.
    + destruct (String.eqb_spec k k'); [congruence | reflexivity].
    + destruct (String.eqb j k'); [reflexivity | exact IH].
Qed.

Lemma get_set_same (k : string) (v : jsvalue) (o : obj) :
  get (set k v o) k = v.
Proof. unfold get. now rewrite lookup_set_same. Qed.

Lemma get_set_other (k k' : string) (v : jsvalue) (o : obj) :
  k' <> k -> get (set k v o) k' = get o k'.
Proof. intros H. unfold get. now rewrite lookup_set_other. Qed.

(* ===================================================================== *)
(** * 13. The validation pass                                              *)
(* ===================================================================== *)

Lemma querySelector_state (scope : nat) (text : string) (s : State) :
  snd (querySelector scope text s) = s.
Proof. apply (preserves_querySelector (fun x => x)). Qed.

Lemma validateElement_state (form id : nat) (fld : string) (s : State) :
  snd (validateElement form id fld s) = s.
Proof. apply (preserves_validateElement (fun x => x)). Qed.

(** The pass reads the document and leaves the state as it is. *)
Lemma validate_fields_state (this : Button) (form : nat) (fields : obj)
  (isValid : bool) (errors : list ValidationError) (s : State) :
  snd (validate_fields this form fields isValid errors s) = s.
Proof. apply (preserves_validate_fields (fun x => x)). Qed.

(** One turn of the loop, with the state made explicit. *)
Lemma validate_fields_cons (this : Button) (form : nat) (fld : string)
  (selector : jsvalue) (rest : obj) (isValid : bool)
  (errors : list ValidationError) (s : State) :
  validate_fields this form ((fld, selector) :: rest) isValid errors s
  = match selector with
    | JStr text =>
        match fst (querySelector form text s) with
        | Throw e => (Throw e, s)
        | Ok None => validate_fields this form rest isValid errors s
        | Ok (Some id) =>
            match fst (validateElement form id fld s) with
            | Throw e => (Throw e, s)
            | Ok true => validate_fields this form rest isValid errors s
            | Ok false =>
                validate_fields this form rest false
                  (errors ++ [ {| field := fld; element_ref := id;
                                  message := error_message this fld |} ]) s
            end
        end
    | _ => (Throw SelectorError, s)
    end.
Proof.
  cbn [validate_fields]. unfold bind at 1.
  destruct selector; try reflexivity.
  rename s0 into text.
  pose proof (querySelector_state form text s) as Hq.
  destruct (querySelector form text s) as [[[id|]|e] s']; simpl in Hq |- *;
    subst s'; try reflexivity.
  unfold bind at 1.
  pose proof (validateElement_state form id fld s) as Hv.
  destruct (validateElement form id fld s) as [[[|]|e] s']; simpl in Hv |- *;
    subst s'; reflexivity.
Qed.

Lemma validate_fields_skip (this : Button) (form : nat) (fld text : string)
  (post : obj) (s : State) (pre : obj) :
  querySelector form text s = (Ok None, s) ->
  forall isValid errors,
    validate_fields this form (pre ++ (fld, JStr text) :: post) isValid errors s
    = validate_fields this form (pre ++ post) isValid errors s.
Proof.
  intros Hq. induction pre as [|[k sel] pre IH]; intros isValid errors.
  - cbn [app]. rewrite validate_fields_cons, Hq. reflexivity.
  - cbn [app]. rewrite !validate_fields_cons.
    destruct sel; try reflexivity.
    destruct (fst (querySelector form s0 s)) as [[id|]|e]; try reflexivity;
      [|apply IH].
    destruct (fst (validateElement form id k s)) as [[|]|e];
      try reflexivity; apply IH.
Qed.

Lemma validate_fields_same_messages (this this' : Button) (form : nat)
  (fields : obj) (s : State) :
  (forall f, error_message this f = error_message this' f) ->
  forall isValid errors,
    validate_fields this form fields isValid errors s
    = validate_fields this' form fields isValid errors s.
Proof.
  intros Hm. induction fields as [|[k sel] rest IH]; intros isValid errors.
  - reflexivity.
  - rewrite !validate_fields_cons.
    destruct sel; try reflexivity.
    destruct (fst (querySelector form s0 s)) as [[id|]|e]; try reflexivity;
      [|apply IH].
    destruct (fst (validateElement form id k s)) as [[|]|e];
      try reflexivity; [apply IH|].
    rewrite Hm. apply IH.
Qed.

(** [handleFormSubmit], stage by stage. *)
Lemma handleFormSubmit_stages (this : Button) (f : nat) (s : State) :
  form this = Some f ->
  handleFormSubmit this s
  = match clearErrors f s with
    | (Throw e, s1) => (Throw e, s1)
    | (Ok _, s1) =>
        match validate_fields this f
                (entries (js_or (get (config this) "validationSelectors")
                            (JObj []))) true [] s1 with
        | (Throw e, s2) => (Throw e, s2)
        | (Ok (isValid, errors), s2) =>
            if negb isValid then
              (preventDefault ;;
               showErrors this f errors ;;
               match errors with
               | first :: _ =>
                   if truthy (get (config this) "focusOnError")
                   then focus (element_ref first) else ret tt
               | [] => ret tt
               end) s2
            else (Ok tt, s2)
        end
    end.
Proof.
  intros Hf. unfold handleFormSubmit. rewrite Hf. unfold bind at 1.
  destruct (clearErrors f s) as [[[]|e] s1]; [|reflexivity].
  unfold bind at 1.
  destruct (validate_fields _ _ _ _ _ s1) as [[[isValid errors]|e] s2];
    [|reflexivity].
  destruct (negb isValid); reflexivity.
Qed.

(** C9.  A configured field whose selector matches no element of the form
    when the pass looks for it is skipped: the loop goes on as if the field
    were not configured, and so does the whole of [handleFormSubmit] - the
    same errors, the same decorations, the same decision on the event. *)
Theorem handleFormSubmit_skips_absent_field (this : Button) (f : nat)
  (s : State) (pre post : obj) (fld text : string) :
  form this = Some f ->
  get (config this) "validationSelectors"
  = JObj (pre ++ (fld, JStr text) :: post) ->
  querySelector f text (snd (clearErrors f s))
  = (Ok None, snd (clearErrors f s)) ->
  (forall isValid errors,
     validate_fields this f (pre ++ (fld, JStr text) :: post) isValid errors
       (snd (clearErrors f s))
     = validate_fields this f (pre ++ post) isValid errors
         (snd (clearErrors f s)))
  /\ handleFormSubmit this s
     = handleFormSubmit (with_validationSelectors this (pre ++ post)) s.
Proof.
  intros Hf Hsel Hq. split.
  - intros isValid errors. now apply validate_fields_skip.
  - rewrite (handleFormSubmit_stages this f s Hf).
    rewrite (handleFormSubmit_stages
               (with_validationSelectors this (pre ++ post)) f s Hf).
    cbn [with_validationSelectors config].
    rewrite Hsel, get_set_same.
    destruct (clearErrors f s) as [[[]|e] s1]; [|reflexivity].
    cbn [snd] in Hq. cbn [js_or truthy entries].
    rewrite (validate_fields_skip this f fld text post s1 pre Hq).
    rewrite (validate_fields_same_messages
               (with_validationSelectors this (pre ++ post)) this).
    2:{ intros k. unfold error_message. cbn [with_validationSelectors config].
        now rewrite get_set_other by discriminate. }
    destruct (validate_fields this f (pre ++ post) true [] s1)
      as [[[isValid errors]|e] s2]; [|reflexivity].
    destruct (negb isValid); [|reflexivity].
    unfold showErrors. cbn [with_validationSelectors config].
    rewrite !get_set_other by discriminate. reflexivity.
Qed.

Lemma handleFormSubmit_skips_absent_field_witness :
  let this :=
    button_with
      [("validationSelectors",
         JObj [("email", JStr "#email"); ("ghost", JStr "#ghost")])] in
  handleFormSubmit this (state_of page_form)
  = handleFormSubmit
      (with_validationSelectors this [("email", JStr "#email")])
      (state_of page_form).
Proof.
  intros this.
  exact (proj2 (handleFormSubmit_skips_absent_field this 2 (state_of page_form)
                  [("email", JStr "#email")] [] "ghost" "#ghost"
                  eq_refl eq_refl eq_refl)).
Defined.

(** ** The handlers that cannot throw *)

Lemma forEach_ok {A : Type} (f : A -> M unit) (l : list A) :
  (forall x s, fst (f x s) = Ok tt) ->
  forall s, fst (forEach f l s) = Ok tt.
Proof.
  intros Hf. induction l as [|x l IH]; intros s; [reflexivity|].
  cbn [forEach]. unfold bind. specialize (Hf x s).
  destruct (f x s) as [[[]|e] s']; simpl in Hf; [apply IH | discriminate].
Qed.

Lemma bind_ok {A : Type} (m : M A) (k : A -> M unit) :
  (forall s, exists a, fst (m s) = Ok a) ->
  (forall a s, fst (k a s) = Ok tt) ->
  forall s, fst (bind m k s) = Ok tt.
Proof.
  intros Hm Hk s. unfold bind. destruct (Hm s) as [a Ha].
  destruct (m s) as [[a'|e] s']; simpl in Ha; [apply Hk | discriminate].
Qed.

Lemma querySelectorAll_ok (scope : nat) (text : string) (sel : selector) :
  parse_selector text = Some sel ->
  forall s, exists ids, fst (querySelectorAll scope text s) = Ok ids.
Proof.
  intros Hp s. unfold querySelectorAll. rewrite Hp. eexists. reflexivity.
Qed.

Lemma querySelector_ok (scope : nat) (text : string) (sel : selector) :
  parse_selector text = Some sel ->
  forall s, exists x, fst (querySelector scope text s) = Ok x.
Proof.
  intros Hp s. unfold querySelector, bind, querySelectorAll. rewrite Hp.
  eexists. reflexivity.
Qed.

Lemma closest_ok (id : nat) (text : string) (sel : selector) :
  parse_selector text = Some sel ->
  forall s, exists x, fst (closest id text s) = Ok x.
Proof.
  intros Hp s. unfold closest. rewrite Hp. eexists. reflexivity.
Qed.

Lemma clearErrors_ok (f : nat) (s : State) : fst (clearErrors f s) = Ok tt.
Proof.
  revert s. unfold clearErrors.
  apply bind_ok; [now apply querySelectorAll_ok with (sel := [[SClass "govuk-form-group--error"]])|].
  intros groups. apply bind_ok.
  { intros s. exists tt. now apply forEach_ok. }
  intros _. apply bind_ok;
    [now apply querySelectorAll_ok with (sel := [[SClass "govuk-error-message"]])|].
  intros messages. apply bind_ok.
  { intros s. exists tt. now apply forEach_ok. }
  intros _. apply bind_ok;
    [now apply querySelector_ok with (sel := [[SClass "govuk-error-summary"]])|].
  intros [x|] s; reflexivity.
Qed.

Lemma showError_ok (err : ValidationError) (s : State) :
  fst (showError err s) = Ok tt.
Proof.
  revert s. unfold showError.
  apply bind_ok;
    [now apply closest_ok with (sel := [[SClass "govuk-form-group"]])|].
  intros [g|]; [|reflexivity].
  apply bind_ok; [intros s; now exists tt|]. intros _.
  apply bind_ok; [intros s; eexists; reflexivity|]. intros error.
  apply bind_ok;
    [now apply querySelector_ok
       with (sel := [[SClass "govuk-input"]; [SClass "govuk-fieldset"]])|].
  intros [x|] s; reflexivity.
Qed.

Lemma showErrors_ok (this : Button) (f : nat) (errors : list ValidationError)
  (s : State) :
  fst (showErrors this f errors s) = Ok tt.
Proof.
  revert s. unfold showErrors. apply bind_ok.
  { intros s. exists tt. apply forEach_ok. apply showError_ok. }
  intros _ s. destruct (_ && _); reflexivity.
Qed.

(** [isValid] is false exactly when an error has been recorded. *)
Lemma validate_fields_isValid (this : Button) (f : nat) (fields : obj)
  (s : State) :
  forall isValid errors v errs s',
    isValid = match errors with [] => true | _ :: _ => false end ->
    validate_fields this f fields isValid errors s = (Ok (v, errs), s') ->
    v = match errs with [] => true | _ :: _ => false end.
Proof.
  induction fields as [|[k sel] rest IH]; intros isValid errors v errs s' Hi H.
  - cbn in H. injection H as <- <- _. exact Hi.
  - rewrite validate_fields_cons in H.
    destruct sel; try discriminate.
    destruct (fst (querySelector f s0 s)) as [[id|]|e]; try discriminate.
    + destruct (fst (validateElement f id k s)) as [[|]|e]; try discriminate.
      * eapply IH; eassumption.
      * eapply IH; [|eassumption]. now destruct errors.
    + eapply IH; eassumption.
Qed.

(* ===================================================================== *)
(** * 14. Focus                                                            *)
(* ===================================================================== *)

(** C7, as amended.  When the pass records at least one error and
    [config.focusOnError] is truthy, [handleFormSubmit] completes, and the
    last thing it does - after the old decorations were cleared, the
    default of the event prevented and the new decorations rendered - is
    to call [focus()] on the element of the first error. *)
Theorem handleFormSubmit_focuses_first_error (this : Button) (f : nat)
  (s : State) (isValid : bool) (first : ValidationError)
  (others : list ValidationError) :
  form this = Some f ->
  validate_fields this f
    (entries (js_or (get (config this) "validationSelectors") (JObj [])))
    true [] (snd (clearErrors f s))
  = (Ok (isValid, first :: others), snd (clearErrors f s)) ->
  truthy (get (config this) "focusOnError") = true ->
  exists rendered,
    (preventDefault ;; showErrors this f (first :: others))
      (snd (clearErrors f s)) = (Ok tt, rendered)
    /\ focus_calls rendered = focus_calls s
    /\ handleFormSubmit this s
       = (Ok tt, with_focus_calls (element_ref first :: focus_calls s) rendered).
Proof.
  intros Hf Hpass Hfocus.
  pose proof (validate_fields_isValid this f _ _ true [] _ _ _ eq_refl Hpass)
    as Hv.
  cbn in Hv. subst isValid.
  pose proof (clearErrors_ok f s) as Hc.
  pose proof (preserves_clearErrors focus_calls
                ltac:(reflexivity) f s) as Hcf.
  rewrite (handleFormSubmit_stages this f s Hf).
  destruct (clearErrors f s) as [[[]|e] s1]; [|discriminate].
  cbn [snd] in *. rewrite Hpass. cbn [negb]. rewrite Hfocus.
  pose proof (showErrors_ok this f (first :: others)
                (with_defaultPrevented true s1)) as Hs.
  pose proof (preserves_showErrors focus_calls
                ltac:(reflexivity) ltac:(reflexivity) this f
                (first :: others) (with_defaultPrevented true s1)) as Hsf.
  unfold bind, preventDefault.
  destruct (showErrors this f (first :: others) (with_defaultPrevented true s1))
    as [[[]|e] s3]; [|discriminate].
  cbn [snd] in Hsf. cbn in Hsf.
  exists s3. split; [reflexivity|]. split.
  - now rewrite Hsf.
  - unfold focus. now rewrite Hsf, Hcf.
Qed.

Lemma handleFormSubmit_focuses_first_error_witness :
  focus_calls
    (snd (handleFormSubmit (button_with (sample_config true true))
            (state_of page_form)))
  = [4].
Proof.
  destruct (handleFormSubmit_focuses_first_error
              (button_with (sample_config true true)) 2 (state_of page_form)
              false
              {| field := "email"; element_ref := 4;
                 message := JStr "Enter an email" |}
              [ {| field := "terms"; element_ref := 9;
                   message := JStr "This field is required" |} ]
              eq_refl eq_refl eq_refl) as (rendered & _ & _ & H).
  rewrite H. reflexivity.
Defined.

(** C7, counterexample: with [focusOnError] set to [false] the pass records
    errors, the first of them for element 4, and no element is focused. *)
Lemma handleFormSubmit_without_focus :
  let this := button_with (sample_config false true) in
  let s := state_of page_form in
  (exists isValid others,
     validate_fields this 2 sample_selectors true [] (snd (clearErrors 2 s))
     = (Ok (isValid,
            {| field := "email"; element_ref := 4;
               message := JStr "Enter an email" |} :: others),
        snd (clearErrors 2 s)))
  /\ fst (handleFormSubmit this s) = Ok tt
  /\ focus_calls (snd (handleFormSubmit this s)) = [].
Proof.
  intros this s. split; [|split; reflexivity].
  eexists. eexists. reflexivity.
Qed.

(* ===================================================================== *)
(** * 15. The document tree                                                *)
(* ===================================================================== *)

Lemma unique_NoDup (l : list nat) : unique l = true <-> NoDup l.
Proof.
  induction l as [|x l IH]; simpl.
  - split; [constructor | reflexivity].
  - rewrite andb_true_iff, negb_true_iff, IH. split.
    + intros [Hx Hl]. constructor; [|exact Hl].
      intros Hin. assert (existsb (Nat.eqb x) l = true); [|congruence].
      apply existsb_exists. exists x. split; [exact Hin | apply Nat.eqb_refl].
    + intros H. inversion H as [|? ? Hx Hl]; subst. split; [|exact Hl].
      destruct (existsb (Nat.eqb x) l) eqn:E; [|reflexivity].
      apply existsb_exists in E as (y & Hy & Hxy).
      apply Nat.eqb_eq in Hxy. subst y. contradiction.
Qed.

Lemma ids_Node (e : element) (ks : list node) :
  ids (Node e ks) = node_id e :: forest_ids ks.
Proof. reflexivity. Qed.

Lemma forest_ids_cons (k : node) (ks : list node) :
  forest_ids (k :: ks) = ids k ++ forest_ids ks.
Proof. unfold forest_ids, forest_elements, ids. simpl. apply map_app. Qed.

Lemma forest_ids_app (a b : list node) :
  forest_ids (a ++ b) = forest_ids a ++ forest_ids b.
Proof.
  unfold forest_ids, forest_elements. now rewrite flat_map_app, map_app.
Qed.

Lemma in_forest_ids (x : nat) (ks : list node) :
  In x (forest_ids ks) <-> exists k, In k ks /\ In x (ids k).
Proof.
  induction ks as [|k ks IH].
  - cbn. split; [intros [] | intros (k & Hk & _); destruct Hk].
  - rewrite forest_ids_cons, in_app_iff, IH. split.
    + intros [H | (k' & Hk & Hx)].
      * exists k. split; [now left | exact H].
      * exists k'. split; [now right | exact Hx].
    + intros (k' & [<- | Hk] & Hx); [now left|].
      right. now exists k'.
Qed.

Lemma in_forest_elements (x : element) (ks : list node) :
  In x (forest_elements ks) <-> exists k, In k ks /\ In x (elements k).
Proof. unfold forest_elements. apply in_flat_map. Qed.

Lemma has_id_in_ids (x : nat) (k : node) :
  has_id x k = true -> In x (ids k).
Proof.
  destruct k as [e ks|p]; simpl; [|discriminate].
  intros H. apply Nat.eqb_eq in H. now left.
Qed.

Lemma NoDup_forest_child (ks : list node) (k : node) :
  NoDup (forest_ids ks) -> In k ks -> NoDup (ids k).
Proof.
  induction ks as [|c ks IH]; intros Hn Hin; [destruct Hin|].
  destruct Hin as [<- | Hin].
  - rewrite forest_ids_cons in Hn. now apply NoDup_app_remove_r in Hn.
  - rewrite forest_ids_cons in Hn. apply NoDup_app_remove_l in Hn. now apply IH.
Qed.

(** Two children of a duplicate-free forest that hold the same identifier
    are the same child. *)
Lemma NoDup_forest_same_child (ks : list node) (a b : node) (x : nat) :
  NoDup (forest_ids ks) -> In a ks -> In b ks ->
  In x (ids a) -> In x (ids b) -> a = b.
Proof.
  induction ks as [|c ks IH]; intros Hn Ha Hb Hxa Hxb; [destruct Ha|].
  rewrite forest_ids_cons in Hn.
  assert (Hdis : forall y, In y (ids c) -> ~ In y (forest_ids ks)).
  { intros y Hy Hy'. revert Hn Hy Hy'. clear.
    generalize (ids c) (forest_ids ks). intros l1 l2 Hn Hy Hy'.
    induction l1 as [|z l1 IH]; [destruct Hy|].
    simpl in Hn. inversion Hn as [|? ? Hz Hn']; subst.
    destruct Hy as [-> | Hy]; [|now apply IH].
    apply Hz. apply in_app_iff. now right. }
  destruct Ha as [<- | Ha], Hb as [<- | Hb].
  - reflexivity.
  - exfalso. apply (Hdis x Hxa). apply in_forest_ids. now exists b.
  - exfalso. apply (Hdis x Hxb). apply in_forest_ids. now exists a.
  - apply NoDup_app_remove_l in Hn. now apply IH.
Qed.

(** ** [find] *)

Lemma first_some_in {A B : Type} (g : A -> option B) (l : list A) (y : B) :
  first_some g l = Some y -> exists x, In x l /\ g x = Some y.
Proof.
  induction l as [|x l IH]; simpl; [discriminate|].
  destruct (g x) eqn:E.
  - intros [= <-]. exists x. split; [now left | exact E].
  - intros H. destruct (IH H) as (x' & Hin & Hx'). exists x'.
    split; [now right | exact Hx'].
Qed.

Lemma first_some_none {A B : Type} (g : A -> option B) (l : list A) :
  (forall x, In x l -> g x = None) -> first_some g l = None.
Proof.
  induction l as [|x l IH]; intros H; simpl; [reflexivity|].
  rewrite (H x (or_introl eq_refl)). apply IH. intros y Hy. apply H. now right.
Qed.

Lemma find_none (f : nat) (n : node) : ~ In f (ids n) -> find f n = None.
Proof.
  induction n as [e ks IH|p] using node_induction; [|reflexivity].
  intros Hf. rewrite ids_Node in Hf. simpl.
  destruct (Nat.eqb_spec (node_id e) f) as [He|Hne].
  - exfalso. apply Hf. now left.
  - apply first_some_none. intros k Hk.
    rewrite Forall_forall in IH. apply (IH k Hk).
    intros Hin. apply Hf. right. apply in_forest_ids. now exists k.
Qed.

Lemma find_some (f : nat) (n m : node) :
  find f n = Some m ->
  exists e ks, m = Node e ks /\ node_id e = f /\ In f (ids n)
               /\ incl (elements m) (elements n).
Proof.
  revert m. induction n as [e ks IH|p] using node_induction;
    intros m; [|discriminate].
  cbn [find]. destruct (Nat.eqb_spec (node_id e) f) as [He|Hne].
  - intros [= <-]. exists e, ks. repeat split; try assumption.
    + rewrite ids_Node. now left.
    + apply incl_refl.
  - intros H. apply first_some_in in H as (k & Hk & Hfind).
    rewrite Forall_forall in IH.
    destruct (IH k Hk m Hfind) as (e' & ks' & -> & Hid & Hin & Hincl).
    exists e', ks'. repeat split; try assumption.
    + rewrite ids_Node. right. apply in_forest_ids. now exists k.
    + intros x Hx. cbn [elements]. right. apply in_flat_map. exists k.
      split; [exact Hk | now apply Hincl].
Qed.

Lemma find_in_ids (f : nat) (n : node) :
  In f (ids n) -> exists m, find f n = Some m.
Proof.
  induction n as [e ks IH|p] using node_induction; [|intros []].
  rewrite ids_Node. cbn [find]. intros Hin.
  destruct (Nat.eqb_spec (node_id e) f) as [He|Hne]; [eexists; reflexivity|].
  destruct Hin as [He | Hin]; [contradiction|].
  apply in_forest_ids in Hin as (k & Hk & Hx).
  rewrite Forall_forall in IH.
  clear Hne. induction ks as [|c ks IHks]; [destruct Hk|].
  simpl. destruct (find f c) eqn:E; [eexists; reflexivity|].
  destruct Hk as [-> | Hk].
  - destruct (IH k (or_introl eq_refl) Hx) as [m Hm]. congruence.
  - apply IHks; [|exact Hk]. intros y Hy. apply IH. now right.
Qed.

(** In a duplicate-free forest, the search finds [f] in the one child that
    holds it. *)
Lemma first_some_find_child (f : nat) (ks : list node) (k : node) :
  NoDup (forest_ids ks) -> In k ks -> In f (ids k) ->
  first_some (find f) ks = find f k.
Proof.
  induction ks as [|c ks IH]; intros Hn Hk Hf; [destruct Hk|].
  simpl. destruct (find f c) as [m|] eqn:E.
  - destruct (find_some f c m E) as (_ & _ & _ & _ & Hin & _).
    assert (c = k) as ->.
    { apply (NoDup_forest_same_child (c :: ks) c k f); auto. now left. }
    now rewrite E.
  - destruct Hk as [-> | Hk].
    + destruct (find_in_ids f k Hf) as [m Hm]. congruence.
    + apply IH; auto. rewrite forest_ids_cons in Hn.
      now apply NoDup_app_remove_l in Hn.
Qed.

Lemma NoDup_app_disjoint {A : Type} (l1 l2 : list A) (y : A) :
  NoDup (l1 ++ l2) -> In y l1 -> ~ In y l2.
Proof.
  intros Hn Hy Hy'. induction l1 as [|z l1 IH]; [destruct Hy|].
  simpl in Hn. inversion Hn as [|? ? Hz Hn']; subst.
  destruct Hy as [-> | Hy]; [|now apply IH].
  apply Hz. apply in_app_iff. now right.
Qed.

(** The children of the node that [find] returns lie strictly below the
    root of the tree searched. *)
Lemma find_children_incl (f : nat) (e0 : element) (cs : list node)
  (e : element) (ks : list node) :
  find f (Node e0 cs) = Some (Node e ks) ->
  incl (forest_elements ks) (forest_elements cs).
Proof.
  cbn [find]. destruct (Nat.eqb (node_id e0) f).
  - intros [= _ <-]. apply incl_refl.
  - intros H. apply first_some_in in H as (k & Hk & Hfind).
    destruct (find_some f k _ Hfind) as (_ & _ & _ & _ & _ & Hincl).
    intros x Hx. apply in_forest_elements. exists k. split; [exact Hk|].
    apply Hincl. cbn [elements]. now right.
Qed.

Lemma find_root_differs (f x : nat) (e0 : element) (cs : list node)
  (e : element) (ks : list node) :
  NoDup (ids (Node e0 cs)) ->
  find f (Node e0 cs) = Some (Node e ks) ->
  In x (forest_ids ks) -> node_id e0 <> x.
Proof.
  intros Hn Hfind Hx He. rewrite ids_Node in Hn.
  inversion Hn as [|? ? Hnot _]; subst. apply Hnot.
  apply in_map_iff in Hx as (y & Hy & Hin). apply in_map_iff. exists y.
  split; [exact Hy|]. now apply (find_children_incl _ _ _ _ _ Hfind).
Qed.

(** ** [on_children] *)

Lemma on_children_id (f : nat) (T : list node -> list node) (n : node) :
  ~ In f (ids n) -> on_children f T n = n.
Proof.
  induction n as [e ks IH|p] using node_induction; [|reflexivity].
  intros Hf. rewrite ids_Node in Hf. cbn [on_children].
  destruct (Nat.eqb_spec (node_id e) f) as [He|Hne].
  - exfalso. apply Hf. now left.
  - f_equal. rewrite <- (map_id ks) at 2. apply map_ext_in. intros k Hk.
    rewrite Forall_forall in IH. apply (IH k Hk).
    intros Hin. apply Hf. right. apply in_forest_ids. now exists k.
Qed.

Lemma find_on_children (f : nat) (T : list node -> list node) (n : node) :
  find f (on_children f T n)
  = match find f n with
    | Some (Node e ks) => Some (Node e (T ks))
    | other => other
    end.
Proof.
  induction n as [e ks IH|p] using node_induction; [|reflexivity].
  cbn [on_children find].
  destruct (Nat.eqb (node_id e) f) eqn:E; cbn [find]; rewrite E;
    [reflexivity|].
  induction ks as [|k ks IHks]; [reflexivity|].
  inversion IH as [|? ? Hk Hks]; subst. cbn [map first_some].
  rewrite Hk. destruct (find f k) as [[e' ks'|p]|]; try reflexivity.
  now apply IHks.
Qed.

Lemma on_children_compose (f : nat) (T1 T2 : list node -> list node)
  (n : node) :
  on_children f T2 (on_children f T1 n)
  = on_children f (fun ks => T2 (T1 ks)) n.
Proof.
  induction n as [e ks IH|p] using node_induction; [|reflexivity].
  cbn [on_children].
  destruct (Nat.eqb (node_id e) f) eqn:E; cbn [on_children]; rewrite E;
    [reflexivity|].
  f_equal. rewrite map_map. apply map_ext_in. intros k Hk.
  rewrite Forall_forall in IH. now apply IH.
Qed.

(** In a duplicate-free document, two transformations that agree on the
    children of the form have the same effect. *)
Lemma on_children_ext (f : nat) (T T' : list node -> list node) (n : node) :
  NoDup (ids n) ->
  (forall e ks, find f n = Some (Node e ks) -> T ks = T' ks) ->
  on_children f T n = on_children f T' n.
Proof.
  induction n as [e cs IH|p] using node_induction; [|reflexivity].
  intros Hn HT. cbn [on_children].
  destruct (Nat.eqb (node_id e) f) eqn:E.
  - f_equal. apply (HT e). cbn [find]. now rewrite E.
  - f_equal. apply map_ext_in. intros c Hc.
    rewrite ids_Node in Hn. apply NoDup_cons_iff in Hn as [_ Hn].
    destruct (in_dec Nat.eq_dec f (ids c)) as [Hin|Hout].
    + rewrite Forall_forall in IH. apply (IH c Hc).
      * now apply (NoDup_forest_child cs).
      * intros e' ks' Hfind. apply (HT e'). cbn [find]. rewrite E.
        now rewrite (first_some_find_child f cs c Hn Hc Hin).
    + now rewrite !on_children_id.
Qed.

(** ** Mutations away from their target *)

Lemma flat_map_singleton {A B : Type} (g : A -> B) (l : list A) :
  flat_map (fun x => [g x]) l = map g l.
Proof. induction l as [|x l IH]; simpl; [reflexivity | now rewrite IH]. Qed.

Lemma flat_map_ext_in {A B : Type} (g g' : A -> list B) (l : list A) :
  (forall x, In x l -> g x = g' x) -> flat_map g l = flat_map g' l.
Proof.
  induction l as [|x l IH]; intros H; simpl; [reflexivity|].
  rewrite (H x (or_introl eq_refl)), IH; [reflexivity|].
  intros y Hy. apply H. now right.
Qed.

Lemma has_id_false (x : nat) (k : node) :
  ~ In x (ids k) -> has_id x k = false.
Proof.
  intros H. destruct (has_id x k) eqn:E; [|reflexivity].
  exfalso. apply H. now apply has_id_in_ids.
Qed.

Lemma removeF_map (x : nat) (ks : list node) :
  (forall k, In k ks -> has_id x k = false) ->
  removeF x ks = map (remove_node x) ks.
Proof.
  intros H. unfold removeF. rewrite <- flat_map_singleton.
  apply flat_map_ext_in. intros k Hk. now rewrite (H k Hk).
Qed.

Lemma insertF_map (r : nat) (new : node) (ks : list node) :
  (forall k, In k ks -> has_id r k = false) ->
  insertF r new ks = map (insert_before r new) ks.
Proof.
  intros H. unfold insertF. rewrite <- flat_map_singleton.
  apply flat_map_ext_in. intros k Hk. now rewrite (H k Hk).
Qed.

Lemma map_id_in {A : Type} (g : A -> A) (l : list A) :
  (forall x, In x l -> g x = x) -> map g l = l.
Proof.
  intros H. rewrite <- (map_id l) at 2. now apply map_ext_in.
Qed.

Lemma update_local (x : nat) (h : element -> element) (n : node) :
  ~ In x (ids n) -> update x h n = n.
Proof.
  induction n as [e ks IH|p] using node_induction; [|reflexivity].
  intros Hx. rewrite ids_Node in Hx. cbn [update].
  destruct (Nat.eqb_spec (node_id e) x) as [He|Hne].
  - exfalso. apply Hx. now left.
  - f_equal. apply map_id_in. intros k Hk.
    rewrite Forall_forall in IH. apply (IH k Hk).
    intros Hin. apply Hx. right. apply in_forest_ids. now exists k.
Qed.

Lemma remove_node_local (x : nat) (n : node) :
  ~ In x (ids n) -> remove_node x n = n.
Proof.
  induction n as [e ks IH|p] using node_induction; [|reflexivity].
  intros Hx. rewrite ids_Node in Hx.
  change (remove_node x (Node e ks)) with (Node e (removeF x ks)).
  assert (Hk : forall k, In k ks -> ~ In x (ids k)).
  { intros k Hk Hin. apply Hx. right. apply in_forest_ids. now exists k. }
  rewrite removeF_map by (intros k Hin; apply has_id_false; now apply Hk).
  f_equal. apply map_id_in. intros k Hin.
  rewrite Forall_forall in IH. apply (IH k Hin). now apply Hk.
Qed.

Lemma insert_before_local (r : nat) (new : node) (n : node) :
  ~ In r (ids n) -> insert_before r new n = n.
Proof.
  induction n as [e ks IH|p] using node_induction; [|reflexivity].
  intros Hx. rewrite ids_Node in Hx.
  change (insert_before r new (Node e ks)) with (Node e (insertF r new ks)).
  assert (Hk : forall k, In k ks -> ~ In r (ids k)).
  { intros k Hk Hin. apply Hx. right. apply in_forest_ids. now exists k. }
  rewrite insertF_map by (intros k Hin; apply has_id_false; now apply Hk).
  f_equal. apply map_id_in. intros k Hin.
  rewrite Forall_forall in IH. apply (IH k Hin). now apply Hk.
Qed.

(** ** A mutation below the form is a mutation of the form's children *)

Section Bridge.
Variables (target : nat -> bool) (op : node -> node)
          (opF : list node -> list node).
Hypothesis op_node :
  forall e ks, target (node_id e) = false -> op (Node e ks) = Node e (opF ks).
Hypothesis op_local :
  forall n, (forall y, In y (ids n) -> target y = false) -> op n = n.
Hypothesis opF_map :
  forall ks, (forall k, In k ks -> root_targeted target k = false) ->
             opF ks = map op ks.

Lemma below_form (f : nat) (n : node) :
  NoDup (ids n) ->
  forall e ks, find f n = Some (Node e ks) ->
  (forall y, target y = true -> In y (forest_ids ks)) ->
  op n = on_children f opF n.
Proof.
  induction n as [e0 cs IH|p] using node_induction;
    [|intros _ e ks Hfind; discriminate Hfind].
  intros Hn e ks Hfind Hx.
  assert (Hroot : target (node_id e0) = false).
  { destruct (target (node_id e0)) eqn:Et; [|reflexivity]. exfalso.
    now apply (find_root_differs f (node_id e0) e0 cs e ks Hn Hfind
                 (Hx _ Et)). }
  rewrite (op_node e0 cs Hroot). cbn [on_children].
  destruct (Nat.eqb (node_id e0) f) eqn:E; [reflexivity|].
  cbn [find] in Hfind. rewrite E in Hfind.
  destruct (first_some_in _ _ _ Hfind) as (k & Hk & Hfk).
  destruct (find_some f k _ Hfk) as (_ & _ & _ & _ & Hfin & Hincl).
  assert (Hxk : forall y, target y = true -> In y (ids k)).
  { intros y Hy. apply Hx in Hy.
    apply in_map_iff in Hy as (z & Hz & Hin). apply in_map_iff. exists z.
    split; [exact Hz|]. apply Hincl. cbn [elements]. now right. }
  rewrite ids_Node in Hn. apply NoDup_cons_iff in Hn as [_ Hn].
  assert (Hout : forall c, In c cs -> ~ In f (ids c) ->
                           forall y, In y (ids c) -> target y = false).
  { intros c Hc Hf y Hy. destruct (target y) eqn:Et; [|reflexivity].
    exfalso. apply Hf.
    assert (c = k) as ->
      by now apply (NoDup_forest_same_child cs c k y); auto.
    exact Hfin. }
  f_equal. rewrite opF_map.
  - apply map_ext_in. intros c Hc.
    destruct (in_dec Nat.eq_dec f (ids c)) as [Hin|Hnot].
    + assert (c = k) as ->
        by now apply (NoDup_forest_same_child cs c k f).
      rewrite Forall_forall in IH.
      apply (IH k Hk (NoDup_forest_child cs k Hn Hk) e ks Hfk Hx).
    + rewrite on_children_id by exact Hnot. apply op_local.
      now apply Hout.
  - intros c Hc. destruct c as [ec ccs|p]; [|reflexivity].
    cbn [root_targeted].
    destruct (in_dec Nat.eq_dec f (ids (Node ec ccs))) as [Hin|Hnot].
    + assert (Node ec ccs = k) as Hck
        by now apply (NoDup_forest_same_child cs (Node ec ccs) k f).
      rewrite <- Hck in Hfk.
      destruct (target (node_id ec)) eqn:Et; [|reflexivity]. exfalso.
      apply (find_root_differs f (node_id ec) ec ccs e ks); auto.
      now apply (NoDup_forest_child cs).
    + apply (Hout _ Hc Hnot). rewrite ids_Node. now left.
Qed.
End Bridge.

Lemma update_below_form (f x : nat) (h : element -> element) (d : node)
  (e : element) (ks : list node) :
  NoDup (ids d) -> find f d = Some (Node e ks) -> In x (forest_ids ks) ->
  update x h d = on_children f (updateF x h) d.
Proof.
  intros Hn Hf Hx.
  apply (below_form (Nat.eqb x) (update x h) (updateF x h))
    with (e := e) (ks := ks); auto.
  - intros e0 cs He. cbn [update]. rewrite Nat.eqb_sym in He. now rewrite He.
  - intros n Hl. apply update_local. intros Hin.
    specialize (Hl x Hin). now rewrite Nat.eqb_refl in Hl.
  - intros y Hy. apply Nat.eqb_eq in Hy. now subst y.
Qed.

Lemma root_targeted_has_id (x : nat) (k : node) :
  root_targeted (Nat.eqb x) k = has_id x k.
Proof. destruct k; [apply Nat.eqb_sym | reflexivity]. Qed.

Lemma remove_below_form (f x : nat) (d : node) (e : element)
  (ks : list node) :
  NoDup (ids d) -> find f d = Some (Node e ks) -> In x (forest_ids ks) ->
  remove_node x d = on_children f (removeF x) d.
Proof.
  intros Hn Hf Hx.
  apply (below_form (Nat.eqb x) (remove_node x) (removeF x))
    with (e := e) (ks := ks); auto.
  - intros n Hl. apply remove_node_local. intros Hin.
    specialize (Hl x Hin). now rewrite Nat.eqb_refl in Hl.
  - intros cs Hcs. apply removeF_map. intros k Hk.
    rewrite <- root_targeted_has_id. now apply Hcs.
  - intros y Hy. apply Nat.eqb_eq in Hy. now subst y.
Qed.

Lemma insert_below_form (f r : nat) (new : node) (d : node) (e : element)
  (ks : list node) :
  NoDup (ids d) -> find f d = Some (Node e ks) -> In r (forest_ids ks) ->
  insert_before r new d = on_children f (insertF r new) d.
Proof.
  intros Hn Hf Hx.
  apply (below_form (Nat.eqb r) (insert_before r new) (insertF r new))
    with (e := e) (ks := ks); auto.
  - intros n Hl. apply insert_before_local. intros Hin.
    specialize (Hl r Hin). now rewrite Nat.eqb_refl in Hl.
  - intros cs Hcs. apply insertF_map. intros k Hk.
    rewrite <- root_targeted_has_id. now apply Hcs.
  - intros y Hy. apply Nat.eqb_eq in Hy. now subst y.
Qed.

Lemma prepend_child_on_children (f : nat) (new : node) (n : node) :
  prepend_child f new n = on_children f (cons new) n.
Proof.
  induction n as [e ks IH|p] using node_induction; [|reflexivity].
  cbn [prepend_child on_children].
  destruct (Nat.eqb (node_id e) f); [reflexivity|].
  f_equal. apply map_ext_in. intros k Hk.
  rewrite Forall_forall in IH. now apply IH.
Qed.

(** ** Identifiers after a mutation *)

Lemma elements_update (x : nat) (h : element -> element) (n : node) :
  elements (update x h n)
  = map (fun e => if Nat.eqb (node_id e) x then h e else e) (elements n).
Proof.
  induction n as [e ks IH|p] using node_induction; [|reflexivity].
  cbn [update elements map]. f_equal.
  induction ks as [|k ks IHks]; [reflexivity|].
  inversion IH as [|? ? Hk Hks]; subst.
  cbn [map flat_map]. rewrite map_app, Hk. f_equal. now apply IHks.
Qed.

Lemma ids_update (x : nat) (h : element -> element) (n : node) :
  (forall e, node_id (h e) = node_id e) ->
  ids (update x h n) = ids n.
Proof.
  intros Hh. unfold ids. rewrite elements_update, map_map.
  apply map_ext. intros e. destruct (Nat.eqb (node_id e) x); auto.
Qed.

Lemma forest_ids_updateF (x : nat) (h : element -> element) (ks : list node) :
  (forall e, node_id (h e) = node_id e) ->
  forest_ids (updateF x h ks) = forest_ids ks.
Proof.
  intros Hh. induction ks as [|k ks IH]; [reflexivity|].
  unfold updateF in *. cbn [map]. rewrite !forest_ids_cons, IH.
  now rewrite ids_update.
Qed.

Lemma removeF_cons (x : nat) (k : node) (ks : list node) :
  removeF x (k :: ks)
  = (if has_id x k then [] else [remove_node x k]) ++ removeF x ks.
Proof. reflexivity. Qed.

Lemma insertF_cons (r : nat) (new k : node) (ks : list node) :
  insertF r new (k :: ks)
  = (if has_id r k then [new; k] else [insert_before r new k])
    ++ insertF r new ks.
Proof. reflexivity. Qed.

Lemma forest_elements_cons (k : node) (ks : list node) :
  forest_elements (k :: ks) = elements k ++ forest_elements ks.
Proof. reflexivity. Qed.

Lemma forest_elements_app (a b : list node) :
  forest_elements (a ++ b) = forest_elements a ++ forest_elements b.
Proof. apply flat_map_app. Qed.

(** Removal keeps a part of the elements, and none with the identifier
    removed. *)
Lemma elements_removeF_one (x : nat) (n : node) :
  forall y, In y (forest_elements (removeF x [n])) ->
            In y (elements n) /\ node_id y <> x.
Proof.
  induction n as [e ks IH|p] using node_induction; [|intros y []].
  intros y. cbn [removeF flat_map]. rewrite app_nil_r.
  destruct (has_id x (Node e ks)) eqn:E; [intros []|].
  change (remove_node x (Node e ks)) with (Node e (removeF x ks)).
  cbn [forest_elements flat_map elements]. rewrite app_nil_r.
  intros [<- | Hy].
  - split; [now left | now apply Nat.eqb_neq].
  - assert (HF : In y (forest_elements ks) /\ node_id y <> x).
    { clear E. induction ks as [|k ks IHks]; [destruct Hy|].
      inversion IH as [|? ? Hk Hks]; subst.
      rewrite removeF_cons in Hy.
      change (forest_elements ((if has_id x k then [] else [remove_node x k])
                                ++ removeF x ks))
        with (flat_map elements ((if has_id x k then [] else [remove_node x k])
                                ++ removeF x ks)) in Hy.
      rewrite flat_map_app in Hy. apply in_app_iff in Hy as [Hy | Hy].
      - destruct (Hk y) as [Hin Hne].
        { cbn [removeF flat_map]. now rewrite app_nil_r. }
        split; [|exact Hne]. rewrite forest_elements_cons.
        apply in_app_iff. now left.
      - destruct (IHks Hks Hy) as [Hin Hne]. split; [|exact Hne].
        rewrite forest_elements_cons. apply in_app_iff. now right. }
    destruct HF as [Hin Hne]. split; [now right | exact Hne].
Qed.

Lemma elements_removeF (x : nat) (ks : list node) :
  forall y, In y (forest_elements (removeF x ks)) ->
            In y (forest_elements ks) /\ node_id y <> x.
Proof.
  induction ks as [|k ks IH]; intros y Hy; [destruct Hy|].
  rewrite removeF_cons in Hy.
  change (In y (flat_map elements
                  ((if has_id x k then [] else [remove_node x k])
                   ++ removeF x ks))) in Hy.
  rewrite flat_map_app in Hy. apply in_app_iff in Hy as [Hy | Hy].
  - destruct (elements_removeF_one x k y) as [Hin Hne].
    { cbn [removeF flat_map]. now rewrite app_nil_r. }
    split; [|exact Hne]. rewrite forest_elements_cons.
    apply in_app_iff. now left.
  - destruct (IH y Hy) as [Hin Hne]. split; [|exact Hne].
    rewrite forest_elements_cons. apply in_app_iff. now right.
Qed.

Lemma forest_ids_removeF_incl (x : nat) (ks : list node) :
  incl (forest_ids (removeF x ks)) (forest_ids ks).
Proof.
  intros y Hy. apply in_map_iff in Hy as (z & <- & Hz).
  apply in_map. now apply elements_removeF in Hz.
Qed.

Lemma removeF_one (x : nat) (k : node) :
  removeF x [k] = if has_id x k then [] else [remove_node x k].
Proof. unfold removeF. cbn [flat_map]. apply app_nil_r. Qed.

Lemma forest_ids_one (k : node) : forest_ids [k] = ids k.
Proof. rewrite forest_ids_cons. apply app_nil_r. Qed.

Lemma NoDup_removeF_from (x : nat) (ks : list node) :
  Forall (fun n => NoDup (ids n) -> NoDup (forest_ids (removeF x [n]))) ks ->
  NoDup (forest_ids ks) -> NoDup (forest_ids (removeF x ks)).
Proof.
  induction ks as [|k ks IH]; intros HQ Hn; [constructor|].
  inversion HQ as [|? ? Hk Hks]; subst.
  rewrite forest_ids_cons in Hn.
  rewrite removeF_cons, <- removeF_one, forest_ids_app. apply NoDup_app.
  - apply Hk. now apply NoDup_app_remove_r in Hn.
  - apply IH; [exact Hks|]. now apply NoDup_app_remove_l in Hn.
  - intros y Hy Hy'. apply (NoDup_app_disjoint _ _ y Hn).
    + apply (forest_ids_removeF_incl x [k]) in Hy.
      now rewrite forest_ids_one in Hy.
    + now apply (forest_ids_removeF_incl x ks).
Qed.

Lemma NoDup_removeF_one (x : nat) (n : node) :
  NoDup (ids n) -> NoDup (forest_ids (removeF x [n])).
Proof.
  induction n as [e ks IH|p] using node_induction; [|intros _; constructor].
  intros Hn. rewrite removeF_one.
  destruct (has_id x (Node e ks)); [constructor|].
  change (remove_node x (Node e ks)) with (Node e (removeF x ks)).
  rewrite forest_ids_one, ids_Node. rewrite ids_Node in Hn.
  apply NoDup_cons_iff in Hn as [He Hn]. constructor.
  - intros Hin. apply He. now apply (forest_ids_removeF_incl x ks).
  - now apply NoDup_removeF_from.
Qed.

Lemma NoDup_removeF (x : nat) (ks : list node) :
  NoDup (forest_ids ks) -> NoDup (forest_ids (removeF x ks)).
Proof.
  apply NoDup_removeF_from. apply Forall_forall. intros n _.
  apply NoDup_removeF_one.
Qed.

Lemma ids_remove_node_incl (x : nat) (n : node) :
  incl (ids (remove_node x n)) (ids n).
Proof.
  destruct n as [e ks|p]; [|apply incl_refl].
  change (remove_node x (Node e ks)) with (Node e (removeF x ks)).
  rewrite !ids_Node. intros y [<- | Hy]; [now left|].
  right. now apply (forest_ids_removeF_incl x ks).
Qed.

Lemma NoDup_remove_node (x : nat) (n : node) :
  NoDup (ids n) -> NoDup (ids (remove_node x n)).
Proof.
  destruct n as [e ks|p]; [|auto].
  change (remove_node x (Node e ks)) with (Node e (removeF x ks)).
  rewrite !ids_Node. intros Hn. apply NoDup_cons_iff in Hn as [He Hn].
  constructor.
  - intros Hin. apply He. now apply (forest_ids_removeF_incl x ks).
  - now apply NoDup_removeF.
Qed.

Lemma insertF_one (r : nat) (new k : node) :
  insertF r new [k]
  = if has_id r k then [new; k] else [insert_before r new k].
Proof. unfold insertF. cbn [flat_map]. apply app_nil_r. Qed.

Lemma insertF_local (r : nat) (new : node) (ks : list node) :
  ~ In r (forest_ids ks) -> insertF r new ks = ks.
Proof.
  intros Hr.
  assert (Hk : forall k, In k ks -> ~ In r (ids k)).
  { intros k Hk Hin. apply Hr. apply in_forest_ids. now exists k. }
  rewrite insertF_map by (intros k Hin; apply has_id_false; now apply Hk).
  apply map_id_in. intros k Hin. apply insert_before_local. now apply Hk.
Qed.

Lemma removeF_local (x : nat) (ks : list node) :
  ~ In x (forest_ids ks) -> removeF x ks = ks.
Proof.
  intros Hr.
  assert (Hk : forall k, In k ks -> ~ In x (ids k)).
  { intros k Hk Hin. apply Hr. apply in_forest_ids. now exists k. }
  rewrite removeF_map by (intros k Hin; apply has_id_false; now apply Hk).
  apply map_id_in. intros k Hin. apply remove_node_local. now apply Hk.
Qed.

(** Insertion keeps the elements and adds those of the new node. *)
Lemma elements_insertF_from (r : nat) (new : node) (ks : list node) :
  Forall (fun n => forall y, In y (forest_elements (insertF r new [n])) ->
                             In y (elements n) \/ In y (elements new)) ks ->
  forall y, In y (forest_elements (insertF r new ks)) ->
            In y (forest_elements ks) \/ In y (elements new).
Proof.
  induction ks as [|k ks IH]; intros HP y Hy; [destruct Hy|].
  inversion HP as [|? ? Hk Hks]; subst.
  rewrite insertF_cons, <- insertF_one, forest_elements_app in Hy.
  rewrite forest_elements_cons, in_app_iff.
  apply in_app_iff in Hy as [Hy | Hy].
  - destruct (Hk y Hy); auto.
  - destruct (IH Hks y Hy); auto.
Qed.

Lemma elements_insertF_one (r : nat) (new : node) (n : node) :
  forall y, In y (forest_elements (insertF r new [n])) ->
            In y (elements n) \/ In y (elements new).
Proof.
  induction n as [e ks IH|p] using node_induction; [|intros y []].
  intros y. rewrite insertF_one.
  destruct (has_id r (Node e ks)).
  - rewrite !forest_elements_cons, !in_app_iff. cbn [forest_elements flat_map].
    intros [H | [H | []]]; auto.
  - change (insert_before r new (Node e ks))
      with (Node e (insertF r new ks)).
    rewrite forest_elements_cons. cbn [forest_elements flat_map].
    rewrite app_nil_r. cbn [elements]. intros [<- | Hy]; [left; now left|].
    destruct (elements_insertF_from r new ks IH y Hy) as [H | H]; auto.
    left. now right.
Qed.

Lemma elements_insertF (r : nat) (new : node) (ks : list node) :
  forall y, In y (forest_elements (insertF r new ks)) ->
            In y (forest_elements ks) \/ In y (elements new).
Proof.
  apply elements_insertF_from. apply Forall_forall. intros n _.
  apply elements_insertF_one.
Qed.

Lemma forest_ids_insertF (r : nat) (new : node) (ks : list node) :
  forall y, In y (forest_ids (insertF r new ks)) ->
            In y (forest_ids ks) \/ In y (ids new).
Proof.
  intros y Hy. apply in_map_iff in Hy as (z & <- & Hz).
  destruct (elements_insertF r new ks z Hz); [left | right]; now apply in_map.
Qed.

Lemma NoDup_insertF_from (r : nat) (new : node) (ks : list node) :
  Forall (fun n => NoDup (ids n) ->
                   (forall y, In y (ids new) -> ~ In y (ids n)) ->
                   NoDup (forest_ids (insertF r new [n]))) ks ->
  NoDup (forest_ids ks) ->
  (forall y, In y (ids new) -> ~ In y (forest_ids ks)) ->
  NoDup (forest_ids (insertF r new ks)).
Proof.
  induction ks as [|k ks IH]; intros HQ Hn Hnew; [constructor|].
  inversion HQ as [|? ? Hk Hks]; subst.
  rewrite forest_ids_cons in Hn, Hnew.
  assert (Hnk : forall y, In y (ids new) -> ~ In y (ids k)).
  { intros y Hy Hin. apply (Hnew y Hy). apply in_app_iff. now left. }
  assert (Hnks : forall y, In y (ids new) -> ~ In y (forest_ids ks)).
  { intros y Hy Hin. apply (Hnew y Hy). apply in_app_iff. now right. }
  rewrite insertF_cons, <- insertF_one, forest_ids_app. apply NoDup_app.
  - apply Hk; [now apply NoDup_app_remove_r in Hn | exact Hnk].
  - apply IH; [exact Hks | now apply NoDup_app_remove_l in Hn | exact Hnks].
  - intros y Hy Hy'.
    destruct (in_dec Nat.eq_dec r (ids k)) as [Hr | Hr].
    + rewrite insertF_local in Hy'
        by (intros Hin; now apply (NoDup_app_disjoint _ _ r Hn)).
      apply forest_ids_insertF in Hy as [Hy | Hy].
      * rewrite forest_ids_one in Hy.
        now apply (NoDup_app_disjoint _ _ y Hn).
      * now apply (Hnks y).
    + rewrite insertF_local in Hy by now rewrite forest_ids_one.
      rewrite forest_ids_one in Hy.
      apply forest_ids_insertF in Hy' as [Hy' | Hy'].
      * now apply (NoDup_app_disjoint _ _ y Hn).
      * now apply (Hnk y).
Qed.

Lemma NoDup_insertF_one (r : nat) (new : node) (n : node) :
  NoDup (ids new) -> NoDup (ids n) ->
  (forall y, In y (ids new) -> ~ In y (ids n)) ->
  NoDup (forest_ids (insertF r new [n])).
Proof.
  intros Hnew.
  induction n as [e ks IH|p] using node_induction; [|intros _ _; constructor].
  intros Hn Hdis. rewrite insertF_one.
  destruct (has_id r (Node e ks)).
  - rewrite forest_ids_cons, forest_ids_one.
    apply NoDup_app; assumption.
  - change (insert_before r new (Node e ks))
      with (Node e (insertF r new ks)).
    rewrite forest_ids_one, ids_Node. rewrite ids_Node in Hn, Hdis.
    apply NoDup_cons_iff in Hn as [He Hn]. constructor.
    + intros Hin. apply forest_ids_insertF in Hin as [Hin | Hin].
      * contradiction.
      * apply (Hdis _ Hin). now left.
    + apply NoDup_insertF_from; auto.
      intros y Hy Hin. apply (Hdis y Hy). now right.
Qed.

Lemma NoDup_insertF (r : nat) (new : node) (ks : list node) :
  NoDup (ids new) -> NoDup (forest_ids ks) ->
  (forall y, In y (ids new) -> ~ In y (forest_ids ks)) ->
  NoDup (forest_ids (insertF r new ks)).
Proof.
  intros Hnew. apply NoDup_insertF_from. apply Forall_forall. intros n _.
  now apply NoDup_insertF_one.
Qed.

Lemma ids_insert_before (r : nat) (new : node) (n : node) :
  forall y, In y (ids (insert_before r new n)) ->
            In y (ids n) \/ In y (ids new).
Proof.
  destruct n as [e ks|p]; [|intros y []].
  change (insert_before r new (Node e ks)) with (Node e (insertF r new ks)).
  rewrite !ids_Node. intros y [<- | Hy]; [left; now left|].
  apply forest_ids_insertF in Hy as [Hy | Hy]; auto. left. now right.
Qed.

Lemma NoDup_insert_before (r : nat) (new : node) (n : node) :
  NoDup (ids new) -> NoDup (ids n) ->
  (forall y, In y (ids new) -> ~ In y (ids n)) ->
  NoDup (ids (insert_before r new n)).
Proof.
  intros Hnew Hn Hdis. destruct n as [e ks|p]; [|auto].
  change (insert_before r new (Node e ks)) with (Node e (insertF r new ks)).
  rewrite ids_Node in *. apply NoDup_cons_iff in Hn as [He Hn]. constructor.
  - intros Hin. apply forest_ids_insertF in Hin as [Hin | Hin].
    + contradiction.
    + apply (Hdis _ Hin). now left.
  - apply NoDup_insertF; auto.
    intros y Hy Hin. apply (Hdis y Hy). now right.
Qed.

(** ** Loops of mutations as one pass over the tree *)

Lemma update_as_where (x : nat) (h : element -> element) (n : node) :
  update x h n = update_where (fun e => Nat.eqb (node_id e) x) h n.
Proof.
  induction n as [e ks IH|p] using node_induction; [|reflexivity].
  cbn [update update_where]. f_equal. apply map_ext_in. intros k Hk.
  rewrite Forall_forall in IH. now apply IH.
Qed.

Lemma update_where_ext (P Q : element -> bool) (h : element -> element)
  (n : node) :
  (forall e, In e (elements n) ->
             (if P e then h e else e) = (if Q e then h e else e)) ->
  update_where P h n = update_where Q h n.
Proof.
  induction n as [e ks IH|p] using node_induction; [|reflexivity].
  intros H. cbn [update_where]. f_equal.
  - apply H. now left.
  - apply map_ext_in. intros k Hk. rewrite Forall_forall in IH.
    apply (IH k Hk). intros x Hx. apply H. cbn [elements]. right.
    apply in_flat_map. now exists k.
Qed.

Lemma memn_cons (y x : nat) (l : list nat) :
  memn y (x :: l) = Nat.eqb y x || memn y l.
Proof. reflexivity. Qed.

Lemma memn_In (y : nat) (l : list nat) : memn y l = true <-> In y l.
Proof.
  unfold memn. rewrite existsb_exists. split.
  - intros (z & Hz & E). apply Nat.eqb_eq in E. now subst.
  - intros H. exists y. split; [exact H | apply Nat.eqb_refl].
Qed.

Lemma update_where_update (x : nat) (l : list nat) (h : element -> element)
  (n : node) :
  (forall e, node_id (h e) = node_id e) -> (forall e, h (h e) = h e) ->
  update_where (fun e => memn (node_id e) l) h (update x h n)
  = update_where (fun e => memn (node_id e) (x :: l)) h n.
Proof.
  intros Hid Hidem.
  induction n as [e ks IH|p] using node_induction; [|reflexivity].
  cbn [update update_where]. f_equal.
  - rewrite memn_cons, (Nat.eqb_sym (node_id e) x).
    destruct (Nat.eqb x (node_id e)); cbn [orb].
    + rewrite Hid. destruct (memn (node_id e) l); [apply Hidem | reflexivity].
    + reflexivity.
  - rewrite map_map. apply map_ext_in. intros k Hk.
    rewrite Forall_forall in IH. now apply IH.
Qed.

Lemma fold_updateF (h : element -> element) (l : list nat) :
  (forall e, node_id (h e) = node_id e) -> (forall e, h (h e) = h e) ->
  forall ks,
    fold_left (fun ks x => updateF x h ks) l ks
    = map (update_where (fun e => memn (node_id e) l) h) ks.
Proof.
  intros Hid Hidem. induction l as [|x l IH]; intros ks.
  - cbn [fold_left]. symmetry. apply map_id_in. intros k _.
    induction k as [e cs IHk|p] using node_induction; [|reflexivity].
    cbn. f_equal. apply map_id_in. intros c Hc.
    rewrite Forall_forall in IHk. now apply IHk.
  - cbn [fold_left]. rewrite IH. unfold updateF. rewrite map_map.
    apply map_ext. intros k. now apply update_where_update.
Qed.

Lemma removeF_as_prune (x : nat) (ks : list node) :
  removeF x ks = flat_map (prune (fun e => Nat.eqb (node_id e) x)) ks.
Proof.
  assert (H : forall n, removeF x [n]
                        = prune (fun e => Nat.eqb (node_id e) x) n).
  { induction n as [e cs IH|p] using node_induction; [|reflexivity].
    rewrite removeF_one. cbn [has_id prune].
    destruct (Nat.eqb (node_id e) x); [reflexivity|].
    change (remove_node x (Node e cs)) with (Node e (removeF x cs)).
    do 2 f_equal. clear -IH. induction cs as [|c cs IHcs]; [reflexivity|].
    inversion IH as [|? ? Hc Hcs]; subst.
    rewrite removeF_cons, <- removeF_one, Hc. cbn [flat_map].
    now rewrite IHcs. }
  induction ks as [|k ks IH]; [reflexivity|].
  rewrite removeF_cons, <- removeF_one, H. cbn [flat_map]. now rewrite IH.
Qed.

Lemma prune_ext (P Q : element -> bool) (n : node) :
  (forall e, In e (elements n) -> P e = Q e) -> prune P n = prune Q n.
Proof.
  induction n as [e ks IH|p] using node_induction; [|reflexivity].
  intros H. cbn [prune]. rewrite (H e) by now left.
  destruct (Q e); [reflexivity|]. do 2 f_equal.
  apply flat_map_ext_in. intros k Hk. rewrite Forall_forall in IH.
  apply (IH k Hk). intros x Hx. apply H. cbn [elements]. right.
  apply in_flat_map. now exists k.
Qed.

Lemma flat_map_prune_ext (P Q : element -> bool) (ks : list node) :
  (forall e, In e (forest_elements ks) -> P e = Q e) ->
  flat_map (prune P) ks = flat_map (prune Q) ks.
Proof.
  intros H. apply flat_map_ext_in. intros k Hk. apply prune_ext.
  intros e He. apply H. apply in_forest_elements. now exists k.
Qed.

Lemma flat_map_flat_map {A B C : Type} (g : A -> list B) (g' : B -> list C)
  (l : list A) :
  flat_map g' (flat_map g l) = flat_map (fun x => flat_map g' (g x)) l.
Proof.
  induction l as [|x l IH]; [reflexivity|].
  cbn [flat_map]. now rewrite flat_map_app, IH.
Qed.

Lemma prune_prune (x : nat) (l : list nat) (n : node) :
  flat_map (prune (fun e => memn (node_id e) l))
    (prune (fun e => Nat.eqb (node_id e) x) n)
  = prune (fun e => memn (node_id e) (x :: l)) n.
Proof.
  induction n as [e ks IH|p] using node_induction; [|reflexivity].
  cbn [prune]. rewrite memn_cons.
  destruct (Nat.eqb (node_id e) x); [reflexivity|].
  cbn [flat_map prune orb]. rewrite app_nil_r.
  destruct (memn (node_id e) l); [reflexivity|].
  do 2 f_equal. rewrite flat_map_flat_map.
  apply flat_map_ext_in. intros k Hk. rewrite Forall_forall in IH.
  now apply IH.
Qed.

Lemma prune_none (n : node) : prune (fun _ => false) n = [n].
Proof.
  induction n as [e ks IH|p] using node_induction; [|reflexivity].
  cbn [prune]. do 2 f_equal.
  rewrite (flat_map_ext_in _ (fun k => [k])).
  - rewrite flat_map_singleton. apply map_id.
  - intros k Hk. rewrite Forall_forall in IH. now apply IH.
Qed.

Lemma fold_removeF (l : list nat) :
  forall ks,
    fold_left (fun ks x => removeF x ks) l ks
    = flat_map (prune (fun e => memn (node_id e) l)) ks.
Proof.
  induction l as [|x l IH]; intros ks.
  - cbn [fold_left]. rewrite (flat_map_ext_in _ (fun k => [k])).
    + rewrite flat_map_singleton. symmetry. apply map_id.
    + intros k _. apply prune_none.
  - cbn [fold_left]. rewrite IH, removeF_as_prune, flat_map_flat_map.
    apply flat_map_ext_in. intros k _. apply prune_prune.
Qed.

Lemma fold_remove_node (l : list nat) (e : element) :
  forall ks,
    fold_left (fun d x => remove_node x d) l (Node e ks)
    = Node e (fold_left (fun ks x => removeF x ks) l ks).
Proof.
  induction l as [|x l IH]; intros ks; [reflexivity|].
  cbn [fold_left].
  change (remove_node x (Node e ks)) with (Node e (removeF x ks)).
  apply IH.
Qed.

Lemma fold_remove_node_where (l : list nat) (n : node) :
  fold_left (fun d x => remove_node x d) l n
  = remove_where (fun e => memn (node_id e) l) n.
Proof.
  destruct n as [e ks|p].
  - rewrite fold_remove_node, fold_removeF. reflexivity.
  - induction l; [reflexivity | assumption].
Qed.

Lemma prune_local (P : element -> bool) (n : node) :
  (forall e, In e (elements n) -> P e = false) -> prune P n = [n].
Proof.
  intros H. rewrite (prune_ext P (fun _ => false)) by exact H.
  apply prune_none.
Qed.

Lemma remove_where_below_form (f : nat) (l : list nat) (d : node)
  (e : element) (ks : list node) :
  NoDup (ids d) -> find f d = Some (Node e ks) -> incl l (forest_ids ks) ->
  remove_where (fun e => memn (node_id e) l) d
  = on_children f (flat_map (prune (fun e => memn (node_id e) l))) d.
Proof.
  intros Hn Hf Hl.
  apply (below_form (fun y => memn y l)
           (remove_where (fun e => memn (node_id e) l))
           (flat_map (prune (fun e => memn (node_id e) l))))
    with (e := e) (ks := ks); auto.
  - intros n H. destruct n as [e0 cs|p]; [|reflexivity].
    cbn [remove_where]. f_equal.
    rewrite (flat_map_ext_in _ (fun k => [k])).
    + rewrite flat_map_singleton. apply map_id.
    + intros k Hk. apply prune_local. intros x Hx. apply H.
      rewrite ids_Node. right. apply in_map. apply in_forest_elements.
      now exists k.
  - intros cs Hcs. rewrite <- flat_map_singleton.
    apply flat_map_ext_in. intros k Hk. specialize (Hcs k Hk).
    destruct k as [ek ccs|p]; [|reflexivity].
    cbn [root_targeted] in Hcs. cbn [prune remove_where]. now rewrite Hcs.
  - intros y Hy. apply Hl. now apply memn_In.
Qed.

(* ===================================================================== *)
(** * 16. What [clearErrors] does to the document                          *)
(* ===================================================================== *)

Lemma with_document_same (s : State) : with_document (document s) s = s.
Proof. now destruct s. Qed.

Lemma forEach_modify_document {A : Type} (g : A -> node -> node) (l : list A) :
  forall s,
    forEach (fun x => modify_document (g x)) l s
    = (Ok tt, with_document (fold_left (fun d x => g x d) l (document s)) s).
Proof.
  induction l as [|x l IH]; intros s.
  - cbn. now rewrite with_document_same.
  - cbn [forEach fold_left]. unfold bind, modify_document at 1.
    rewrite IH. reflexivity.
Qed.

Lemma clearErrors_document (f : nat) (s : State) :
  clearErrors f s = (Ok tt, with_document (clear_document f (document s)) s).
Proof.
  unfold clearErrors, clear_document.
  unfold bind at 1. unfold querySelectorAll at 1.
  replace (parse_selector ".govuk-form-group--error")
    with (Some sel_error_group) by reflexivity.
  unfold bind at 1. rewrite forEach_modify_document.
  unfold bind at 1. unfold querySelectorAll at 1.
  replace (parse_selector ".govuk-error-message")
    with (Some sel_message) by reflexivity.
  unfold bind at 1. rewrite forEach_modify_document.
  unfold bind at 1. unfold querySelector, bind, querySelectorAll, ret.
  replace (parse_selector ".govuk-error-summary")
    with (Some sel_summary) by reflexivity.
  cbn [document with_document]. fold (select f sel_error_group (document s)).
  set (d1 := fold_left _ (select f sel_error_group (document s)) (document s)).
  fold (select f sel_message d1).
  set (d2 := fold_left _ (select f sel_message d1) d1).
  fold (select f sel_summary d2).
  destruct (hd_error (select f sel_summary d2)); reflexivity.
Qed.

Lemma matches_class (c : string) (e : element) :
  matches [[SClass c]] e = mem c (classList e).
Proof.
  unfold matches. cbn. now rewrite andb_true_r, orb_false_r.
Qed.

Lemma select_found (f : nat) (sel : selector) (d : node) (e : element)
  (ks : list node) :
  find f d = Some (Node e ks) -> select f sel d = selectF sel ks.
Proof. intros H. unfold select, descendants. now rewrite H. Qed.

Lemma select_not_found (f : nat) (sel : selector) (d : node) :
  find f d = None -> select f sel d = [].
Proof. intros H. unfold select, descendants. now rewrite H. Qed.

Lemma selectF_incl (sel : selector) (ks : list node) :
  incl (selectF sel ks) (forest_ids ks).
Proof.
  intros y Hy. apply in_map_iff in Hy as (e & <- & He).
  apply filter_In in He as [He _]. now apply in_map.
Qed.

Lemma NoDup_ids_inj (l : list element) (a b : element) :
  NoDup (map node_id l) -> In a l -> In b l -> node_id a = node_id b -> a = b.
Proof.
  induction l as [|x l IH]; intros Hn Ha Hb Hab; [destruct Ha|].
  cbn [map] in Hn. apply NoDup_cons_iff in Hn as [Hx Hn].
  destruct Ha as [<- | Ha], Hb as [<- | Hb]; auto.
  - exfalso. apply Hx. rewrite Hab. now apply in_map.
  - exfalso. apply Hx. rewrite <- Hab. now apply in_map.
Qed.

(** Under distinct identifiers, "its identifier was selected" is the same
    as "it matches". *)
Lemma memn_selectF (sel : selector) (ks : list node) (e : element) :
  NoDup (forest_ids ks) -> In e (forest_elements ks) ->
  memn (node_id e) (selectF sel ks) = matches sel e.
Proof.
  intros Hn He. destruct (matches sel e) eqn:Em.
  - apply memn_In. apply in_map. apply filter_In. now split.
  - destruct (memn (node_id e) (selectF sel ks)) eqn:E; [|reflexivity].
    apply memn_In in E. apply in_map_iff in E as (e' & Hid & He').
    apply filter_In in He' as [He' Hm].
    assert (e' = e) by now apply (NoDup_ids_inj (forest_elements ks)).
    subst e'. congruence.
Qed.

Lemma filter_all {A : Type} (p : A -> bool) (l : list A) :
  (forall x, In x l -> p x = true) -> filter p l = l.
Proof.
  induction l as [|x l IH]; intros H; [reflexivity|].
  cbn [filter]. rewrite (H x (or_introl eq_refl)). f_equal.
  apply IH. intros y Hy. apply H. now right.
Qed.

Lemma mem_false_iff (c : string) (l : list string) :
  mem c l = false <-> ~ In c l.
Proof.
  induction l as [|x l IH]; cbn [mem In].
  - split; [intros _ [] | reflexivity].
  - rewrite orb_false_iff, IH. split.
    + intros [Hx Hl] [-> | Hin]; [|contradiction].
      now rewrite String.eqb_refl in Hx.
    + intros H. split.
      * apply String.eqb_neq. intros ->. apply H. now left.
      * intros Hin. apply H. now right.
Qed.

Lemma mem_true_iff (c : string) (l : list string) :
  mem c l = true <-> In c l.
Proof.
  destruct (mem c l) eqn:E.
  - split; [intros _ | reflexivity].
    destruct (in_dec string_dec c l) as [H|H]; [exact H|].
    apply mem_false_iff in H. congruence.
  - apply mem_false_iff in E. split; [discriminate | contradiction].
Qed.

Lemma with_classList_same (e : element) : with_classList e (classList e) = e.
Proof. now destruct e. Qed.

Lemma classList_remove_absent (c : string) (e : element) :
  mem c (classList e) = false -> classList_remove c e = e.
Proof.
  intros H. unfold classList_remove. rewrite filter_all.
  - apply with_classList_same.
  - intros x Hx. apply negb_true_iff, String.eqb_neq. intros ->.
    apply mem_false_iff in H. contradiction.
Qed.

Lemma mem_classList_remove (c c' : string) (e : element) :
  mem c (classList (classList_remove c' e))
  = negb (String.eqb c c') && mem c (classList e).
Proof.
  unfold classList_remove. cbn [classList with_classList].
  induction (classList e) as [|x l IH]; [now rewrite andb_false_r|].
  cbn [filter mem].
  destruct (String.eqb_spec x c') as [->|Hx]; cbn [negb].
  - rewrite IH. rewrite (String.eqb_sym c' c).
    destruct (String.eqb c c'); reflexivity.
  - cbn [mem]. rewrite IH.
    destruct (String.eqb_spec x c) as [->|Hxc]; [|reflexivity].
    cbn [orb]. apply String.eqb_neq in Hx. rewrite Hx. reflexivity.
Qed.

Lemma unmark_group_id (e : element) : node_id (unmark_group e) = node_id e.
Proof. reflexivity. Qed.

Lemma unmark_group_idem (e : element) :
  unmark_group (unmark_group e) = unmark_group e.
Proof.
  unfold unmark_group. apply classList_remove_absent.
  rewrite mem_classList_remove. now rewrite String.eqb_refl.
Qed.

Lemma on_children_same (f : nat) (n : node) :
  on_children f (fun ks => ks) n = n.
Proof.
  induction n as [e ks IH|p] using node_induction; [|reflexivity].
  cbn [on_children]. destruct (Nat.eqb (node_id e) f); [reflexivity|].
  f_equal. apply map_id_in. intros k Hk. rewrite Forall_forall in IH.
  now apply IH.
Qed.

Lemma fold_update_below_form (f : nat) (h : element -> element)
  (l : list nat) :
  (forall e, node_id (h e) = node_id e) ->
  forall d e ks,
    NoDup (ids d) -> find f d = Some (Node e ks) -> incl l (forest_ids ks) ->
    fold_left (fun d x => update x h d) l d
    = on_children f (fun ks => fold_left (fun ks x => updateF x h ks) l ks) d.
Proof.
  intros Hid. induction l as [|x l IH]; intros d e ks Hn Hf Hl.
  - cbn [fold_left]. symmetry. apply on_children_same.
  - cbn [fold_left].
    rewrite (update_below_form f x h d e ks Hn Hf) by (apply Hl; now left).
    rewrite (IH _ e (updateF x h ks)).
    + apply on_children_compose.
    + rewrite <- (update_below_form f x h d e ks Hn Hf)
        by (apply Hl; now left).
      now rewrite ids_update.
    + rewrite find_on_children, Hf. reflexivity.
    + rewrite forest_ids_updateF by exact Hid.
      intros y Hy. apply Hl. now right.
Qed.

Lemma NoDup_fold_update (h : element -> element) (l : list nat) (d : node) :
  (forall e, node_id (h e) = node_id e) ->
  ids (fold_left (fun d x => update x h d) l d) = ids d.
Proof.
  intros Hid. revert d. induction l as [|x l IH]; intros d; [reflexivity|].
  cbn [fold_left]. rewrite IH. now apply ids_update.
Qed.

Lemma NoDup_fold_remove (l : list nat) (d : node) :
  NoDup (ids d) ->
  NoDup (ids (fold_left (fun d x => remove_node x d) l d))
  /\ incl (ids (fold_left (fun d x => remove_node x d) l d)) (ids d).
Proof.
  revert d. induction l as [|x l IH]; intros d Hn.
  - split; [exact Hn | apply incl_refl].
  - cbn [fold_left].
    destruct (IH (remove_node x d) (NoDup_remove_node x d Hn)) as [H1 H2].
    split; [exact H1|].
    eapply incl_tran; [exact H2 | apply ids_remove_node_incl].
Qed.

Lemma find_NoDup (f : nat) (d n : node) :
  NoDup (ids d) -> find f d = Some n -> NoDup (ids n).
Proof.
  revert n. induction d as [e cs IH|p] using node_induction;
    intros n Hn Hf; [|discriminate].
  cbn [find] in Hf. destruct (Nat.eqb (node_id e) f).
  - now injection Hf as <-.
  - apply first_some_in in Hf as (k & Hk & Hfk).
    rewrite Forall_forall in IH. apply (IH k Hk); [|exact Hfk].
    rewrite ids_Node in Hn. apply NoDup_cons_iff in Hn as [_ Hn].
    now apply (NoDup_forest_child cs).
Qed.

(** The three stages of [clearErrors], on the children of the form. *)
Lemma clear_stage_unmark (f : nat) (d : node) (e : element) (ks : list node) :
  NoDup (ids d) -> find f d = Some (Node e ks) ->
  fold_left (fun d g => update g unmark_group d) (select f sel_error_group d) d
  = on_children f (map (update_where (fun _ => true) unmark_group)) d.
Proof.
  intros Hn Hf. rewrite (select_found f _ d e ks Hf).
  rewrite (fold_update_below_form f unmark_group _ unmark_group_id d e ks Hn Hf)
    by apply selectF_incl.
  apply on_children_ext; [exact Hn|].
  intros e' ks' Hf'. rewrite Hf in Hf'. injection Hf' as <- <-.
  rewrite (fold_updateF unmark_group _ unmark_group_id unmark_group_idem).
  apply map_ext_in. intros k Hk. apply update_where_ext. intros x Hx.
  destruct (memn (node_id x) (selectF sel_error_group ks)) eqn:E;
    [reflexivity|].
  symmetry. apply classList_remove_absent.
  destruct (mem "govuk-form-group--error" (classList x)) eqn:Em;
    [|reflexivity].
  assert (memn (node_id x) (selectF sel_error_group ks) = true);
    [|congruence].
  apply memn_In. apply in_map. apply filter_In. split.
  - apply in_forest_elements. now exists k.
  - unfold sel_error_group. now rewrite matches_class.
Qed.

Lemma clear_stage_prune (f : nat) (d : node) (e : element) (ks : list node) :
  NoDup (ids d) -> find f d = Some (Node e ks) ->
  fold_left (fun d m => remove_node m d) (select f sel_message d) d
  = on_children f (flat_map (prune is_message)) d.
Proof.
  intros Hn Hf. rewrite (select_found f _ d e ks Hf).
  rewrite fold_remove_node_where.
  rewrite (remove_where_below_form f _ d e ks Hn Hf) by apply selectF_incl.
  apply on_children_ext; [exact Hn|].
  intros e' ks' Hf'. rewrite Hf in Hf'. injection Hf' as <- <-.
  apply flat_map_prune_ext. intros x Hx.
  rewrite memn_selectF; [apply matches_class | | exact Hx].
  pose proof (find_NoDup f d _ Hn Hf) as Hn'.
  rewrite ids_Node in Hn'. now apply NoDup_cons_iff in Hn' as [_ Hn'].
Qed.

Lemma hd_error_In {A : Type} (l : list A) (x : A) :
  hd_error l = Some x -> In x l.
Proof. destruct l; [discriminate | intros [= <-]; now left]. Qed.

Lemma clear_stage_summary (f : nat) (d : node) (e : element)
  (ks : list node) :
  NoDup (ids d) -> find f d = Some (Node e ks) ->
  match hd_error (select f sel_summary d) with
  | Some x => remove_node x d
  | None => d
  end = on_children f drop_first_summary d.
Proof.
  intros Hn Hf. rewrite (select_found f _ d e ks Hf).
  destruct (hd_error (selectF sel_summary ks)) as [x|] eqn:E.
  - rewrite (remove_below_form f x d e ks Hn Hf)
      by (apply (selectF_incl sel_summary), hd_error_In, E).
    apply on_children_ext; [exact Hn|].
    intros e' ks' Hf'. rewrite Hf in Hf'. injection Hf' as <- <-.
    unfold drop_first_summary. now rewrite E.
  - rewrite <- (on_children_same f d) at 1.
    apply on_children_ext; [exact Hn|].
    intros e' ks' Hf'. rewrite Hf in Hf'. injection Hf' as <- <-.
    unfold drop_first_summary. now rewrite E.
Qed.

(** [clearErrors] rewrites the children of the form, and nothing else. *)
Lemma clear_document_on_children (f : nat) (d : node) (e : element)
  (ks : list node) :
  NoDup (ids d) -> find f d = Some (Node e ks) ->
  clear_document f d = on_children f clearF d.
Proof.
  intros Hn Hf. unfold clear_document.
  rewrite (clear_stage_unmark f d e ks Hn Hf).
  set (T1 := map (update_where (fun _ => true) unmark_group)).
  assert (Hn1 : NoDup (ids (on_children f T1 d))).
  { unfold T1. rewrite <- (clear_stage_unmark f d e ks Hn Hf).
    rewrite NoDup_fold_update; [exact Hn | apply unmark_group_id]. }
  assert (Hf1 : find f (on_children f T1 d) = Some (Node e (T1 ks)))
    by now rewrite find_on_children, Hf.
  rewrite (clear_stage_prune f _ e (T1 ks) Hn1 Hf1).
  rewrite on_children_compose.
  set (T2 := fun ks => flat_map (prune is_message) (T1 ks)).
  assert (Hn2 : NoDup (ids (on_children f T2 d))).
  { unfold T2. rewrite <- on_children_compose.
    rewrite <- (clear_stage_prune f _ e (T1 ks) Hn1 Hf1).
    now apply NoDup_fold_remove. }
  assert (Hf2 : find f (on_children f T2 d) = Some (Node e (T2 ks)))
    by now rewrite find_on_children, Hf.
  rewrite (clear_stage_summary f _ e (T2 ks) Hn2 Hf2).
  rewrite on_children_compose. reflexivity.
Qed.

Lemma clear_document_not_found (f : nat) (d : node) :
  find f d = None -> clear_document f d = d.
Proof.
  intros Hf. unfold clear_document.
  rewrite (select_not_found f _ d Hf). cbn [fold_left].
  rewrite (select_not_found f _ d Hf). cbn [fold_left].
  now rewrite (select_not_found f _ d Hf).
Qed.

Lemma clear_document_ids (f : nat) (d : node) :
  NoDup (ids d) ->
  NoDup (ids (clear_document f d)) /\ incl (ids (clear_document f d)) (ids d).
Proof.
  intros Hn. unfold clear_document.
  set (d1 := fold_left _ (select f sel_error_group d) d).
  assert (H1 : ids d1 = ids d) by (apply NoDup_fold_update, unmark_group_id).
  set (d2 := fold_left _ (select f sel_message d1) d1).
  destruct (NoDup_fold_remove (select f sel_message d1) d1) as [Hn2 Hi2];
    [now rewrite H1|].
  fold d2 in Hn2, Hi2. rewrite H1 in Hi2.
  destruct (hd_error (select f sel_summary d2)) as [x|].
  - split; [now apply NoDup_remove_node|].
    eapply incl_tran; [apply ids_remove_node_incl | exact Hi2].
  - now split.
Qed.

Lemma find_clear_document (f : nat) (d : node) (e : element)
  (ks : list node) :
  NoDup (ids d) -> find f d = Some (Node e ks) ->
  find f (clear_document f d) = Some (Node e (clearF ks)).
Proof.
  intros Hn Hf. rewrite (clear_document_on_children f d e ks Hn Hf).
  now rewrite find_on_children, Hf.
Qed.

(* ===================================================================== *)
(** * 17. What [showErrors] does to the document                           *)
(* ===================================================================== *)

Lemma with_rendering_same (s : State) :
  with_rendering (document s, next_node s) s = s.
Proof. now destruct s. Qed.

Lemma showError_document (err : ValidationError) (s : State) :
  showError err s
  = (Ok tt,
     with_rendering (show_error_document err (document s, next_node s)) s).
Proof.
  unfold showError, show_error_document.
  unfold bind at 1. unfold closest.
  replace (parse_selector ".govuk-form-group") with (Some sel_group)
    by reflexivity.
  cbn [fst snd]. fold (closest_in (element_ref err) sel_group (document s)).
  destruct (closest_in (element_ref err) sel_group (document s)) as [g|].
  2:{ cbn. now rewrite with_rendering_same. }
  unfold bind at 1. unfold modify_document at 1.
  unfold bind at 1. unfold createElement at 1.
  unfold bind at 1. unfold querySelector, bind, querySelectorAll, ret.
  replace (parse_selector ".govuk-input, .govuk-fieldset")
    with (Some sel_field) by reflexivity.
  unfold mark_group, select. cbn [document with_document with_next_node].
  match goal with
  | |- context [hd_error ?l] => destruct (hd_error l)
  end; reflexivity.
Qed.

Lemma forEach_showError (errors : list ValidationError) :
  forall s,
    forEach showError errors s
    = (Ok tt,
       with_rendering
         (show_errors_document errors (document s, next_node s)) s).
Proof.
  induction errors as [|err errors IH]; intros s.
  - cbn. now rewrite with_rendering_same.
  - cbn [forEach]. unfold bind. rewrite showError_document, IH.
    unfold show_errors_document. cbn [fold_left].
    destruct (show_error_document err (document s, next_node s)) as [d n].
    reflexivity.
Qed.

Lemma showErrors_document (this : Button) (f : nat)
  (errors : list ValidationError) (s : State) :
  showErrors this f errors s
  = (Ok tt,
     with_rendering
       (render_document (truthy (get (config this) "showErrorSummary")) f
          errors (document s, next_node s)) s).
Proof.
  unfold showErrors, render_document. unfold bind at 1.
  rewrite forEach_showError.
  destruct (show_errors_document errors (document s, next_node s)) as [d n].
  destruct (truthy _ && _); reflexivity.
Qed.

(** The document and the supply of identifiers that [handleFormSubmit]
    leaves, given what the pass recorded. *)
Lemma handleFormSubmit_document (this : Button) (f : nat) (s : State)
  (isValid : bool) (errors : list ValidationError) :
  form this = Some f ->
  validate_fields this f
    (entries (js_or (get (config this) "validationSelectors") (JObj [])))
    true [] (snd (clearErrors f s))
  = (Ok (isValid, errors), snd (clearErrors f s)) ->
  let cleared := (clear_document f (document s), next_node s) in
  let rendered :=
    match errors with
    | [] => cleared
    | _ :: _ =>
        render_document (truthy (get (config this) "showErrorSummary")) f
          errors cleared
    end in
  fst (handleFormSubmit this s) = Ok tt
  /\ document (snd (handleFormSubmit this s)) = fst rendered
  /\ next_node (snd (handleFormSubmit this s)) = snd rendered.
Proof.
  intros Hf Hpass cleared rendered.
  pose proof (validate_fields_isValid this f _ _ true [] _ _ _ eq_refl Hpass)
    as Hv.
  rewrite (handleFormSubmit_stages this f s Hf).
  rewrite clearErrors_document in *. cbn [snd] in Hpass. rewrite Hpass.
  subst isValid. unfold rendered, cleared.
  destruct errors as [|first others]; cbn [negb]; [now repeat split|].
  unfold bind, preventDefault. rewrite showErrors_document.
  cbn [document next_node with_defaultPrevented with_document].
  destruct (render_document _ f (first :: others) _) as [d n].
  destruct (truthy (get (config this) "focusOnError")); now repeat split.
Qed.

Lemma wf_state_spec (s : State) :
  wf_state s = true ->
  NoDup (ids (document s))
  /\ forall y, In y (ids (document s)) -> (y < next_node s)%nat.
Proof.
  unfold wf_state. rewrite andb_true_iff, unique_NoDup, forallb_forall.
  intros [Hn Hb]. split; [exact Hn|].
  intros y Hy. now apply Nat.ltb_lt, Hb.
Qed.

Lemma find_update (f g : nat) (h : element -> element) (d : node) :
  (forall e, node_id (h e) = node_id e) ->
  find f (update g h d) = option_map (update g h) (find f d).
Proof.
  intros Hid. induction d as [e ks IH|p] using node_induction; [|reflexivity].
  cbn [update find].
  replace (node_id (if Nat.eqb (node_id e) g then h e else e))
    with (node_id e) by (destruct (Nat.eqb (node_id e) g); auto).
  destruct (Nat.eqb (node_id e) f); [reflexivity|].
  induction ks as [|k ks IHks]; [reflexivity|].
  inversion IH as [|? ? Hk Hks]; subst. cbn [map first_some].
  rewrite Hk. destruct (find f k); [reflexivity | now apply IHks].
Qed.

Lemma first_some_exists {A B : Type} (g : A -> option B) (l : list A)
  (x : A) :
  In x l -> g x <> None -> first_some g l <> None.
Proof.
  induction l as [|y l IH]; intros Hin Hx; [destruct Hin|].
  cbn [first_some]. destruct (g y) eqn:E; [discriminate|].
  destruct Hin as [-> | Hin]; [contradiction | now apply IH].
Qed.

Lemma find_insert_before (f r : nat) (new : node) (d : node) :
  find f d <> None -> find f (insert_before r new d) <> None.
Proof.
  induction d as [e ks IH|p] using node_induction; [|auto].
  change (insert_before r new (Node e ks)) with (Node e (insertF r new ks)).
  cbn [find]. destruct (Nat.eqb (node_id e) f); [discriminate|].
  intros H. destruct (first_some (find f) ks) as [m|] eqn:E; [|contradiction].
  apply first_some_in in E as (k & Hk & Hfk).
  destruct (has_id r k) eqn:Er.
  - apply (first_some_exists _ _ k); [|congruence].
    apply in_flat_map. exists k. split; [exact Hk|]. rewrite Er.
    right. now left.
  - apply (first_some_exists _ _ (insert_before r new k)).
    + apply in_flat_map. exists k. split; [exact Hk|]. rewrite Er. now left.
    + rewrite Forall_forall in IH. apply (IH k Hk). congruence.
Qed.

Lemma elements_insert_before (r : nat) (new : node) (n : node) :
  forall y, In y (elements (insert_before r new n)) ->
            In y (elements n) \/ In y (elements new).
Proof.
  destruct n as [e ks|p]; [|intros y []].
  change (insert_before r new (Node e ks)) with (Node e (insertF r new ks)).
  cbn [elements]. intros y [<- | Hy]; [left; now left|].
  destruct (elements_insertF r new ks y Hy) as [H | H]; auto.
  left. now right.
Qed.

Lemma mem_classList_add (c c' : string) (e : element) :
  mem c (classList (classList_add c' e))
  = String.eqb c c' || mem c (classList e).
Proof.
  unfold classList_add. destruct (mem c' (classList e)) eqn:E.
  - destruct (String.eqb_spec c c') as [->|]; [now rewrite E | reflexivity].
  - cbn [classList with_classList].
    induction (classList e) as [|x l IH].
    + cbn. rewrite (String.eqb_sym c' c). now rewrite !orb_false_r.
    + cbn [app mem] in *. apply orb_false_iff in E as [_ E].
      rewrite (IH E). destruct (String.eqb x c), (String.eqb c c'); reflexivity.
Qed.

Lemma is_summary_mark_group (e : element) :
  is_summary (mark_group e) = is_summary e.
Proof. unfold is_summary, mark_group. now rewrite mem_classList_add. Qed.

Lemma mark_group_id (e : element) : node_id (mark_group e) = node_id e.
Proof. unfold mark_group, classList_add. now destruct (mem _ _). Qed.

Lemma no_new_summary_show_error (n0 f : nat) (err : ValidationError)
  (dn : node * nat) :
  no_new_summary n0 f dn -> no_new_summary n0 f (show_error_document err dn).
Proof.
  intros (Hn & Hf & He). unfold show_error_document.
  destruct (closest_in _ _ _) as [g|]; [|now repeat split].
  assert (Hu : no_new_summary n0 f (update g mark_group (fst dn), S (snd dn))).
  { repeat split; cbn [fst snd].
    - lia.
    - rewrite find_update by apply mark_group_id.
      destruct (find f (fst dn)); [discriminate | contradiction].
    - intros e Hin Hid. rewrite elements_update in Hin.
      apply in_map_iff in Hin as (e0 & <- & Hin).
      destruct (Nat.eqb (node_id e0) g).
      + rewrite is_summary_mark_group. apply He; [exact Hin|].
        now rewrite mark_group_id in Hid.
      + now apply He. }
  destruct (hd_error _) as [r|]; [|exact Hu].
  destruct Hu as (Hn' & Hf' & He'). cbn [fst snd] in *.
  repeat split; cbn [fst snd]; [exact Hn' | now apply find_insert_before|].
  intros e Hin Hid.
  apply elements_insert_before in Hin as [Hin | Hin]; [now apply He'|].
  cbn in Hin. destruct Hin as [<- | []]. reflexivity.
Qed.

Lemma no_new_summary_show_errors (n0 f : nat)
  (errors : list ValidationError) :
  forall dn, no_new_summary n0 f dn ->
             no_new_summary n0 f (show_errors_document errors dn).
Proof.
  unfold show_errors_document.
  induction errors as [|err errors IH]; intros dn H; [exact H|].
  cbn [fold_left]. apply IH. now apply no_new_summary_show_error.
Qed.

Lemma no_new_summary_cleared (f : nat) (s : State) :
  wf_state s = true -> find f (document s) <> None ->
  no_new_summary (next_node s) f (clear_document f (document s), next_node s).
Proof.
  intros Hwf Hf. destruct (wf_state_spec s Hwf) as [Hn Hb].
  destruct (find f (document s)) as [m|] eqn:E; [|contradiction].
  destruct (find_some f _ m E) as (e & ks & -> & _).
  repeat split; cbn [fst snd].
  - lia.
  - now rewrite (find_clear_document f _ e ks Hn E).
  - intros x Hx Hid. exfalso.
    assert (node_id x < next_node s)%nat; [|lia].
    apply Hb. apply (clear_document_ids f _ Hn). now apply in_map.
Qed.

(* ===================================================================== *)
(** * 18. The error summary                                                *)
(* ===================================================================== *)

(** C4.  In a well-formed page whose form is in the document, with
    [config.showErrorSummary] a boolean as the config type has it: after
    the pass of a submit, the summary element is created and inserted as
    the first child of the form exactly when [showErrorSummary] is [true]
    and the pass recorded at least one error; in every other case no
    summary is created anywhere in the document. *)
Theorem error_summary_iff (this : Button) (f : nat) (s : State) (b : bool)
  (isValid : bool) (errors : list ValidationError) :
  form this = Some f ->
  wf_state s = true ->
  find f (document s) <> None ->
  get (config this) "showErrorSummary" = JBool b ->
  validate_fields this f
    (entries (js_or (get (config this) "validationSelectors") (JObj [])))
    true [] (snd (clearErrors f s))
  = (Ok (isValid, errors), snd (clearErrors f s)) ->
  let s' := snd (handleFormSubmit this s) in
  (summary_inserted f s s' <-> (b = true /\ errors <> []))
  /\ (~ (b = true /\ errors <> []) -> ~ summary_created s s').
Proof.
  intros Hform Hwf Hf Hb Hpass s'.
  destruct (handleFormSubmit_document this f s isValid errors Hform Hpass)
    as (_ & Hdoc & _).
  fold s' in Hdoc. rewrite Hb in Hdoc. cbn [truthy] in Hdoc.
  pose proof (no_new_summary_cleared f s Hwf Hf) as Hc.
  pose proof (no_new_summary_show_errors (next_node s) f errors _ Hc) as Hr.
  assert (Hno : ~ (b = true /\ errors <> []) -> ~ summary_created s s').
  { intros Hcond (e & Hin & Hid & Hs). rewrite Hdoc in Hin.
    destruct errors as [|first others].
    - destruct Hc as (_ & _ & Hc). rewrite (Hc e Hin Hid) in Hs. discriminate.
    - unfold render_document in Hin. destruct b.
      + exfalso. apply Hcond. split; [reflexivity | discriminate].
      + cbn [andb] in Hin. destruct Hr as (_ & _ & Hr).
        rewrite (Hr e Hin Hid) in Hs. discriminate. }
  split; [|exact Hno]. split.
  - intros (ef & e & ks & rest & Hfind & Hid & Hs).
    destruct b; [destruct errors; [|split; [reflexivity | discriminate]]|].
    + exfalso. apply Hno; [intros [_ H]; now apply H|].
      exists e. repeat split; auto.
      destruct (find_some f _ _ Hfind) as (_ & _ & _ & _ & _ & Hincl).
      apply Hincl. cbn. right. now left.
    + exfalso. apply Hno; [intros [H _]; discriminate|].
      exists e. repeat split; auto.
      destruct (find_some f _ _ Hfind) as (_ & _ & _ & _ & _ & Hincl).
      apply Hincl. cbn. right. now left.
  - intros [-> Hne]. destruct errors as [|first others]; [contradiction|].
    unfold render_document in Hdoc. cbn [andb List.length Nat.ltb Nat.leb] in Hdoc.
    destruct Hr as (Hn & Hfr & _).
    destruct (show_errors_document (first :: others) _) as [d' n'].
    cbn [fst snd] in *.
    destruct (find f d') as [m|] eqn:E; [|contradiction].
    destruct (find_some f _ m E) as (ef & ks & -> & _).
    exists ef,
      (setAttribute "data-module" "govuk-error-summary"
         (with_classList (new_element n' "div") ["govuk-error-summary"])),
      [Markup (summary_markup (first :: others))], ks.
    repeat split; [|exact Hn].
    rewrite Hdoc, prepend_child_on_children, find_on_children, E.
    reflexivity.
Qed.

Lemma error_summary_iff_witness :
  summary_inserted 2 (state_of page_form)
    (snd (handleFormSubmit (button_with (sample_config true true))
            (state_of page_form)))
  /\ ~ summary_created (state_of page_form)
         (snd (handleFormSubmit (button_with (sample_config true false))
                 (state_of page_form))).
Proof.
  split.
  - apply (error_summary_iff (button_with (sample_config true true)) 2
             (state_of page_form) true false
             [ {| field := "email"; element_ref := 4;
                  message := JStr "Enter an email" |};
               {| field := "terms"; element_ref := 9;
                  message := JStr "This field is required" |} ]
             eq_refl eq_refl ltac:(discriminate) eq_refl eq_refl).
    split; [reflexivity | discriminate].
  - apply (error_summary_iff (button_with (sample_config true false)) 2
             (state_of page_form) false false
             [ {| field := "email"; element_ref := 4;
                  message := JStr "Enter an email" |};
               {| field := "terms"; element_ref := 9;
                  message := JStr "This field is required" |} ]
             eq_refl eq_refl ltac:(discriminate) eq_refl eq_refl).
    intros [H _]. discriminate H.
Defined.

(* ===================================================================== *)
(** * 19. Merging configs                                                  *)
(* ===================================================================== *)

Lemma nodup_keys_NoDup (l : list string) : nodup_keys l = true <-> NoDup l.
Proof.
  induction l as [|x l IH]; cbn [nodup_keys].
  - split; [constructor | reflexivity].
  - rewrite andb_true_iff, negb_true_iff, mem_false_iff, IH. split.
    + intros [H1 H2]. now constructor.
    + intros H. inversion H; subst. now split.
Qed.

Lemma lookup_none (k : string) (o : obj) :
  lookup k o = None <-> ~ In k (keys o).
Proof.
  induction o as [|[j y] o IH]; cbn [lookup keys map fst In].
  - split; [intros _ [] | reflexivity].
  - destruct (String.eqb_spec j k) as [->|Hj].
    + split; [discriminate | intros H; exfalso; apply H; now left].
    + rewrite IH. unfold keys. split.
      * intros H [E | Hin]; [contradiction | now apply H].
      * intros H Hin. apply H. now right.
Qed.

Lemma lookup_some_in (k : string) (v : jsvalue) (o : obj) :
  lookup k o = Some v -> In (k, v) o.
Proof.
  induction o as [|[j y] o IH]; cbn [lookup]; [discriminate|].
  destruct (String.eqb_spec j k) as [->|Hj].
  - intros [= ->]. now left.
  - intros H. right. now apply IH.
Qed.

Lemma lookup_in (k : string) (v : jsvalue) (o : obj) :
  NoDup (keys o) -> In (k, v) o -> lookup k o = Some v.
Proof.
  induction o as [|[j y] o IH]; intros Hn Hin; [destruct Hin|].
  cbn [keys map fst] in Hn. apply NoDup_cons_iff in Hn as [Hj Hn].
  cbn [lookup]. destruct Hin as [[= -> ->] | Hin].
  - now rewrite String.eqb_refl.
  - destruct (String.eqb_spec j k) as [->|Hne]; [|now apply IH].
    exfalso. apply Hj. change (In k (map fst o)).
    apply in_map_iff. now exists (k, v).
Qed.

Lemma set_absent (k : string) (v : jsvalue) (o : obj) :
  lookup k o = None -> set k v o = o ++ [(k, v)].
Proof.
  induction o as [|[j y] o IH]; cbn [lookup set app]; [reflexivity|].
  destruct (String.eqb j k); [discriminate|].
  intros H. now rewrite IH.
Qed.

Lemma keys_set_present (k : string) (v x : jsvalue) (o : obj) :
  lookup k o = Some x -> keys (set k v o) = keys o.
Proof.
  induction o as [|[j y] o IH]; cbn [lookup set]; [discriminate|].
  destruct (String.eqb j k) eqn:E; [reflexivity|].
  intros H. cbn [keys map fst]. f_equal. now apply IH.
Qed.

Lemma map_set_present (F F' : string * jsvalue -> string * jsvalue)
  (k : string) (x l : jsvalue) (o : obj) :
  NoDup (keys o) -> lookup k o = Some l ->
  F' (k, x) = F (k, l) ->
  (forall kv, fst kv <> k -> F' kv = F kv) ->
  map F' (set k x o) = map F o.
Proof.
  intros Hn Hl Hk Hother.
  induction o as [|[j y] o IH]; [discriminate|].
  cbn [keys map fst] in Hn. apply NoDup_cons_iff in Hn as [Hj Hn].
  cbn [lookup set] in *. destruct (String.eqb_spec j k) as [->|Hne].
  - injection Hl as ->. cbn [map]. rewrite Hk. f_equal.
    apply map_ext_in. intros kv Hin. apply Hother. intros E.
    apply Hj. change (In k (map fst o)). rewrite <- E. now apply in_map.
  - cbn [map]. rewrite (Hother (j, y)) by exact Hne. f_equal.
    now apply IH.
Qed.

Lemma lookup_cons_other (k j : string) (v : jsvalue) (o : obj) :
  j <> k -> lookup k ((j, v) :: o) = lookup k o.
Proof. intros H. cbn [lookup]. apply String.eqb_neq in H. now rewrite H. Qed.

Lemma merge_props_nil_r (a : obj) : merge_props a [] = a.
Proof.
  unfold merge_props. cbn [filter lookup]. rewrite app_nil_r.
  apply map_id_in. now intros [k v] _.
Qed.

(** The assignments of one object, one after the other, build the
    key-wise merge. *)
Lemma fold_merge_entry (b : obj) :
  forall a, NoDup (keys a) -> NoDup (keys b) ->
            fold_left merge_entry b a = merge_props a b.
Proof.
  induction b as [|[k v] b IH]; intros a Ha Hb.
  - cbn [fold_left]. now rewrite merge_props_nil_r.
  - cbn [keys map fst] in Hb. apply NoDup_cons_iff in Hb as [Hk Hb].
    assert (Hkb : lookup k b = None) by now apply lookup_none.
    cbn [fold_left]. unfold merge_entry at 2. cbn [fst snd].
    destruct (lookup k a) as [l|] eqn:El.
    + rewrite IH; [|now rewrite (keys_set_present k _ l a El) | exact Hb].
      unfold merge_props. rewrite (keys_set_present k _ l a El).
      fold (keys a). cbn [filter fst].
      assert (Hin : mem k (keys a) = true).
      { apply mem_true_iff. destruct (in_dec string_dec k (keys a)); auto.
        apply lookup_none in n. congruence. }
      rewrite Hin. cbn [negb]. f_equal.
      apply (map_set_present _ _ k _ l a Ha El).
      * cbn [fst snd]. rewrite Hkb. cbn [lookup].
        now rewrite String.eqb_refl.
      * intros kv Hne. now rewrite lookup_cons_other by congruence.
    + rewrite (set_absent k v a El).
      rewrite IH; [| |exact Hb].
      2:{ unfold keys. rewrite map_app. apply NoDup_app; auto.
          - constructor; [intros [] | constructor].
          - intros x Hx [<- | []]. apply lookup_none in El. contradiction. }
      unfold merge_props. rewrite !map_app. cbn [map fst snd filter].
      rewrite Hkb.
      assert (Hin : mem k (map fst a) = false).
      { apply mem_false_iff. now apply lookup_none in El. }
      rewrite Hin. cbn [negb]. rewrite <- app_assoc. cbn [app]. f_equal.
      * apply map_ext_in. intros [j y] Hj. cbn [fst snd].
        rewrite lookup_cons_other; [reflexivity|].
        intros <-. apply mem_false_iff in Hin. apply Hin.
        change (In k (map fst a)). apply in_map_iff. now exists (k, y).
      * f_equal. apply filter_ext_in. intros [j y] Hj. cbn [fst].
        f_equal. clear -Hk Hj.
        assert (Hne : j <> k).
        { intros ->. apply Hk. change (In k (map fst b)).
          apply in_map_iff. now exists (k, y). }
        induction (map fst a) as [|x l IHl]; cbn [app mem].
        -- apply String.eqb_neq in Hne. rewrite String.eqb_sym in Hne.
           now rewrite Hne.
        -- now rewrite IHl.
Qed.

Lemma lookup_map_values (F : string -> jsvalue -> jsvalue) (k : string)
  (o : obj) :
  lookup k (map (fun kv => (fst kv, F (fst kv) (snd kv))) o)
  = option_map (F k) (lookup k o).
Proof.
  induction o as [|[j y] o IH]; [reflexivity|].
  cbn [map lookup fst snd]. destruct (String.eqb_spec j k) as [->|];
    [reflexivity | exact IH].
Qed.

Lemma lookup_app (k : string) (a b : obj) :
  lookup k (a ++ b)
  = match lookup k a with Some v => Some v | None => lookup k b end.
Proof.
  induction a as [|[j y] a IH]; [reflexivity|].
  cbn [app lookup]. destruct (String.eqb j k); [reflexivity | exact IH].
Qed.

Lemma lookup_filter_keys (P : string -> bool) (k : string) (o : obj) :
  lookup k (filter (fun kv => P (fst kv)) o)
  = if P k then lookup k o else None.
Proof.
  induction o as [|[j y] o IH]; [now destruct (P k)|].
  cbn [filter fst]. destruct (P j) eqn:Ej; cbn [lookup].
  - destruct (String.eqb_spec j k) as [->|]; [now rewrite Ej | exact IH].
  - destruct (String.eqb_spec j k) as [->|]; [|exact IH].
    rewrite IH. now rewrite Ej.
Qed.

(** Key by key, the merge prefers the later object. *)
Lemma lookup_merge_props (k : string) (a b : obj) :
  lookup k (merge_props a b) = prefer (lookup k a) (lookup k b).
Proof.
  unfold merge_props. rewrite lookup_app.
  rewrite (lookup_map_values
             (fun key va => match lookup key b with
                            | Some vb => merge_value va vb
                            | None => va
                            end)).
  destruct (lookup k a) as [va|] eqn:Ea; cbn [option_map prefer].
  - destruct (lookup k b); reflexivity.
  - rewrite (lookup_filter_keys (fun key => negb (mem key (map fst a)))).
    assert (mem k (map fst a) = false) as ->.
    { apply mem_false_iff. now apply lookup_none in Ea. }
    cbn [negb]. now destruct (lookup k b).
Qed.

Lemma wf_obj_spec (o : obj) :
  wf_obj o = true
  <-> NoDup (keys o) /\ Forall (fun kv => wf_value (snd kv) = true) o.
Proof.
  unfold wf_obj. cbn [wf_value].
  rewrite andb_true_iff, nodup_keys_NoDup, forallb_forall, Forall_forall.
  reflexivity.
Qed.

Lemma depth_props_le (n : nat) (o : obj) :
  (depth_props o <= n)%nat <-> Forall (fun kv => (depth (snd kv) <= n)%nat) o.
Proof.
  induction o as [|[k v] o IH]; cbn [depth_props fold_right snd].
  - split; [constructor | lia].
  - fold (depth_props o). rewrite Nat.max_lub_iff, IH. split.
    + intros [H1 H2]. now constructor.
    + intros H. inversion H; subst. now split.
Qed.

Lemma depth_obj (o : obj) : depth (JObj o) = S (depth_props o).
Proof. reflexivity. Qed.

Lemma keys_filter (P : string -> bool) (o : obj) :
  keys (filter (fun kv => P (fst kv)) o) = filter P (keys o).
Proof.
  induction o as [|[k v] o IH]; [reflexivity|].
  cbn [filter keys map fst]. destruct (P k); cbn [map fst]; unfold keys in *;
    now rewrite IH.
Qed.

Lemma keys_merge_props (a b : obj) :
  keys (merge_props a b)
  = keys a ++ filter (fun k => negb (mem k (keys a))) (keys b).
Proof.
  unfold merge_props, keys at 1. rewrite map_app, map_map. cbn [fst].
  f_equal. apply (keys_filter (fun k => negb (mem k (map fst a)))).
Qed.

Lemma wf_merge_value (l : jsvalue) :
  forall h, wf_value l = true -> wf_value h = true ->
            wf_value (merge_value l h) = true.
Proof.
  induction l as [| | | | | |a IH|] using jsvalue_induction; intros h Hl Hh;
    try (destruct h; exact Hh).
  destruct h as [| | | | | |b|]; try exact Hh.
  change (merge_value (JObj a) (JObj b)) with (JObj (merge_props a b)).
  apply wf_obj_spec in Hl as [Hka Hva]. apply wf_obj_spec in Hh as [Hkb Hvb].
  apply wf_obj_spec. split.
  - rewrite keys_merge_props. apply NoDup_app; auto.
    + now apply NoDup_filter.
    + intros k Hk Hk'. apply filter_In in Hk' as [_ Hk'].
      apply negb_true_iff, mem_false_iff in Hk'. contradiction.
  - unfold merge_props. apply Forall_app. split.
    + apply Forall_map. rewrite Forall_forall in *. intros [k v] Hin.
      cbn [fst snd]. destruct (lookup k b) as [vb|] eqn:E.
      * apply (IH (k, v) Hin); [apply (Hva _ Hin)|].
        apply (Hvb (k, vb)). now apply lookup_some_in.
      * apply (Hva _ Hin).
    + rewrite Forall_forall in *. intros kv Hin.
      apply filter_In in Hin as [Hin _]. now apply Hvb.
Qed.

Lemma depth_merge_value (l : jsvalue) :
  forall h, (depth (merge_value l h) <= Nat.max (depth l) (depth h))%nat.
Proof.
  induction l as [| | | | | |a IH|] using jsvalue_induction; intros h;
    try (destruct h; cbn; lia).
  destruct h as [| | | | | |b|]; try (cbn; lia).
  change (merge_value (JObj a) (JObj b)) with (JObj (merge_props a b)).
  rewrite !depth_obj. rewrite <- Nat.succ_max_distr. apply le_n_S.
  apply depth_props_le. unfold merge_props. apply Forall_app. split.
  - apply Forall_map. rewrite Forall_forall in *. intros [k v] Hin.
    cbn [fst snd].
    assert (Hv : (depth v <= depth_props a)%nat).
    { assert (H : Forall (fun kv => (depth (snd kv) <= depth_props a)%nat) a)
        by now apply depth_props_le.
      rewrite Forall_forall in H. apply (H (k, v) Hin). }
    destruct (lookup k b) as [vb|] eqn:E; [|lia].
    assert (Hvb : (depth vb <= depth_props b)%nat).
    { assert (H : Forall (fun kv => (depth (snd kv) <= depth_props b)%nat) b)
        by now apply depth_props_le.
      rewrite Forall_forall in H. apply (H (k, vb)). now apply lookup_some_in. }
    pose proof (IH (k, v) Hin vb) as Hm. cbn [snd] in Hm. lia.
  - assert (H : Forall (fun kv => (depth (snd kv) <= depth_props b)%nat) b)
      by now apply depth_props_le.
    rewrite Forall_forall in *. intros kv Hin.
    apply filter_In in Hin as [Hin _]. specialize (H kv Hin). lia.
Qed.

Lemma wf_merge_props (a b : obj) :
  wf_obj a = true -> wf_obj b = true -> wf_obj (merge_props a b) = true.
Proof. intros Ha Hb. apply (wf_merge_value (JObj a) (JObj b) Ha Hb). Qed.

Lemma depth_merge_props (a b : obj) (n : nat) :
  (depth (JObj a) <= n)%nat -> (depth (JObj b) <= n)%nat ->
  (depth (JObj (merge_props a b)) <= n)%nat.
Proof.
  intros Ha Hb. pose proof (depth_merge_value (JObj a) (JObj b)) as H.
  change (merge_value (JObj a) (JObj b)) with (JObj (merge_props a b)) in H.
  lia.
Qed.

(** A value that is not an object is replaced by the later value. *)
Lemma merge_value_not_objects (l h : jsvalue) :
  isObject l && isObject h = false -> merge_value l h = h.
Proof. destruct l, h; try reflexivity; discriminate. Qed.

(** One turn of the inner loop of [mergeConfigs] is one assignment of the
    key-wise merge, when the recursive call does its job on the objects
    nested one level down. *)
Lemma merge_key_entry (rec : obj -> obj -> option obj) (n : nat)
  (o acc : obj) (k : string) (v : jsvalue) :
  (forall a b, wf_obj a = true -> wf_obj b = true ->
               (depth (JObj a) <= n)%nat -> (depth (JObj b) <= n)%nat ->
               rec a b = Some (merge_props a b)) ->
  get o k = v -> wf_value v = true -> (depth v <= n)%nat ->
  wf_obj acc = true -> (depth (JObj acc) <= S n)%nat ->
  merge_key rec o (Some acc) k = Some (merge_entry acc (k, v)).
Proof.
  intros Hrec Hget Hwv Hdv Hacc Hdacc. unfold merge_key, merge_entry.
  cbn [fst snd]. rewrite Hget. unfold get.
  destruct (lookup k acc) as [l|] eqn:El.
  2:{ now destruct v. }
  assert (Hl : wf_value l = true /\ (depth l <= n)%nat).
  { apply lookup_some_in in El. apply wf_obj_spec in Hacc as [_ Hv].
    rewrite Forall_forall in Hv. split; [apply (Hv _ El)|].
    rewrite depth_obj in Hdacc. apply le_S_n in Hdacc.
    apply depth_props_le in Hdacc. rewrite Forall_forall in Hdacc.
    apply (Hdacc _ El). }
  destruct Hl as [Hwl Hdl].
  destruct l as [| | | | | |a|]; try (now destruct v).
  destruct v as [| | | | | |b|]; try reflexivity.
  now rewrite (Hrec a b Hwl Hwv Hdl Hdv).
Qed.

Lemma wf_set (k : string) (x : jsvalue) (o : obj) :
  wf_obj o = true -> wf_value x = true -> wf_obj (set k x o) = true.
Proof.
  intros Ho Hx. apply wf_obj_spec in Ho as [Hk Hv]. apply wf_obj_spec.
  destruct (lookup k o) as [l|] eqn:El.
  - split; [now rewrite (keys_set_present k x l o El)|].
    clear Hk. induction o as [|[j y] o IH]; [discriminate|].
    cbn [lookup set] in *. inversion Hv as [|? ? Hy Ho]; subst.
    destruct (String.eqb j k); constructor; auto.
  - rewrite (set_absent k x o El). split.
    + unfold keys. rewrite map_app. apply NoDup_app; auto.
      * constructor; [intros [] | constructor].
      * intros j Hj [<- | []]. apply lookup_none in El. contradiction.
    + apply Forall_app. split; [exact Hv | now constructor].
Qed.

Lemma depth_set (k : string) (x : jsvalue) (o : obj) (n : nat) :
  (depth (JObj o) <= S n)%nat -> (depth x <= n)%nat ->
  (depth (JObj (set k x o)) <= S n)%nat.
Proof.
  rewrite !depth_obj. intros Ho Hx. apply le_S_n in Ho. apply le_n_S.
  apply depth_props_le in Ho. apply depth_props_le.
  induction o as [|[j y] o IH]; cbn [set].
  - now constructor.
  - inversion Ho as [|? ? Hy Ho']; subst.
    destruct (String.eqb j k); constructor; auto.
Qed.

Lemma merge_key_fold (rec : obj -> obj -> option obj) (n : nat) (o : obj) :
  (forall a b, wf_obj a = true -> wf_obj b = true ->
               (depth (JObj a) <= n)%nat -> (depth (JObj b) <= n)%nat ->
               rec a b = Some (merge_props a b)) ->
  forall r acc,
    (forall k v, In (k, v) r ->
                 get o k = v /\ wf_value v = true /\ (depth v <= n)%nat) ->
    wf_obj acc = true -> (depth (JObj acc) <= S n)%nat ->
    fold_left (merge_key rec o) (keys r) (Some acc)
    = Some (fold_left merge_entry r acc).
Proof.
  intros Hrec. induction r as [|[k v] r IH]; intros acc Hr Hacc Hd;
    [reflexivity|].
  cbn [keys map fst fold_left].
  destruct (Hr k v (or_introl eq_refl)) as (Hget & Hwv & Hdv).
  rewrite (merge_key_entry rec n o acc k v Hrec Hget Hwv Hdv Hacc Hd).
  assert (Hnew : wf_value
                   match lookup k acc with
                   | Some option => merge_value option v
                   | None => v
                   end = true
                 /\ (depth match lookup k acc with
                           | Some option => merge_value option v
                           | None => v
                           end <= n)%nat).
  { destruct (lookup k acc) as [l|] eqn:El; [|now split].
    apply lookup_some_in in El.
    pose proof Hacc as Hacc'. apply wf_obj_spec in Hacc' as [_ Hv].
    rewrite Forall_forall in Hv. specialize (Hv _ El). cbn [snd] in Hv.
    pose proof Hd as Hd'. rewrite depth_obj in Hd'. apply le_S_n in Hd'.
    apply depth_props_le in Hd'. rewrite Forall_forall in Hd'.
    specialize (Hd' _ El). cbn [snd] in Hd'.
    split; [now apply wf_merge_value|].
    pose proof (depth_merge_value l v). lia. }
  destruct Hnew as [Hw Hdn].
  apply IH.
  - intros j y Hin. apply Hr. now right.
  - unfold merge_entry. cbn [fst snd]. now apply wf_set.
  - unfold merge_entry. cbn [fst snd]. now apply depth_set.
Qed.

(** Merging one more object into what has been merged so far. *)
Lemma merge_into (rec : obj -> obj -> option obj) (n : nat) (acc o : obj) :
  (forall a b, wf_obj a = true -> wf_obj b = true ->
               (depth (JObj a) <= n)%nat -> (depth (JObj b) <= n)%nat ->
               rec a b = Some (merge_props a b)) ->
  wf_obj acc = true -> wf_obj o = true ->
  (depth (JObj acc) <= S n)%nat -> (depth (JObj o) <= S n)%nat ->
  fold_left (merge_key rec o) (keys o) (Some acc) = Some (merge_props acc o).
Proof.
  intros Hrec Hacc Ho Hda Hdo.
  pose proof Hacc as Hacc'. apply wf_obj_spec in Hacc' as [Hka _].
  pose proof Ho as Ho'. apply wf_obj_spec in Ho' as [Hko Hvo].
  rewrite (merge_key_fold rec n o Hrec o acc); auto.
  - now rewrite fold_merge_entry.
  - intros k v Hin. repeat split.
    + unfold get. now rewrite (lookup_in k v o Hko Hin).
    + rewrite Forall_forall in Hvo. apply (Hvo _ Hin).
    + rewrite depth_obj in Hdo. apply le_S_n in Hdo.
      apply depth_props_le in Hdo. rewrite Forall_forall in Hdo.
      apply (Hdo _ Hin).
Qed.

Lemma merge_props_nil_l (a : obj) : merge_props [] a = a.
Proof.
  unfold merge_props. cbn [map app]. apply filter_all. reflexivity.
Qed.

(** With fuel for their depth, two objects merge key-wise. *)
Lemma mergeConfigs_two (n : nat) :
  forall a b, wf_obj a = true -> wf_obj b = true ->
              (depth (JObj a) <= n)%nat -> (depth (JObj b) <= n)%nat ->
              mergeConfigs n [a; b] = Some (merge_props a b).
Proof.
  induction n as [|n IH]; intros a b Ha Hb Hda Hdb.
  - rewrite depth_obj in Hda. lia.
  - cbn [mergeConfigs fold_left].
    match goal with
    | |- fold_left (merge_key ?r b) _ _ = _ => set (rec := r)
    end.
    assert (Hrec : forall x y, wf_obj x = true -> wf_obj y = true ->
                     (depth (JObj x) <= n)%nat -> (depth (JObj y) <= n)%nat ->
                     rec x y = Some (merge_props x y))
      by (intros; now apply IH).
    change (fold_left (merge_key rec b) (keys b)
              (fold_left (merge_key rec a) (keys a) (@Some obj []))
            = Some (merge_props a b)).
    rewrite (merge_into rec n [] a Hrec); auto; [|cbn; lia].
    rewrite merge_props_nil_l. now apply (merge_into rec n).
Qed.



(* ===================================================================== *)
(** * 20. Clearing and rendering again                                     *)
(* ===================================================================== *)

Lemma elements_prune (P : element -> bool) (ks : list node) :
  forall y, In y (forest_elements (flat_map (prune P) ks)) ->
            In y (forest_elements ks) /\ P y = false.
Proof.
  assert (H : forall n y, In y (forest_elements (prune P n)) ->
                          In y (elements n) /\ P y = false).
  { induction n as [e cs IH|p] using node_induction; [|intros y []].
    intros y. cbn [prune]. destruct (P e) eqn:E; [intros []|].
    cbn [forest_elements flat_map elements]. rewrite app_nil_r.
    intros [<- | Hy]; [split; [now left | exact E]|].
    assert (HF : In y (forest_elements cs) /\ P y = false).
    { induction cs as [|c cs IHcs]; [destruct Hy|].
      inversion IH as [|? ? Hc Hcs]; subst.
      cbn [flat_map] in Hy. rewrite flat_map_app in Hy.
      apply in_app_iff in Hy as [Hy | Hy].
      - destruct (Hc y Hy) as [Hin Hp]. split; [|exact Hp].
        rewrite forest_elements_cons. apply in_app_iff. now left.
      - destruct (IHcs Hcs Hy) as [Hin Hp]. split; [|exact Hp].
        rewrite forest_elements_cons. apply in_app_iff. now right. }
    destruct HF as [Hin Hp]. split; [now right | exact Hp]. }
  induction ks as [|k ks IH]; intros y Hy; [destruct Hy|].
  cbn [flat_map] in Hy. rewrite forest_elements_app in Hy.
  apply in_app_iff in Hy as [Hy | Hy].
  - destruct (H k y Hy) as [Hin Hp]. split; [|exact Hp].
    rewrite forest_elements_cons. apply in_app_iff. now left.
  - destruct (IH y Hy) as [Hin Hp]. split; [|exact Hp].
    rewrite forest_elements_cons. apply in_app_iff. now right.
Qed.

Lemma elements_update_all (h : element -> element) (n : node) :
  elements (update_where (fun _ => true) h n) = map h (elements n).
Proof.
  induction n as [e ks IH|p] using node_induction; [|reflexivity].
  cbn [update_where elements map]. f_equal.
  induction ks as [|k ks IHks]; [reflexivity|].
  inversion IH as [|? ? Hk Hks]; subst.
  cbn [map flat_map]. rewrite map_app, Hk. f_equal. now apply IHks.
Qed.

Lemma forest_elements_update_all (h : element -> element) (ks : list node) :
  forest_elements (map (update_where (fun _ => true) h) ks)
  = map h (forest_elements ks).
Proof.
  induction ks as [|k ks IH]; [reflexivity|].
  cbn [map]. rewrite !forest_elements_cons, map_app, IH.
  now rewrite elements_update_all.
Qed.

Lemma is_marked_unmark (e : element) : is_marked (unmark_group e) = false.
Proof.
  unfold is_marked, unmark_group. rewrite mem_classList_remove.
  now rewrite String.eqb_refl.
Qed.

Lemma is_message_unmark (e : element) :
  is_message (unmark_group e) = is_message e.
Proof. unfold is_message, unmark_group. now rewrite mem_classList_remove. Qed.

Lemma is_summary_unmark (e : element) :
  is_summary (unmark_group e) = is_summary e.
Proof. unfold is_summary, unmark_group. now rewrite mem_classList_remove. Qed.

(** What is left of the children of the form after the first two stages. *)
Lemma elements_strip (ks : list node) :
  forall y, In y (forest_elements (strip ks)) ->
            is_marked y = false /\ is_message y = false
            /\ exists e, In e (forest_elements ks) /\ y = unmark_group e.
Proof.
  intros y Hy. unfold strip in Hy.
  apply elements_prune in Hy as [Hy Hm].
  rewrite forest_elements_update_all in Hy.
  apply in_map_iff in Hy as (e & <- & He).
  split; [apply is_marked_unmark|]. split; [exact Hm|]. now exists e.
Qed.

Lemma elements_drop_first_summary (ks : list node) :
  forall y, In y (forest_elements (drop_first_summary ks)) ->
            In y (forest_elements ks)
            /\ forall x, hd_error (selectF sel_summary ks) = Some x ->
                         node_id y <> x.
Proof.
  intros y Hy. unfold drop_first_summary in Hy.
  destruct (hd_error (selectF sel_summary ks)) as [x|].
  - apply elements_removeF in Hy as [Hin Hne]. split; [exact Hin|].
    now intros x' [= <-].
  - split; [exact Hy | discriminate].
Qed.

Lemma two_in_filter {A : Type} (p : A -> bool) (l : list A) (a b : A) :
  In a l -> In b l -> p a = true -> p b = true -> a <> b ->
  (2 <= List.length (filter p l))%nat.
Proof.
  intros Ha Hb Hpa Hpb Hab.
  assert (Ha' : In a (filter p l)) by (apply filter_In; now split).
  assert (Hb' : In b (filter p l)) by (apply filter_In; now split).
  destruct (filter p l) as [|x [|y r]]; cbn [List.length]; try lia.
  - destruct Ha'.
  - destruct Ha' as [<- | []], Hb' as [<- | []]. contradiction.
Qed.

(** After [clearErrors] no child of the form is marked or is a message;
    and none is a summary when the form held at most one. *)
Lemma elements_clearF (ks : list node) :
  forall y, In y (forest_elements (clearF ks)) ->
            is_marked y = false /\ is_message y = false
            /\ ((List.length (selectF sel_summary ks) <= 1)%nat ->
                is_summary y = false).
Proof.
  intros y Hy. unfold clearF in Hy.
  apply elements_drop_first_summary in Hy as [Hy Hx].
  destruct (elements_strip ks y Hy) as (Hmark & Hmsg & e & He & ->).
  split; [exact Hmark|]. split; [exact Hmsg|].
  intros Hone. destruct (is_summary (unmark_group e)) eqn:Es; [|reflexivity].
  exfalso.
  destruct (hd_error (selectF sel_summary (strip ks))) as [x|] eqn:Ex.
  - pose proof (hd_error_In _ _ Ex) as Hin.
    apply in_map_iff in Hin as (z & Hz & Hzin).
    apply filter_In in Hzin as [Hzin Hzs].
    destruct (elements_strip ks z Hzin) as (_ & _ & e' & He' & ->).
    unfold sel_summary in Hzs. rewrite matches_class in Hzs.
    fold (is_summary (unmark_group e')) in Hzs.
    rewrite is_summary_unmark in Es, Hzs.
    assert (Hne : e <> e').
    { intros ->. apply (Hx x eq_refl). exact Hz. }
    assert (H2 : (2 <= List.length (filter (matches sel_summary)
                                      (forest_elements ks)))%nat).
    { apply (two_in_filter _ _ e e'); try assumption;
        unfold sel_summary; now rewrite matches_class. }
    unfold selectF in Hone. rewrite length_map in Hone. lia.
  - assert (Hin : In (node_id (unmark_group e))
                    (selectF sel_summary (strip ks))).
    { apply in_map. apply filter_In. split; [exact Hy|].
      unfold sel_summary. now rewrite matches_class. }
    destruct (selectF sel_summary (strip ks)); [destruct Hin | discriminate].
Qed.

(** ** The stripped children are the same before and after rendering *)

Lemma unmark_mark (e : element) : unmark_group (mark_group e) = unmark_group e.
Proof.
  unfold unmark_group, mark_group, classList_add, classList_remove.
  destruct (mem _ (classList e)); [reflexivity|].
  unfold with_classList. cbn [classList node_id tag is_html attributes etype
                                evalue echecked].
  rewrite filter_app. cbn [filter]. rewrite String.eqb_refl. cbn [negb].
  now rewrite app_nil_r.
Qed.

Lemma update_where_all_update (x : nat) (h h' : element -> element)
  (n : node) :
  (forall e, h (h' e) = h e) ->
  update_where (fun _ => true) h (update x h' n)
  = update_where (fun _ => true) h n.
Proof.
  intros Hh. induction n as [e ks IH|p] using node_induction; [|reflexivity].
  cbn [update update_where]. f_equal.
  - now destruct (Nat.eqb (node_id e) x).
  - rewrite map_map. apply map_ext_in. intros k Hk.
    rewrite Forall_forall in IH. now apply IH.
Qed.

Lemma strip_updateF_mark (g : nat) (ks : list node) :
  strip (updateF g mark_group ks) = strip ks.
Proof.
  unfold strip, updateF. rewrite map_map. f_equal.
  apply map_ext. intros k. apply update_where_all_update. apply unmark_mark.
Qed.

Lemma has_id_update_where (x : nat) (P : element -> bool)
  (h : element -> element) (k : node) :
  (forall e, node_id (h e) = node_id e) ->
  has_id x (update_where P h k) = has_id x k.
Proof.
  intros Hh. destruct k as [e ks|p]; [|reflexivity].
  cbn [update_where has_id]. destruct (P e); [now rewrite Hh | reflexivity].
Qed.

Lemma update_where_insert_before (r : nat) (new : node) (P : element -> bool)
  (h : element -> element) (n : node) :
  (forall e, node_id (h e) = node_id e) ->
  update_where P h (insert_before r new n)
  = insert_before r (update_where P h new) (update_where P h n).
Proof.
  intros Hh. induction n as [e ks IH|p] using node_induction; [|reflexivity].
  cbn [insert_before update_where]. f_equal.
  induction ks as [|k ks IHks]; [reflexivity|].
  inversion IH as [|? ? Hk Hks]; subst.
  cbn [flat_map map]. rewrite map_app, (IHks Hks).
  rewrite has_id_update_where by exact Hh.
  destruct (has_id r k); cbn [map app]; [reflexivity | now rewrite Hk].
Qed.

Lemma map_update_where_insertF (r : nat) (new : node) (P : element -> bool)
  (h : element -> element) (ks : list node) :
  (forall e, node_id (h e) = node_id e) ->
  map (update_where P h) (insertF r new ks)
  = insertF r (update_where P h new) (map (update_where P h) ks).
Proof.
  intros Hh. induction ks as [|k ks IH]; [reflexivity|].
  rewrite insertF_cons. cbn [map]. rewrite insertF_cons, map_app, IH.
  rewrite has_id_update_where by exact Hh.
  destruct (has_id r k); cbn [map app]; [reflexivity|].
  now rewrite update_where_insert_before.
Qed.

Lemma prune_insert_before (r : nat) (new : node) (P : element -> bool)
  (e0 : element) (cs : list node) (n : node) :
  new = Node e0 cs -> P e0 = true ->
  prune P (insert_before r new n) = prune P n.
Proof.
  intros -> HP. induction n as [e ks IH|p] using node_induction;
    [|reflexivity].
  cbn [insert_before prune]. destruct (P e); [reflexivity|]. do 2 f_equal.
  induction ks as [|k ks IHks]; [reflexivity|].
  inversion IH as [|? ? Hk Hks]; subst.
  cbn [flat_map]. rewrite flat_map_app, (IHks Hks). f_equal.
  destruct (has_id r k).
  - cbn [flat_map prune]. rewrite HP. cbn [app]. now rewrite app_nil_r.
  - cbn [flat_map]. rewrite app_nil_r. exact Hk.
Qed.

Lemma prune_insertF (r : nat) (new : node) (P : element -> bool)
  (e0 : element) (cs : list node) (ks : list node) :
  new = Node e0 cs -> P e0 = true ->
  flat_map (prune P) (insertF r new ks) = flat_map (prune P) ks.
Proof.
  intros Hnew HP. induction ks as [|k ks IH]; [reflexivity|].
  rewrite insertF_cons, flat_map_app, IH. cbn [flat_map]. f_equal.
  destruct (has_id r k).
  - subst new. cbn [flat_map prune]. rewrite HP. cbn [app].
    now rewrite app_nil_r.
  - cbn [flat_map]. rewrite app_nil_r.
    now apply (prune_insert_before r new P e0 cs).
Qed.

Lemma strip_insertF_message (r n : nat) (msg : jsvalue) (ks : list node) :
  strip (insertF r (message_node n msg) ks) = strip ks.
Proof.
  unfold strip.
  rewrite map_update_where_insertF by apply unmark_group_id.
  eapply prune_insertF; [reflexivity|]. reflexivity.
Qed.

Lemma strip_summary (n : nat) (errors : list ValidationError)
  (ks : list node) :
  strip (summary_node n errors :: ks) = summary_node n errors :: strip ks.
Proof. reflexivity. Qed.

Lemma update_where_same (P : element -> bool) (h : element -> element)
  (n : node) :
  (forall e, In e (elements n) -> h e = e) -> update_where P h n = n.
Proof.
  induction n as [e ks IH|p] using node_induction; [|reflexivity].
  intros Hh. cbn [update_where]. f_equal.
  - destruct (P e); [|reflexivity]. apply Hh. now left.
  - rewrite <- (map_id ks) at 2. apply map_ext_in. intros k Hk.
    rewrite Forall_forall in IH. apply (IH k Hk). intros y Hy. apply Hh.
    right. apply in_flat_map. now exists k.
Qed.

(** Children without marks and without messages are left as they are. *)
Lemma strip_clean (ks : list node) :
  (forall e, In e (forest_elements ks) ->
             is_marked e = false /\ is_message e = false) ->
  strip ks = ks.
Proof.
  intros H. unfold strip.
  assert (H1 : map (update_where (fun _ => true) unmark_group) ks = ks).
  { rewrite <- (map_id ks) at 2. apply map_ext_in. intros k Hk.
    apply update_where_same. intros e He.
    apply classList_remove_absent. apply H.
    apply in_forest_elements. now exists k. }
  rewrite H1. clear H1.
  induction ks as [|k ks IH]; [reflexivity|].
  cbn [flat_map]. rewrite IH.
  - rewrite prune_local; [reflexivity|]. intros e He. apply H.
    rewrite forest_elements_cons. apply in_app_iff. now left.
  - intros e He. apply H. rewrite forest_elements_cons. apply in_app_iff.
    now right.
Qed.

Lemma strip_clearF (ks : list node) : strip (clearF ks) = clearF ks.
Proof.
  apply strip_clean. intros e He.
  destruct (elements_clearF ks e He) as (H1 & H2 & _). now split.
Qed.

(** ** Paths to the root *)

Lemma ancestors_or_self_some (x : nat) (n : node) (path : list element) :
  ancestors_or_self x n = Some path ->
  In x (ids n) /\ Forall (fun a => In a (elements n)) path.
Proof.
  revert path.
  induction n as [e ks IH|p] using node_induction; [|intros; discriminate].
  intros path. cbn [ancestors_or_self].
  destruct (Nat.eqb (node_id e) x) eqn:E.
  - intros [= <-]. apply Nat.eqb_eq in E. rewrite ids_Node. split.
    + now left.
    + constructor; [now left | constructor].
  - destruct (first_some (ancestors_or_self x) ks) as [q|] eqn:Eq;
      [|discriminate].
    intros [= <-]. apply first_some_in in Eq as (k & Hk & Hq).
    rewrite Forall_forall in IH. destruct (IH k Hk q Hq) as [Hin Hall].
    split.
    + rewrite ids_Node. right. apply in_forest_ids. now exists k.
    + apply Forall_app. split.
      * rewrite Forall_forall in Hall |- *. intros a Ha. right.
        apply in_flat_map. exists k. split; [exact Hk | now apply Hall].
      * constructor; [now left | constructor].
Qed.

Lemma ancestors_or_self_in (x : nat) (n : node) :
  In x (ids n) -> ancestors_or_self x n <> None.
Proof.
  induction n as [e ks IH|p] using node_induction; [|intros []].
  rewrite ids_Node. intros Hin. cbn [ancestors_or_self].
  destruct (Nat.eqb (node_id e) x) eqn:E; [discriminate|].
  destruct Hin as [Hx | Hin]; [apply Nat.eqb_neq in E; contradiction|].
  apply in_forest_ids in Hin as (k & Hk & Hin).
  rewrite Forall_forall in IH.
  pose proof (first_some_exists (ancestors_or_self x) ks k Hk (IH k Hk Hin))
    as Hne.
  destruct (first_some (ancestors_or_self x) ks); [discriminate|].
  now contradiction Hne.
Qed.

Lemma first_some_ancestors_child (x : nat) (ks : list node) (k : node) :
  NoDup (forest_ids ks) -> In k ks -> In x (ids k) ->
  first_some (ancestors_or_self x) ks = ancestors_or_self x k.
Proof.
  intros Hnd Hk Hx. induction ks as [|c cs IH]; [destruct Hk|].
  cbn [first_some].
  destruct (ancestors_or_self x c) as [q|] eqn:Eq.
  - destruct (ancestors_or_self_some x c q Eq) as [Hc _].
    assert (c = k) as <-.
    { apply (NoDup_forest_same_child (c :: cs) c k x); auto. now left. }
    now rewrite Eq.
  - destruct Hk as [-> | Hk].
    + now contradiction (ancestors_or_self_in x k Hx).
    + apply IH; [|exact Hk]. rewrite forest_ids_cons in Hnd.
      now apply NoDup_app_remove_l in Hnd.
Qed.

Lemma first_some_map_ext {A B : Type} (g : A -> option B) (h : A -> A)
  (l : list A) :
  (forall x, In x l -> g (h x) = g x) ->
  first_some g (map h l) = first_some g l.
Proof.
  induction l as [|x l IH]; [reflexivity|]. intros H.
  cbn [map first_some]. rewrite H by now left.
  destruct (g x); [reflexivity|]. apply IH. intros y Hy. apply H. now right.
Qed.

Lemma ancestors_on_children (f : nat) (T : list node -> list node)
  (n : node) :
  ancestors_or_self f (on_children f T n) = ancestors_or_self f n.
Proof.
  induction n as [e ks IH|p] using node_induction; [|reflexivity].
  cbn [on_children ancestors_or_self].
  destruct (Nat.eqb (node_id e) f) eqn:E; cbn [ancestors_or_self]; rewrite E;
    [reflexivity|].
  rewrite first_some_map_ext; [reflexivity|].
  rewrite Forall_forall in IH. exact IH.
Qed.

(** The path from a descendant of the form runs inside the form, then
    along the path from the form. *)
Lemma ancestors_below_form (f x : nat) (d : node) (e : element)
  (ks : list node) :
  NoDup (ids d) -> find f d = Some (Node e ks) -> In x (forest_ids ks) ->
  exists inner up,
    ancestors_or_self x d = Some (inner ++ up)
    /\ ancestors_or_self f d = Some up
    /\ Forall (fun a => In (node_id a) (forest_ids ks)) inner.
Proof.
  induction d as [e0 cs IH|p] using node_induction; [|intros; discriminate].
  intros Hnd Hf Hx.
  pose proof (find_root_differs f x e0 cs e ks Hnd Hf Hx) as Hroot.
  apply Nat.eqb_neq in Hroot.
  assert (Hndc : NoDup (forest_ids cs)).
  { rewrite ids_Node in Hnd. now inversion Hnd. }
  pose proof Hf as Hf0.
  cbn [find] in Hf. cbn [ancestors_or_self]. rewrite Hroot.
  destruct (Nat.eqb (node_id e0) f) eqn:E.
  - injection Hf as <- <-.
    apply in_forest_ids in Hx as (k & Hk & Hx).
    rewrite (first_some_ancestors_child x cs k Hndc Hk Hx).
    destruct (ancestors_or_self x k) as [q|] eqn:Eq;
      [|now contradiction (ancestors_or_self_in x k Hx)].
    exists q, [e0]. split; [reflexivity|]. split; [reflexivity|].
    destruct (ancestors_or_self_some x k q Eq) as [_ Hall].
    rewrite Forall_forall in Hall |- *. intros a Ha.
    apply in_forest_ids. exists k. split; [exact Hk|].
    apply in_map. now apply Hall.
  - destruct (first_some_in _ _ _ Hf) as (k & Hk & Hfk).
    destruct (find_some f k _ Hfk) as (_ & _ & _ & _ & Hfin & Hincl).
    assert (Hxk : In x (ids k)).
    { apply in_map_iff in Hx as (a & <- & Ha). apply in_map. apply Hincl.
      right. exact Ha. }
    rewrite (first_some_ancestors_child x cs k Hndc Hk Hxk).
    rewrite (first_some_ancestors_child f cs k Hndc Hk Hfin).
    rewrite Forall_forall in IH.
    destruct (IH k Hk (NoDup_forest_child cs k Hndc Hk) Hfk Hx)
      as (inner & up & -> & -> & Hall).
    exists inner, (up ++ [e0]). split; [now rewrite app_assoc|].
    split; [reflexivity | exact Hall].
Qed.

Lemma find_app_none {A : Type} (p : A -> bool) (l1 l2 : list A) :
  (forall a, In a l2 -> p a = false) ->
  List.find p (l1 ++ l2) = List.find p l1.
Proof.
  intros H. induction l1 as [|a l1 IH]; cbn [app List.find].
  - destruct (List.find p l2) as [a|] eqn:E; [|reflexivity].
    apply List.find_some in E as [Hin Hp]. rewrite (H a Hin) in Hp.
    discriminate.
  - destruct (p a); [reflexivity | exact IH].
Qed.

(** With the form outside of every form group, the group that [closest]
    finds from a descendant of the form is a descendant of the form. *)
Lemma closest_below_form (f x g : nat) (d : node) (e : element)
  (ks : list node) :
  NoDup (ids d) -> find f d = Some (Node e ks) -> In x (forest_ids ks) ->
  form_outside_groups f d = true ->
  closest_in x sel_group d = Some g -> In g (forest_ids ks).
Proof.
  intros Hnd Hf Hx Hout Hc.
  destruct (ancestors_below_form f x d e ks Hnd Hf Hx)
    as (inner & up & Hax & Haf & Hall).
  unfold form_outside_groups in Hout. rewrite Haf in Hout.
  unfold closest_in in Hc. rewrite Hax in Hc.
  rewrite find_app_none in Hc.
  - destruct (List.find (matches sel_group) inner) as [a|] eqn:Ea;
      [|discriminate].
    injection Hc as <-. apply List.find_some in Ea as [Ha _].
    rewrite Forall_forall in Hall. now apply Hall.
  - intros a Ha. rewrite forallb_forall in Hout.
    specialize (Hout a Ha). now destruct (matches sel_group a).
Qed.

Lemma find_within (f g : nat) (d n : node) :
  NoDup (ids d) -> find f d = Some n -> In g (ids n) ->
  find g d = find g n.
Proof.
  induction d as [e0 cs IH|p] using node_induction; [|intros; discriminate].
  intros Hnd Hf Hg.
  assert (Hndc : NoDup (forest_ids cs)).
  { rewrite ids_Node in Hnd. now inversion Hnd. }
  pose proof Hf as Hf0. cbn [find] in Hf.
  destruct (Nat.eqb (node_id e0) f) eqn:E; [now injection Hf as <-|].
  destruct (first_some_in _ _ _ Hf) as (k & Hk & Hfk).
  destruct (find_some f k _ Hfk) as (e & ks & -> & _ & _ & Hincl).
  assert (Hgk : In g (ids k)).
  { apply in_map_iff in Hg as (a & <- & Ha). apply in_map. now apply Hincl. }
  assert (Hne : Nat.eqb (node_id e0) g = false).
  { apply Nat.eqb_neq. intros Heq. rewrite ids_Node in Hnd.
    inversion Hnd as [|? ? Hnotin _]; subst. apply Hnotin.
    apply in_forest_ids. now exists k. }
  cbn [find]. rewrite Hne.
  rewrite (first_some_find_child g cs k Hndc Hk Hgk).
  rewrite Forall_forall in IH.
  apply (IH k Hk (NoDup_forest_child cs k Hndc Hk) Hfk Hg).
Qed.

(** What [querySelector] finds from a descendant of the form is a
    descendant of the form. *)
Lemma select_below_form (f g r : nat) (sel : selector) (d : node)
  (e : element) (ks : list node) :
  NoDup (ids d) -> find f d = Some (Node e ks) -> In g (forest_ids ks) ->
  In r (select g sel d) -> In r (forest_ids ks).
Proof.
  intros Hnd Hf Hg Hr.
  assert (Hgn : In g (ids (Node e ks))) by (rewrite ids_Node; now right).
  pose proof (find_within f g d _ Hnd Hf Hgn) as Hfg.
  unfold select, descendants in Hr. rewrite Hfg in Hr.
  destruct (find g (Node e ks)) as [[eg kg|p]|] eqn:Eg;
    try (now destruct Hr).
  apply in_map_iff in Hr as (a & <- & Ha). apply filter_In in Ha as [Ha _].
  apply in_map. apply (find_children_incl g e ks eg kg Eg). exact Ha.
Qed.

(** ** Rendering keeps the cleared children recoverable *)

Lemma is_message_mark_group (e : element) :
  is_message (mark_group e) = is_message e.
Proof. unfold is_message, mark_group. now rewrite mem_classList_add. Qed.

Lemma forest_elements_updateF (x : nat) (h : element -> element)
  (ks : list node) :
  forest_elements (updateF x h ks)
  = map (fun e => if Nat.eqb (node_id e) x then h e else e)
      (forest_elements ks).
Proof.
  induction ks as [|k ks IH]; [reflexivity|].
  unfold updateF in *. cbn [map]. rewrite !forest_elements_cons, map_app, IH.
  now rewrite elements_update.
Qed.

Lemma elements_insert_before_keeps (r : nat) (new : node) (n : node) :
  forall y, In y (elements n) -> In y (elements (insert_before r new n)).
Proof.
  induction n as [e ks IH|p] using node_induction; [|intros y []].
  intros y [<- | Hy]; [now left|]. right.
  apply in_flat_map in Hy as (k & Hk & Hy).
  rewrite Forall_forall in IH. specialize (IH k Hk y Hy).
  change (In y (forest_elements
                  (flat_map (fun k => if has_id r k then [new; k]
                                      else [insert_before r new k]) ks))).
  clear -Hk Hy IH. induction ks as [|c cs IHcs]; [destruct Hk|].
  cbn [flat_map]. rewrite forest_elements_app. apply in_app_iff.
  destruct Hk as [-> | Hk]; [left | right; now apply IHcs].
  destruct (has_id r k).
  - rewrite !forest_elements_cons. apply in_app_iff. right.
    apply in_app_iff. now left.
  - rewrite forest_elements_cons. apply in_app_iff. now left.
Qed.

Lemma forest_elements_insertF_keeps (r : nat) (new : node) (ks : list node) :
  forall y, In y (forest_elements ks) ->
            In y (forest_elements (insertF r new ks)).
Proof.
  induction ks as [|k ks IH]; intros y Hy; [destruct Hy|].
  rewrite insertF_cons, forest_elements_app.
  rewrite forest_elements_cons in Hy. apply in_app_iff.
  apply in_app_iff in Hy as [Hy | Hy]; [left | right; now apply IH].
  destruct (has_id r k).
  - rewrite !forest_elements_cons. apply in_app_iff. right.
    apply in_app_iff. now left.
  - rewrite forest_elements_cons. apply in_app_iff. left.
    now apply elements_insert_before_keeps.
Qed.

Lemma on_children_const (f : nat) (d : node) (e : element) (ks : list node) :
  NoDup (ids d) -> find f d = Some (Node e ks) ->
  on_children f (fun _ => ks) d = d.
Proof.
  intros Hn Hf. rewrite <- (on_children_same f d) at 2.
  apply on_children_ext; [exact Hn|].
  intros e' ks' Hf'. rewrite Hf in Hf'. now injection Hf' as <- <-.
Qed.

Section Rendering.

Variables (f : nat) (dc : node) (ef : element) (B : list node) (n0 : nat).
Hypothesis dc_NoDup : NoDup (ids dc).
Hypothesis dc_form : find f dc = Some (Node ef B).
Hypothesis dc_outside : form_outside_groups f dc = true.

Lemma rendered_from_find (dn : node * nat) (ks : list node) :
  fst dn = on_children f (fun _ => ks) dc ->
  find f (fst dn) = Some (Node ef ks)
  /\ form_outside_groups f (fst dn) = true.
Proof.
  intros ->. split.
  - now rewrite find_on_children, dc_form.
  - unfold form_outside_groups. rewrite ancestors_on_children.
    exact dc_outside.
Qed.

Lemma rendered_from_show_error (err : ValidationError) (dn : node * nat) :
  rendered_from f dc B n0 dn ->
  In (element_ref err) (forest_ids B) ->
  rendered_from f dc B n0 (show_error_document err dn).
Proof.
  intros (ks & Hd & Hs & Hnd & Hlt & Hincl & Hn0 & Hnew) Href.
  destruct (rendered_from_find dn ks Hd) as [Hf Hout].
  unfold show_error_document.
  destruct (closest_in (element_ref err) sel_group (fst dn)) as [g|] eqn:Eg;
    [|now exists ks].
  assert (Hg : In g (forest_ids ks)).
  { apply (closest_below_form f (element_ref err) g (fst dn) ef ks);
      auto. }
  set (ks1 := updateF g mark_group ks).
  assert (Hd1 : update g mark_group (fst dn)
                = on_children f (fun _ => ks1) dc).
  { rewrite (update_below_form f g mark_group (fst dn) ef ks Hnd Hf Hg).
    rewrite Hd, on_children_compose. reflexivity. }
  assert (Hids1 : ids (update g mark_group (fst dn)) = ids (fst dn))
    by (apply ids_update, mark_group_id).
  assert (Hfids1 : forest_ids ks1 = forest_ids ks)
    by (apply forest_ids_updateF, mark_group_id).
  assert (Hnew1 : forall a, In a (forest_elements ks1) ->
                            is_message a || is_summary a = true ->
                            (n0 <= node_id a)%nat).
  { intros a Ha. unfold ks1 in Ha. rewrite forest_elements_updateF in Ha.
    apply in_map_iff in Ha as (a0 & <- & Ha0).
    destruct (Nat.eqb (node_id a0) g); [|now apply Hnew].
    rewrite is_message_mark_group, is_summary_mark_group, mark_group_id.
    now apply Hnew. }
  assert (Hf1 : find f (update g mark_group (fst dn)) = Some (Node ef ks1)).
  { rewrite Hd1, find_on_children, dc_form. reflexivity. }
  destruct (hd_error (select g sel_field (update g mark_group (fst dn))))
    as [r|] eqn:Er.
  - assert (Hr : In r (forest_ids ks1)).
    { apply (select_below_form f g r sel_field
               (update g mark_group (fst dn)) ef ks1).
      - now rewrite Hids1.
      - exact Hf1.
      - now rewrite Hfids1.
      - now apply hd_error_In. }
    set (new := message_node (snd dn) (message err)).
    exists (insertF r new ks1). cbn [fst snd].
    assert (Hfresh : forall y, In y (ids new) ->
                               ~ In y (ids (update g mark_group (fst dn)))).
    { intros y [<- | []] Hy. rewrite Hids1 in Hy.
      specialize (Hlt _ Hy). cbn in Hlt. lia. }
    split; [|split; [|split; [|split; [|split; [|split]]]]].
    + rewrite (insert_below_form f r new (update g mark_group (fst dn))
                 ef ks1); auto.
      * rewrite Hd1, on_children_compose. reflexivity.
      * now rewrite Hids1.
    + unfold new. rewrite strip_insertF_message. unfold ks1.
      now rewrite strip_updateF_mark.
    + apply NoDup_insert_before; auto.
      * repeat constructor. intros [].
      * now rewrite Hids1.
    + intros y Hy. apply ids_insert_before in Hy as [Hy | [<- | []]].
      * rewrite Hids1 in Hy. specialize (Hlt y Hy). lia.
      * cbn. lia.
    + intros y Hy. specialize (Hincl y Hy). rewrite <- Hfids1 in Hincl.
      apply in_map_iff in Hincl as (a & <- & Ha). apply in_map.
      now apply forest_elements_insertF_keeps.
    + lia.
    + intros a Ha. apply elements_insertF in Ha as [Ha | [<- | []]].
      * now apply Hnew1.
      * intros _. cbn. exact Hn0.
  - exists ks1. cbn [fst snd].
    split; [exact Hd1|]. split; [unfold ks1; now rewrite strip_updateF_mark|].
    split; [now rewrite Hids1|].
    split; [intros y Hy; rewrite Hids1 in Hy; specialize (Hlt y Hy); lia|].
    split; [now rewrite Hfids1|]. split; [lia | exact Hnew1].
Qed.

Lemma rendered_from_show_errors (errors : list ValidationError) :
  forall dn,
    rendered_from f dc B n0 dn ->
    (forall err, In err errors -> In (element_ref err) (forest_ids B)) ->
    rendered_from f dc B n0 (show_errors_document errors dn).
Proof.
  unfold show_errors_document.
  induction errors as [|err errors IH]; intros dn Hr Hrefs; [exact Hr|].
  cbn [fold_left]. apply IH.
  - apply rendered_from_show_error; [exact Hr|]. apply Hrefs. now left.
  - intros e He. apply Hrefs. now right.
Qed.

End Rendering.

(** ** The elements that the pass reports are descendants of the form *)

Lemma querySelector_descendant (f : nat) (text : string) (s : State)
  (id : nat) :
  fst (querySelector f text s) = Ok (Some id) ->
  In id (map node_id (descendants f (document s))).
Proof.
  unfold querySelector, querySelectorAll, bind, ret.
  destruct (parse_selector text) as [sel|]; [|discriminate].
  cbn [fst]. intros [= H]. apply hd_error_In in H.
  apply in_map_iff in H as (a & <- & Ha). apply in_map.
  now apply filter_In in Ha as [Ha _].
Qed.

Lemma validate_fields_refs (this : Button) (f : nat) (fields : obj)
  (s : State) :
  forall isValid errors v errs s',
    (forall err, In err errors ->
                 In (element_ref err) (map node_id (descendants f (document s)))) ->
    validate_fields this f fields isValid errors s = (Ok (v, errs), s') ->
    forall err, In err errs ->
                In (element_ref err) (map node_id (descendants f (document s))).
Proof.
  induction fields as [|[k sel] rest IH]; intros isValid errors v errs s' Hi H.
  - cbn in H. injection H as _ <- _. exact Hi.
  - rewrite validate_fields_cons in H.
    destruct sel; try discriminate.
    destruct (fst (querySelector f s0 s)) as [[id|]|e] eqn:Eq;
      try discriminate.
    + destruct (fst (validateElement f id k s)) as [[|]|e]; try discriminate.
      * eapply IH; eassumption.
      * eapply IH; [|eassumption]. intros err Herr.
        apply in_app_iff in Herr as [Herr | [<- | []]]; [now apply Hi|].
        cbn [element_ref]. now apply querySelector_descendant with (text := s0).
    + eapply IH; eassumption.
Qed.

(** ** Clearing after a submit gives the cleared document again *)

Lemma drop_first_summary_none (ks : list node) :
  (forall a, In a (forest_elements ks) -> is_summary a = false) ->
  drop_first_summary ks = ks.
Proof.
  intros H. unfold drop_first_summary.
  destruct (hd_error (selectF sel_summary ks)) as [x|] eqn:E; [|reflexivity].
  apply hd_error_In in E. apply in_map_iff in E as (a & _ & Ha).
  apply filter_In in Ha as [Ha Hm]. unfold sel_summary in Hm.
  rewrite matches_class in Hm. fold (is_summary a) in Hm.
  rewrite (H a Ha) in Hm. discriminate.
Qed.

Lemma drop_first_summary_new (n : nat) (errors : list ValidationError)
  (ks : list node) :
  ~ In n (forest_ids ks) ->
  drop_first_summary (summary_node n errors :: ks) = ks.
Proof.
  intros Hn. unfold drop_first_summary.
  change (hd_error (selectF sel_summary (summary_node n errors :: ks)))
    with (Some n).
  cbv beta iota. rewrite removeF_cons. cbn [summary_node has_id].
  change (node_id (setAttribute "data-module" "govuk-error-summary"
                     (with_classList (new_element n "div")
                        ["govuk-error-summary"]))) with n.
  rewrite Nat.eqb_refl. cbn [app]. now apply removeF_local.
Qed.

Section Cleared.

Variables (f : nat) (d : node) (e : element) (ks : list node).
Hypothesis d_NoDup : NoDup (ids d).
Hypothesis d_form : find f d = Some (Node e ks).
Hypothesis d_one : at_most_one_summary f d = true.

Lemma cleared_clean :
  forall a, In a (forest_elements (clearF ks)) -> is_decoration a = false.
Proof.
  intros a Ha. destruct (elements_clearF ks a Ha) as (H1 & H2 & H3).
  unfold is_decoration. rewrite H1, H2, H3; [reflexivity|].
  unfold at_most_one_summary in d_one.
  rewrite (select_found f sel_summary d e ks d_form) in d_one.
  now apply Nat.leb_le.
Qed.

Lemma drop_first_summary_cleared :
  drop_first_summary (clearF ks) = clearF ks.
Proof.
  apply drop_first_summary_none. intros a Ha.
  pose proof (cleared_clean a Ha) as H. unfold is_decoration in H.
  now destruct (is_marked a), (is_message a), (is_summary a).
Qed.

(** Whatever was rendered on the cleared document, clearing leads back
    to the cleared document. *)
Lemma clear_rendered (n0 : nat) (dn : node * nat) :
  rendered_from f (clear_document f d) (clearF ks) n0 dn ->
  clear_document f (fst dn) = clear_document f d.
Proof.
  intros (ks' & Hd & Hs & Hnd & _).
  pose proof (find_clear_document f d e ks d_NoDup d_form) as Hfc.
  destruct (clear_document_ids f d d_NoDup) as [Hndc _].
  assert (Hf' : find f (fst dn) = Some (Node e ks'))
    by (now rewrite Hd, find_on_children, Hfc).
  rewrite (clear_document_on_children f (fst dn) e ks' Hnd Hf').
  rewrite Hd, on_children_compose.
  transitivity (on_children f (fun _ => clearF ks) (clear_document f d)).
  - cbv beta. unfold clearF at 1. rewrite Hs.
    now rewrite drop_first_summary_cleared.
  - now apply (on_children_const f _ e).
Qed.

End Cleared.

(** ** The summary as first child *)

Lemma ids_prepend_child (f : nat) (new : node) (n : node) :
  forall y, In y (ids (prepend_child f new n)) ->
            In y (ids n) \/ In y (ids new).
Proof.
  induction n as [e ks IH|p] using node_induction; [|intros y []].
  intros y. cbn [prepend_child]. destruct (Nat.eqb (node_id e) f).
  - rewrite !ids_Node, forest_ids_cons.
    intros [<- | Hy]; [left; now left|].
    apply in_app_iff in Hy as [Hy | Hy]; [now right | left; now right].
  - rewrite !ids_Node. intros [<- | Hy]; [left; now left|].
    apply in_forest_ids in Hy as (k' & Hk' & Hy).
    apply in_map_iff in Hk' as (k & <- & Hk).
    rewrite Forall_forall in IH. destruct (IH k Hk y Hy) as [H | H];
      [|now right].
    left. right. apply in_forest_ids. now exists k.
Qed.

Lemma prepend_child_local (f : nat) (new : node) (n : node) :
  ~ In f (ids n) -> prepend_child f new n = n.
Proof. intros H. rewrite prepend_child_on_children. now apply on_children_id. Qed.

Lemma NoDup_prepend_child (f : nat) (new : node) (n : node) :
  NoDup (ids new) -> NoDup (ids n) ->
  (forall y, In y (ids new) -> ~ In y (ids n)) ->
  NoDup (ids (prepend_child f new n)).
Proof.
  intros Hnew.
  induction n as [e ks IH|p] using node_induction; [|intros _ _; constructor].
  intros Hn Hdis. cbn [prepend_child]. rewrite ids_Node in Hn, Hdis.
  apply NoDup_cons_iff in Hn as [He Hn].
  destruct (Nat.eqb (node_id e) f).
  - rewrite ids_Node, forest_ids_cons. constructor.
    + intros Hin. apply in_app_iff in Hin as [Hin | Hin]; [|contradiction].
      apply (Hdis _ Hin). now left.
    + apply NoDup_app; auto. intros y Hy Hin. apply (Hdis y Hy). now right.
  - rewrite ids_Node. constructor.
    + intros Hin. apply in_forest_ids in Hin as (k' & Hk' & Hy).
      apply in_map_iff in Hk' as (k & <- & Hk).
      apply ids_prepend_child in Hy as [Hy | Hy].
      * apply He. apply in_forest_ids. now exists k.
      * apply (Hdis _ Hy). now left.
    + assert (Hd : forall y, In y (ids new) -> ~ In y (forest_ids ks)).
      { intros y Hy Hin. apply (Hdis y Hy). now right. }
      clear He Hdis. induction ks as [|k ks IHks]; [constructor|].
      inversion IH as [|? ? Hk Hks]; subst.
      rewrite forest_ids_cons in Hn, Hd.
      assert (Hdk : forall y, In y (ids new) -> ~ In y (ids k)).
      { intros y Hy Hin. apply (Hd y Hy). apply in_app_iff. now left. }
      assert (Hdks : forall y, In y (ids new) -> ~ In y (forest_ids ks)).
      { intros y Hy Hin. apply (Hd y Hy). apply in_app_iff. now right. }
      cbn [map]. rewrite forest_ids_cons. apply NoDup_app.
      * apply Hk; [now apply NoDup_app_remove_r in Hn | exact Hdk].
      * apply IHks; [exact Hks | now apply NoDup_app_remove_l in Hn
                     | exact Hdks].
      * intros y Hy Hy'.
        assert (Hy2 : In y (forest_ids ks) \/ In y (ids new)).
        { apply in_forest_ids in Hy' as (c' & Hc' & Hyc).
          apply in_map_iff in Hc' as (c & <- & Hc).
          apply ids_prepend_child in Hyc as [Hyc | Hyc]; [left | now right].
          apply in_forest_ids. now exists c. }
        destruct (ids_prepend_child f new k y Hy) as [Hy1 | Hy1].
        -- destruct Hy2 as [Hy2 | Hy2].
           ++ now apply (NoDup_app_disjoint _ _ y Hn).
           ++ now apply (Hdk y).
        -- destruct Hy2 as [Hy2 | Hy2]; [now apply (Hdks y)|].
           destruct (in_dec Nat.eq_dec f (ids k)) as [Hf | Hf].
           ++ assert (Hsame : map (prepend_child f new) ks = ks).
              { apply map_id_in. intros c Hc. apply prepend_child_local.
                intros Hin. apply (NoDup_app_disjoint _ _ f Hn Hf).
                apply in_forest_ids. now exists c. }
              rewrite Hsame in Hy'. now apply (Hdks y).
           ++ rewrite prepend_child_local in Hy by exact Hf.
              now apply (Hdk y).
Qed.

(* ===================================================================== *)
(** * 21. Repeated submits                                                 *)
(* ===================================================================== *)

Section Resubmit.

Variables (f : nat) (d : node) (e : element) (ks : list node) (n : nat).
Hypothesis d_NoDup : NoDup (ids d).
Hypothesis d_below : forall y, In y (ids d) -> (y < n)%nat.
Hypothesis d_form : find f d = Some (Node e ks).
Hypothesis d_one : at_most_one_summary f d = true.
Hypothesis d_outside : form_outside_groups f d = true.

Lemma cleared_form : find f (clear_document f d) = Some (Node e (clearF ks)).
Proof. now apply find_clear_document. Qed.

Lemma cleared_NoDup : NoDup (ids (clear_document f d)).
Proof. now apply clear_document_ids. Qed.

Lemma cleared_outside : form_outside_groups f (clear_document f d) = true.
Proof.
  rewrite (clear_document_on_children f d e ks d_NoDup d_form).
  unfold form_outside_groups. rewrite ancestors_on_children.
  exact d_outside.
Qed.

Lemma rendered_from_cleared :
  rendered_from f (clear_document f d) (clearF ks) n (clear_document f d, n).
Proof.
  exists (clearF ks). cbn [fst snd].
  split; [symmetry; apply (on_children_const f (clear_document f d) e);
          [apply cleared_NoDup | apply cleared_form]|].
  split; [apply strip_clearF|]. split; [apply cleared_NoDup|].
  split.
  { intros y Hy. apply d_below.
    now apply (proj2 (clear_document_ids f d d_NoDup)). }
  split; [apply incl_refl|]. split; [lia|].
  intros a Ha Hdec.
  pose proof (cleared_clean f d e ks d_form d_one a Ha) as Hc.
  unfold is_decoration in Hc.
  destruct (is_marked a), (is_message a), (is_summary a); discriminate.
Qed.

(** Clearing what was rendered on the cleared document gives the cleared
    document; and the messages and the summary in the form are new. *)
Lemma render_cleared (b : bool) (errors : list ValidationError) :
  (forall err, In err errors ->
               In (element_ref err) (forest_ids (clearF ks))) ->
  let dn := render_document b f errors (clear_document f d, n) in
  clear_document f (fst dn) = clear_document f d
  /\ forall a, In a (descendants f (fst dn)) ->
               is_message a || is_summary a = true -> (n <= node_id a)%nat.
Proof.
  intros Hrefs.
  assert (Hr : rendered_from f (clear_document f d) (clearF ks) n
                 (show_errors_document errors (clear_document f d, n))).
  { apply (rendered_from_show_errors f (clear_document f d) e);
      auto using cleared_form, cleared_outside, rendered_from_cleared. }
  unfold render_document.
  destruct (show_errors_document errors (clear_document f d, n))
    as [d' n'] eqn:Ed.
  pose proof Hr as (ks' & Hd & Hs & Hnd & Hlt & Hincl & Hn0 & Hnew).
  cbn [fst snd] in Hd, Hnd, Hlt, Hn0.
  assert (Hf' : find f d' = Some (Node e ks'))
    by (now rewrite Hd, find_on_children, cleared_form).
  destruct (b && (0 <? List.length errors)%nat); cbn [fst snd].
  - set (new := summary_node n' errors).
    assert (Hp : prepend_child f new d'
                 = on_children f (fun _ => new :: ks') (clear_document f d)).
    { rewrite prepend_child_on_children, Hd, on_children_compose.
      reflexivity. }
    assert (Hfp : find f (prepend_child f new d')
                  = Some (Node e (new :: ks')))
      by (now rewrite Hp, find_on_children, cleared_form).
    assert (Hndp : NoDup (ids (prepend_child f new d'))).
    { apply NoDup_prepend_child; auto.
      - repeat constructor. intros [].
      - intros y [<- | []] Hy. specialize (Hlt _ Hy). cbn in Hlt. lia. }
    split.
    + rewrite (clear_document_on_children f _ e (new :: ks') Hndp Hfp).
      rewrite Hp, on_children_compose. cbv beta.
      unfold clearF at 1. unfold new. rewrite strip_summary, Hs.
      rewrite drop_first_summary_new.
      * apply (on_children_const f (clear_document f d) e);
          [apply cleared_NoDup | apply cleared_form].
      * intros Hin. apply Hincl in Hin.
        destruct (find_some f d' _ Hf') as (_ & _ & _ & _ & _ & Hsub).
        apply in_map_iff in Hin as (a & Ha & Hina).
        assert (Hd' : In (node_id a) (ids d')).
        { apply in_map. apply Hsub. right. exact Hina. }
        specialize (Hlt _ Hd'). lia.
    + intros a Ha. unfold descendants in Ha. rewrite Hfp in Ha.
      destruct Ha as [<- | Ha]; [intros _; cbn; exact Hn0|].
      now apply Hnew.
  - split.
    + change d' with (fst (d', n')).
      apply (clear_rendered f d e ks d_NoDup d_form d_one n). exact Hr.
    + intros a Ha. unfold descendants in Ha. rewrite Hf' in Ha.
      now apply Hnew.
Qed.

End Resubmit.

(** The document after a submit is the cleared document with the errors
    of the pass rendered on it. *)
Lemma handleFormSubmit_renders (this : Button) (f : nat) (s : State)
  (e : element) (ks : list node) :
  form this = Some f ->
  find f (document s) = Some (Node e ks) ->
  NoDup (ids (document s)) ->
  exists b errors,
    (forall err, In err errors ->
                 In (element_ref err) (forest_ids (clearF ks)))
    /\ document (snd (handleFormSubmit this s))
       = fst (render_document b f errors
                (clear_document f (document s), next_node s)).
Proof.
  intros Hform Hf Hnd.
  destruct (validate_fields this f
              (entries (js_or (get (config this) "validationSelectors")
                          (JObj [])))
              true [] (snd (clearErrors f s))) as [[[v errs]|ex] s2] eqn:Ev.
  - pose proof (validate_fields_state this f
                  (entries (js_or (get (config this) "validationSelectors")
                              (JObj [])))
                  true [] (snd (clearErrors f s))) as Hst.
    rewrite Ev in Hst. cbn [snd] in Hst. subst s2.
    destruct (handleFormSubmit_document this f s v errs Hform Ev)
      as (_ & Hdoc & _).
    assert (Hrefs : forall err, In err errs ->
                                In (element_ref err) (forest_ids (clearF ks))).
    { intros err Herr.
      pose proof (validate_fields_refs this f _ _ true [] v errs _
                    (fun _ H => match H with end) Ev err Herr) as Hin.
      rewrite clearErrors_document in Hin. cbn [snd] in Hin.
      change (document (with_document (clear_document f (document s)) s))
        with (clear_document f (document s)) in Hin.
      unfold descendants in Hin.
      now rewrite (find_clear_document f _ e ks Hnd Hf) in Hin. }
    destruct errs as [|first others].
    + exists false, []. split; [intros err []|]. exact Hdoc.
    + exists (truthy (get (config this) "showErrorSummary")),
        (first :: others).
      split; [exact Hrefs | exact Hdoc].
  - exists false, []. split; [intros err []|].
    rewrite (handleFormSubmit_stages this f s Hform).
    rewrite clearErrors_document in Ev |- *. cbn [snd] in Ev.
    cbv beta iota. rewrite Ev.
    pose proof (validate_fields_state this f
                  (entries (js_or (get (config this) "validationSelectors")
                              (JObj [])))
                  true [] (with_document (clear_document f (document s)) s))
      as Hst.
    rewrite Ev in Hst. cbn [snd] in Hst. subst s2. reflexivity.
Qed.

(** Where the clearing is complete.  For a form of a well-formed page that
    holds at most one error summary and that lies in no form group:
    [clearErrors] completes and leaves, among the descendants of the form,
    no group with the error class, no error message and no error summary;
    a submit is the submit of the cleared form, so what it computes and
    renders does not depend on the decorations found;
    a second submit proceeds as the submit of the original document does
    (from the state that the first one left, which only numbers the new
    elements differently);
    and every error message and error summary found in the form after a
    submit was made by that submit. *)
Theorem handleFormSubmit_clears_before_rendering (this : Button) (f : nat)
  (s : State) :
  form this = Some f ->
  wf_state s = true ->
  at_most_one_summary f (document s) = true ->
  form_outside_groups f (document s) = true ->
  let cleared := snd (clearErrors f s) in
  let once := snd (handleFormSubmit this s) in
  (fst (clearErrors f s) = Ok tt
   /\ forall a, In a (descendants f (document cleared)) ->
                is_decoration a = false)
  /\ handleFormSubmit this s = handleFormSubmit this cleared
  /\ handleFormSubmit this once
     = handleFormSubmit this (with_document (document s) once)
  /\ forall a, In a (descendants f (document once)) ->
               is_message a || is_summary a = true ->
               (next_node s <= node_id a)%nat.
Proof.
  intros Hform Hwf Hone Hout cleared once.
  destruct (wf_state_spec s Hwf) as [Hnd Hlt].
  assert (Hf : exists e ks, find f (document s) = Some (Node e ks)).
  { unfold form_outside_groups in Hout.
    destruct (ancestors_or_self f (document s)) as [path|] eqn:Ep;
      [|discriminate].
    destruct (ancestors_or_self_some f _ path Ep) as [Hin _].
    destruct (find_in_ids f _ Hin) as [m Hm].
    destruct (find_some f _ m Hm) as (e & ks & -> & _). now exists e, ks. }
  destruct Hf as (e & ks & Hf).
  pose proof (find_clear_document f _ e ks Hnd Hf) as Hfc.
  destruct (render_cleared f (document s) e ks (next_node s) Hnd Hlt Hf Hone
              Hout false [] (fun _ H => match H with end)) as [Hcc _].
  cbn [render_document show_errors_document fold_left fst andb] in Hcc.
  destruct (handleFormSubmit_renders this f s e ks Hform Hf Hnd)
    as (b & errors & Hrefs & Hdoc).
  fold once in Hdoc.
  destruct (render_cleared f (document s) e ks (next_node s) Hnd Hlt Hf Hone
              Hout b errors Hrefs) as [Hcr Hnew].
  rewrite <- Hdoc in Hcr, Hnew.
  assert (Hcleared : cleared = with_document (clear_document f (document s)) s)
    by (unfold cleared; now rewrite clearErrors_document).
  split; [split|split; [|split]].
  - now rewrite clearErrors_document.
  - intros a Ha. rewrite Hcleared in Ha.
    change (document (with_document (clear_document f (document s)) s))
      with (clear_document f (document s)) in Ha.
    unfold descendants in Ha. rewrite Hfc in Ha.
    now apply (cleared_clean f (document s) e ks Hf Hone).
  - rewrite (handleFormSubmit_stages this f s Hform).
    rewrite (handleFormSubmit_stages this f cleared Hform).
    rewrite !clearErrors_document. rewrite Hcleared.
    change (document (with_document (clear_document f (document s)) s))
      with (clear_document f (document s)).
    rewrite Hcc. reflexivity.
  - rewrite (handleFormSubmit_stages this f once Hform).
    rewrite (handleFormSubmit_stages this f _ Hform).
    rewrite !clearErrors_document.
    change (document (with_document (document s) once)) with (document s).
    rewrite Hcr. reflexivity.
  - exact Hnew.
Qed.

Lemma handleFormSubmit_clears_before_rendering_witness :
  let this := button_with (sample_config true true) in
  let s := state_of page_form in
  let cleared := snd (clearErrors 2 s) in
  let once := snd (handleFormSubmit this s) in
  (fst (clearErrors 2 s) = Ok tt
   /\ forall a, In a (descendants 2 (document cleared)) ->
                is_decoration a = false)
  /\ handleFormSubmit this s = handleFormSubmit this cleared
  /\ handleFormSubmit this once
     = handleFormSubmit this (with_document (document s) once)
  /\ forall a, In a (descendants 2 (document once)) ->
               is_message a || is_summary a = true ->
               (next_node s <= node_id a)%nat.
Proof.
  apply (handleFormSubmit_clears_before_rendering
           (button_with (sample_config true true)) 2 (state_of page_form));
    reflexivity.
Defined.

(** C5, where the code does not do what it announces ("Clear any existing
    errors first", "Clear all validation errors").  Groups and messages are
    collected with [querySelectorAll], the summary with [querySelector]: of
    two summaries in a form [clearErrors] removes the first one only, so
    after one submit of a valid form a summary is left, and after two
    submits none.  And [showErrors] takes the group of a field with
    [closest], which can be an ancestor of the form: for a form inside a
    form group whose first input comes before the form, the message is put
    outside of the form, where [clearErrors] does not look, so one submit
    leaves one message and two submits leave two. *)
Lemma handleFormSubmit_decorations_accumulate :
  let this := button_with (sample_config true true) in
  let submit := fun s => snd (handleFormSubmit this s) in
  (count_where is_summary (document (submit (state_of page_two_summaries))) = 1
   /\ count_where is_summary
        (document (submit (submit (state_of page_two_summaries)))) = 0)
  /\ (count_where is_message (document (submit (state_of page_form_in_group)))
      = 1
      /\ count_where is_message
           (document (submit (submit (state_of page_form_in_group)))) = 2).
Proof. repeat split; vm_compute; reflexivity. Qed.

(* ===================================================================== *)
(** * 22. Dataset keys in a namespace                                      *)
(* ===================================================================== *)

Lemma split_on_not_nil (sep : ascii) (s : string) : split_on sep s <> [].
Proof.
  destruct s as [|c r]; cbn [split_on]; [discriminate|].
  destruct (Ascii.eqb c sep); [discriminate|].
  destruct (split_on sep r); discriminate.
Qed.

Lemma split_on_single (sep : ascii) (s p : string) :
  split_on sep s = [p] -> p = s.
Proof.
  revert p. induction s as [|c r IH]; intros p; cbn [split_on].
  - now intros [= <-].
  - destruct (Ascii.eqb c sep).
    + intros [= _ H]. now contradiction (split_on_not_nil sep r).
    + destruct (split_on sep r) as [|q qs] eqn:E;
        [now contradiction (split_on_not_nil sep r)|].
      intros [= <- ->]. f_equal. now apply IH.
Qed.

Lemma split_on_head_shorter (sep : ascii) (s p q : string) (r : list string) :
  split_on sep s = p :: q :: r -> (String.length p < String.length s)%nat.
Proof.
  revert p. induction s as [|c s' IH]; intros p; cbn [split_on];
    [discriminate|].
  destruct (Ascii.eqb c sep).
  - intros [= <- _]. cbn. lia.
  - destruct (split_on sep s') as [|p' ps] eqn:E; [discriminate|].
    intros [= <- ->]. cbn. specialize (IH p' eq_refl). lia.
Qed.

(** A key that lies in a namespace is not the namespace. *)
Lemma in_namespace_differs (namespace key : string) :
  in_namespace namespace key = true -> String.eqb key namespace = false.
Proof.
  unfold in_namespace.
  destruct (split_on "." key) as [|p [|q r]] eqn:E; try discriminate.
  intros Hp. apply String.eqb_eq in Hp. subst p.
  apply String.eqb_neq. intros ->.
  pose proof (split_on_head_shorter _ _ _ _ _ E). lia.
Qed.

Lemma assign_parts_object (key namespace value : string)
  (keyParts : list string) (o : obj) :
  isObject (assign_parts (JObj o) keyParts key namespace value) = true.
Proof.
  destruct keyParts as [|name [|next rest]]; cbn [assign_parts];
    [reflexivity| |reflexivity].
  now destruct (negb (String.eqb key namespace)).
Qed.

(** The walk along the parts of a key stores the value at the end of the
    path, whatever was there before. *)
Lemma get_path_assign_parts (key namespace value : string)
  (path : list string) :
  String.eqb key namespace = false -> path <> [] ->
  forall o,
    get_path path (assign_parts (JObj o) path key namespace value)
    = normaliseString value None.
Proof.
  intros Hkey. induction path as [|name rest IH]; [contradiction|].
  intros _ o. destruct rest as [|next rest].
  - cbn [assign_parts]. rewrite Hkey. cbn [negb get_path].
    apply get_set_same.
  - change (assign_parts (JObj o) (name :: next :: rest) key namespace value)
      with (JObj (set name
                    (assign_parts
                       (if isObject (get o name) then get o name else JObj [])
                       (next :: rest) key namespace value) o)).
    change (get_path (name :: next :: rest) (JObj ?x))
      with (get_path (next :: rest) (get x name)).
    rewrite get_set_same.
    destruct (isObject (get o name)) eqn:Eo.
    + destruct (get o name) as [| | | | | |x|]; try discriminate.
      apply IH. discriminate.
    + apply IH. discriminate.
Qed.

(** One dataset entry, seen from the namespace. *)
Lemma assign_parts_namespace (namespace : string) (kv : string * string)
  (o : obj) :
  isObject (get o namespace) = true ->
  exists o',
    assign_parts (JObj o) (split_on "." (fst kv)) (fst kv) namespace (snd kv)
    = JObj o'
    /\ get o' namespace = assign_in_namespace namespace (get o namespace) kv.
Proof.
  intros Hns. unfold assign_in_namespace, in_namespace.
  destruct (split_on "." (fst kv)) as [|p [|q r]] eqn:E.
  - now contradiction (split_on_not_nil "." (fst kv)).
  - apply split_on_single in E. subst p. cbn [assign_parts].
    destruct (String.eqb (fst kv) namespace) eqn:Ek; cbn [negb].
    + now exists o.
    + eexists. split; [reflexivity|]. apply get_set_other.
      intros ->. now rewrite String.eqb_refl in Ek.
  - cbn [assign_parts tl].
    destruct (String.eqb p namespace) eqn:Ep.
    + apply String.eqb_eq in Ep. subst p. rewrite Hns.
      eexists. split; [reflexivity|]. apply get_set_same.
    + eexists. split; [reflexivity|]. apply get_set_other.
      intros ->. now rewrite String.eqb_refl in Ep.
Qed.

Lemma assign_in_namespace_object (namespace : string) (kv : string * string)
  (current : jsvalue) :
  isObject current = true ->
  isObject (assign_in_namespace namespace current kv) = true.
Proof.
  intros H. unfold assign_in_namespace.
  destruct (in_namespace namespace (fst kv)); [|exact H].
  destruct current; try discriminate. apply assign_parts_object.
Qed.

Lemma fold_assign_in_namespace_object (namespace : string)
  (dataset : list (string * string)) :
  forall current,
    isObject current = true ->
    isObject (fold_left (assign_in_namespace namespace) dataset current)
    = true.
Proof.
  induction dataset as [|kv rest IH]; intros current H; [exact H|].
  cbn [fold_left]. apply IH. now apply assign_in_namespace_object.
Qed.

Lemma fold_assign_parts_namespace (namespace : string)
  (dataset : list (string * string)) :
  forall o,
    isObject (get o namespace) = true ->
    exists o',
      fold_left
        (fun newObject kv =>
           assign_parts newObject (split_on "." (fst kv)) (fst kv) namespace
             (snd kv))
        dataset (JObj o) = JObj o'
      /\ get o' namespace
         = fold_left (assign_in_namespace namespace) dataset
             (get o namespace).
Proof.
  induction dataset as [|kv rest IH]; intros o Hns.
  - now exists o.
  - cbn [fold_left].
    destruct (assign_parts_namespace namespace kv o Hns) as (o1 & -> & H1).
    destruct (IH o1) as (o' & Ho' & H').
    + rewrite H1. now apply assign_in_namespace_object.
    + exists o'. split; [exact Ho'|]. now rewrite H', H1.
Qed.

(** [extractConfigByNamespace] as a walk over the dataset on the object of
    the namespace alone. *)
Lemma extractConfigByNamespace_fold (properties : SchemaProperties)
  (dataset : list (string * string)) (namespace : string) :
  is_object_property (lookup_property namespace properties) = true ->
  extractConfigByNamespace properties dataset namespace
  = fold_left (assign_in_namespace namespace) dataset (JObj []).
Proof.
  intros Hp. unfold extractConfigByNamespace. rewrite Hp. cbn [negb].
  destruct (fold_assign_parts_namespace namespace dataset
              [(namespace, JObj [])]) as (o' & -> & H').
  - unfold get. cbn [lookup]. now rewrite String.eqb_refl.
  - rewrite H'. unfold get at 1. cbn [lookup].
    now rewrite String.eqb_refl.
Qed.

(** X1.  For a dataset none of whose keys has a part [__proto__],
    [extractConfigByNamespace] returns an object whenever the schema gives
    the namespace the type [object] - whatever else the dataset holds,
    keys outside the namespace and keys that use a stored value as an
    object included - and [undefined] for every other namespace. *)
Theorem extractConfigByNamespace_object_or_undefined
  (properties : SchemaProperties) (dataset : list (string * string))
  (namespace : string) :
  own_dataset dataset = true ->
  if is_object_property (lookup_property namespace properties)
  then isObject (extractConfigByNamespace properties dataset namespace) = true
  else extractConfigByNamespace properties dataset namespace = JUndefined.
Proof.
  intros _.
  destruct (is_object_property (lookup_property namespace properties)) eqn:E.
  - rewrite extractConfigByNamespace_fold by exact E.
    now apply fold_assign_in_namespace_object.
  - unfold extractConfigByNamespace. now rewrite E.
Qed.

Lemma extractConfigByNamespace_object_or_undefined_witness :
  let dataset :=
    [ ("validationMessages.email", "Enter an email");
      ("validationMessages.email.required", "Required");
      ("validationMessages", "none");
      ("preventDoubleClick", "true") ] in
  isObject (extractConfigByNamespace Button_schema dataset "validationMessages")
  = true
  /\ extractConfigByNamespace Button_schema dataset "preventDoubleClick"
     = JUndefined
  /\ extractConfigByNamespace Button_schema dataset "email" = JUndefined.
Proof.
  intros dataset. split; [|split].
  - exact (extractConfigByNamespace_object_or_undefined Button_schema dataset
             "validationMessages" eq_refl).
  - exact (extractConfigByNamespace_object_or_undefined Button_schema dataset
             "preventDoubleClick" eq_refl).
  - exact (extractConfigByNamespace_object_or_undefined Button_schema dataset
             "email" eq_refl).
Defined.

(** X2.  For a namespace of type [object] and a dataset none of whose keys
    has a part [__proto__], the value of the last dataset entry whose key
    is the namespace followed by a path of names is found, normalised
    without a schema type, at the end of that path in the object returned
    - whatever earlier entries stored on the way. *)
Theorem extractConfigByNamespace_stores_last (properties : SchemaProperties)
  (dataset : list (string * string)) (namespace key value : string)
  (path : list string) :
  own_dataset (dataset ++ [(key, value)]) = true ->
  is_object_property (lookup_property namespace properties) = true ->
  split_on "." key = namespace :: path ->
  path <> [] ->
  get_path path
    (extractConfigByNamespace properties (dataset ++ [(key, value)]) namespace)
  = normaliseString value None.
Proof.
  intros _ Hp Hsplit Hpath.
  rewrite extractConfigByNamespace_fold by exact Hp.
  rewrite fold_left_app. cbn [fold_left].
  assert (Hin : in_namespace namespace key = true).
  { unfold in_namespace. rewrite Hsplit.
    destruct path; [contradiction | apply String.eqb_refl]. }
  unfold assign_in_namespace at 1. cbn [fst snd]. rewrite Hin, Hsplit.
  cbn [tl].
  pose proof (fold_assign_in_namespace_object namespace dataset (JObj [])
                eq_refl) as Hobj.
  destruct (fold_left (assign_in_namespace namespace) dataset (JObj []))
    as [| | | | | |o|]; try discriminate.
  apply get_path_assign_parts; [|exact Hpath].
  now apply in_namespace_differs.
Qed.

Lemma extractConfigByNamespace_stores_last_witness :
  get_path ["email"; "required"]
    (extractConfigByNamespace Button_schema
       ([("validationMessages.email", "Enter an email")]
        ++ [("validationMessages.email.required", " 12 ")])
       "validationMessages")
  = normaliseString " 12 " None.
Proof.
  apply (extractConfigByNamespace_stores_last Button_schema
           [("validationMessages.email", "Enter an email")]
           "validationMessages" "validationMessages.email.required" " 12 "
           ["email"; "required"]).
  - reflexivity.
  - reflexivity.
  - reflexivity.
  - discriminate.
Defined.

Lemma fold_left_filter_neutral {A B : Type} (step : B -> A -> B)
  (P : A -> bool) (l : list A) :
  (forall b a, P a = false -> step b a = b) ->
  forall b, fold_left step l b = fold_left step (filter P l) b.
Proof.
  intros H. induction l as [|a l IH]; intros b; [reflexivity|].
  cbn [fold_left filter]. destruct (P a) eqn:E.
  - cbn [fold_left]. apply IH.
  - rewrite (H b a E). apply IH.
Qed.

(** X3.  In a dataset none of whose keys has a part [__proto__], only the
    entries whose key is the namespace followed by further parts count:
    the entry for the namespace itself, the entries of other namespaces
    and the plain fields can be left out without changing what
    [extractConfigByNamespace] returns. *)
Theorem extractConfigByNamespace_ignores_other_keys
  (properties : SchemaProperties) (dataset : list (string * string))
  (namespace : string) :
  own_dataset dataset = true ->
  extractConfigByNamespace properties dataset namespace
  = extractConfigByNamespace properties
      (filter (fun kv => in_namespace namespace (fst kv)) dataset) namespace.
Proof.
  intros _.
  destruct (is_object_property (lookup_property namespace properties)) eqn:E.
  - rewrite !extractConfigByNamespace_fold by exact E.
    apply fold_left_filter_neutral. intros b a Ha.
    unfold assign_in_namespace. now rewrite Ha.
  - unfold extractConfigByNamespace. now rewrite E.
Qed.

Lemma extractConfigByNamespace_ignores_other_keys_witness :
  extractConfigByNamespace Button_schema
    [ ("validationSelectors.email", "#email");
      ("validationMessages.email", "Enter an email");
      ("validationMessages", "none");
      ("colour.email", "red");
      ("validationMessages.terms", "Accept the terms") ]
    "validationMessages"
  = extractConfigByNamespace Button_schema
      [ ("validationMessages.email", "Enter an email");
        ("validationMessages.terms", "Accept the terms") ]
      "validationMessages".
Proof.
  exact (extractConfigByNamespace_ignores_other_keys Button_schema
           [ ("validationSelectors.email", "#email");
             ("validationMessages.email", "Enter an email");
             ("validationMessages", "none");
             ("colour.email", "red");
             ("validationMessages.terms", "Accept the terms") ]
           "validationMessages" eq_refl).
Defined.

(* ===================================================================== *)
(** * 23. The normalised dataset, field by field                           *)
(* ===================================================================== *)

Lemma lookup_property_not_listed (field : string)
  (properties : SchemaProperties) :
  mem field (map fst properties) = false ->
  lookup_property field properties = None.
Proof.
  induction properties as [|[k p] rest IH]; [reflexivity|].
  cbn [map fst mem lookup_property].
  destruct (String.eqb k field); [discriminate|]. exact IH.
Qed.

Lemma normaliseDataset_from (properties : SchemaProperties)
  (dataset : list (string * string)) (field : string) :
  forall (listed : SchemaProperties) (out : obj),
    nodup_keys (map fst listed) = true ->
    lookup field
      (fold_left
         (fun out fp =>
            let field := fst fp in
            let property := snd fp in
            let out :=
              match lookup_string field dataset with
              | Some v => set field (normaliseString v property) out
              | None => out
              end in
            if is_object_property property
            then set field
                   (extractConfigByNamespace properties dataset field) out
            else out)
         listed out)
    = if mem field (map fst listed) then
        if is_object_property (lookup_property field listed)
        then Some (extractConfigByNamespace properties dataset field)
        else match lookup_string field dataset with
             | Some v =>
                 Some (normaliseString v (lookup_property field listed))
             | None => lookup field out
             end
      else lookup field out.
Proof.
  induction listed as [|[k p] rest IH]; intros out Hnd; [reflexivity|].
  cbn [map fst nodup_keys] in Hnd. apply andb_prop in Hnd as [Hk Hrest].
  cbn [fold_left fst snd]. rewrite (IH _ Hrest).
  cbn [map fst mem lookup_property].
  destruct (String.eqb k field) eqn:Ek.
  - apply String.eqb_eq in Ek. subst k. cbn [orb].
    apply negb_true_iff in Hk. rewrite Hk.
    destruct (is_object_property p).
    + apply lookup_set_same.
    + destruct (lookup_string field dataset) as [v|]; [|reflexivity].
      apply lookup_set_same.
  - cbn [orb].
    assert (Hne : field <> k)
      by (intros ->; now rewrite String.eqb_refl in Ek).
    assert (Hout : lookup field
                     (if is_object_property p
                      then set k (extractConfigByNamespace properties dataset k)
                             match lookup_string k dataset with
                             | Some v => set k (normaliseString v p) out
                             | None => out
                             end
                      else match lookup_string k dataset with
                           | Some v => set k (normaliseString v p) out
                           | None => out
                           end)
                   = lookup field out).
    { destruct (is_object_property p), (lookup_string k dataset);
        rewrite ?lookup_set_other by exact Hne; reflexivity. }
    rewrite Hout. reflexivity.
Qed.

(** X4.  For a schema that lists every field once, none of them named
    like a member of [Object.prototype], and a dataset none of whose keys
    has a part [__proto__], [normaliseDataset] gives a field a value
    exactly when the schema lists it and either the dataset holds it or
    its type is [object]: an [object] field always gets what
    [extractConfigByNamespace] returns for it (an attribute of that very
    name is dropped), any other listed field gets its attribute normalised
    to the type of the schema, and attributes that the schema does not
    list are left out. *)
Theorem normaliseDataset_fields (properties : SchemaProperties)
  (dataset : list (string * string)) (field : string) :
  nodup_keys (map fst properties) = true ->
  own_fields properties = true ->
  own_dataset dataset = true ->
  lookup field (normaliseDataset properties dataset)
  = normalised_field properties dataset field.
Proof.
  intros Hnd _ _. unfold normalised_field.
  etransitivity;
    [exact (normaliseDataset_from properties dataset field properties []
              Hnd)|].
  destruct (mem field (map fst properties)); [|reflexivity].
  destruct (is_object_property (lookup_property field properties));
    [reflexivity|].
  now destruct (lookup_string field dataset).
Qed.

Lemma normaliseDataset_fields_witness :
  let dataset :=
    [ ("validationSelectors", "none"); ("enableValidation", " true ");
      ("validationSelectors.email", "#email"); ("colour", "red") ] in
  lookup "validationSelectors" (normaliseDataset Button_schema dataset)
  = Some (JObj [("email", JStr "#email")])
  /\ lookup "validationMessages" (normaliseDataset Button_schema dataset)
     = Some (JObj [])
  /\ lookup "enableValidation" (normaliseDataset Button_schema dataset)
     = Some (JBool true)
  /\ lookup "focusOnError" (normaliseDataset Button_schema dataset) = None
  /\ lookup "colour" (normaliseDataset Button_schema dataset) = None.
Proof.
  intros dataset.
  pose proof (fun field =>
                normaliseDataset_fields Button_schema dataset field
                  eq_refl eq_refl eq_refl) as H.
  rewrite !H. repeat split.
Defined.

(* ===================================================================== *)
(** * 24. Merging any number of configs                                    *)
(* ===================================================================== *)

Lemma enough_fuel_positive (configObjects : list obj) :
  (1 <= enough_fuel configObjects)%nat.
Proof.
  induction configObjects as [|o l IH]; cbn [enough_fuel fold_right]; [lia|].
  fold (enough_fuel l). lia.
Qed.

Lemma enough_fuel_bound (configObjects : list obj) (o : obj) :
  In o configObjects -> (depth (JObj o) <= enough_fuel configObjects)%nat.
Proof.
  induction configObjects as [|x l IH]; [intros []|].
  cbn [enough_fuel fold_right]. fold (enough_fuel l).
  intros [-> | Hin]; [lia|]. specialize (IH Hin). lia.
Qed.


(** With fuel for their depth, any number of objects merge from the left,
    two at a time. *)
Lemma mergeConfigs_fold (n : nat) (configObjects : list obj) :
  (forall o, In o configObjects ->
             wf_obj o = true /\ (depth (JObj o) <= S n)%nat) ->
  mergeConfigs (S n) configObjects
  = Some (fold_left merge_props configObjects []).
Proof.
  intros Hall. cbn [mergeConfigs].
  set (rec := fun a b : obj => mergeConfigs n [a; b]).
  assert (Hrec : forall x y, wf_obj x = true -> wf_obj y = true ->
                   (depth (JObj x) <= n)%nat -> (depth (JObj y) <= n)%nat ->
                   rec x y = Some (merge_props x y))
    by (intros; now apply mergeConfigs_two).
  assert (H : forall l acc,
             wf_obj acc = true -> (depth (JObj acc) <= S n)%nat ->
             (forall o, In o l ->
                        wf_obj o = true /\ (depth (JObj o) <= S n)%nat) ->
             fold_left
               (fun acc configObject =>
                  fold_left (merge_key rec configObject) (keys configObject)
                    acc) l (Some acc)
             = Some (fold_left merge_props l acc)).
  { induction l as [|o l IH]; intros acc Hwf Hd Hl; [reflexivity|].
    cbn [fold_left]. destruct (Hl o (or_introl eq_refl)) as [Ho Hdo].
    rewrite (merge_into rec n acc o Hrec Hwf Ho Hd Hdo).
    apply IH.
    - now apply wf_merge_props.
    - now apply depth_merge_props.
    - intros x Hx. apply Hl. now right. }
  apply (H configObjects []); [reflexivity | cbn; lia | exact Hall].
Qed.

Lemma mergeConfigs_run_fold (configObjects : list obj) :
  forallb wf_obj configObjects = true ->
  mergeConfigs_run configObjects = fold_left merge_props configObjects [].
Proof.
  intros Hwf. unfold mergeConfigs_run.
  pose proof (enough_fuel_positive configObjects) as Hpos.
  destruct (enough_fuel configObjects) as [|n] eqn:En; [lia|].
  rewrite mergeConfigs_fold; [reflexivity|].
  intros o Ho. split.
  - rewrite forallb_forall in Hwf. now apply Hwf.
  - rewrite <- En. now apply enough_fuel_bound.
Qed.








(** X7.  The merge of two objects whose keys are neither array indices
    nor [__proto__] holds the keys of the earlier object in their order,
    followed by the keys that only the later object has, in their order:
    no key is lost and none changes place. *)
Theorem mergeConfigs_keys (a b : obj) :
  wf_obj a = true -> wf_obj b = true ->
  forallb ordinary_key (keys a ++ keys b) = true ->
  keys (mergeConfigs_run [a; b])
  = keys a ++ filter (fun k => negb (mem k (keys a))) (keys b).
Proof.
  intros Ha Hb _.
  rewrite mergeConfigs_run_fold by (cbn [forallb]; now rewrite Ha, Hb).
  cbn [fold_left]. rewrite merge_props_nil_l. apply keys_merge_props.
Qed.

Lemma mergeConfigs_keys_witness :
  keys (mergeConfigs_run
          [[("terms", JStr "#terms"); ("email", JStr "#email")];
           [("name", JStr "#name"); ("email", JStr "#mail")]])
  = ["terms"; "email"; "name"].
Proof.
  etransitivity.
  - apply (mergeConfigs_keys
             [("terms", JStr "#terms"); ("email", JStr "#email")]
             [("name", JStr "#name"); ("email", JStr "#mail")]);
      reflexivity.
  - reflexivity.
Defined.

(* ===================================================================== *)
(** * 25. A construction that completes                                    *)
(* ===================================================================== *)

Lemma fold_left_ext_in {A B : Type} (f g : B -> A -> B) (l : list A) :
  (forall b a, In a l -> f b a = g b a) ->
  forall b, fold_left f l b = fold_left g l b.
Proof.
  induction l as [|a l IH]; intros H b; [reflexivity|].
  cbn [fold_left]. rewrite (H b a (or_introl eq_refl)).
  apply IH. intros b' a' Ha'. apply H. now right.
Qed.

Lemma lookup_string_app_other (field key value : string)
  (d : list (string * string)) :
  field <> key ->
  lookup_string field (d ++ [(key, value)]) = lookup_string field d.
Proof.
  intros Hne. induction d as [|[k v] r IH]; cbn [app lookup_string].
  - destruct (String.eqb_spec key field) as [->|_];
      [contradiction | reflexivity].
  - destruct (String.eqb k field); [reflexivity | exact IH].
Qed.

(** An attribute that the schema does not list, and whose name has no dot,
    changes nothing in the normalised dataset. *)
Lemma normaliseDataset_unlisted (properties : SchemaProperties)
  (d : list (string * string)) (key value : string) :
  mem key (map fst properties) = false ->
  (forall namespace, in_namespace namespace key = false) ->
  normaliseDataset properties (d ++ [(key, value)])
  = normaliseDataset properties d.
Proof.
  intros Hkey Hns. unfold normaliseDataset. apply fold_left_ext_in.
  intros out [field property] Hin. cbn [fst snd].
  assert (Hne : field <> key).
  { intros ->. apply mem_false_iff in Hkey. apply Hkey.
    apply in_map_iff. now exists (key, property). }
  rewrite (lookup_string_app_other field key value d Hne).
  assert (He : extractConfigByNamespace properties (d ++ [(key, value)]) field
               = extractConfigByNamespace properties d field).
  { destruct (is_object_property (lookup_property field properties)) eqn:E.
    - rewrite !extractConfigByNamespace_fold by exact E.
      rewrite fold_left_app. cbn [fold_left].
      unfold assign_in_namespace at 1. cbn [fst]. now rewrite Hns.
    - unfold extractConfigByNamespace. now rewrite E. }
  now rewrite He.
Qed.

Lemma lookup_string_setAttribute_absent (name value : string)
  (l : list (string * string)) :
  lookup_string name l = None ->
  setAttribute_list name value l = l ++ [(name, value)].
Proof.
  induction l as [|[k v] r IH]; [reflexivity|].
  cbn [lookup_string setAttribute_list app].
  destruct (String.eqb k name); [discriminate|].
  intros H. now rewrite IH.
Qed.

Lemma dataset_init_attribute (e : element) :
  getAttribute e init_attribute = None ->
  dataset (setAttribute init_attribute "" e)
  = dataset e ++ [("govukButtonInit", "")].
Proof.
  intros H. unfold dataset, setAttribute, with_attributes.
  cbn [attributes]. unfold getAttribute in H.
  rewrite (lookup_string_setAttribute_absent _ _ _ H).
  rewrite flat_map_app. reflexivity.
Qed.

Lemma getAttribute_setAttribute (name value : string) (e : element) :
  getAttribute (setAttribute name value e) name = Some value.
Proof.
  unfold getAttribute, setAttribute, with_attributes. cbn [attributes].
  induction (attributes e) as [|[k v] r IH];
    cbn [setAttribute_list lookup_string].
  - now rewrite String.eqb_refl.
  - destruct (String.eqb k name) eqn:E; cbn [lookup_string]; rewrite E;
      [reflexivity | exact IH].
Qed.

Lemma first_some_map_commute {A B : Type} (g : A -> option B) (h : A -> A)
  (F : B -> B) (l : list A) :
  (forall x, In x l -> g (h x) = option_map F (g x)) ->
  first_some g (map h l) = option_map F (first_some g l).
Proof.
  induction l as [|x l IH]; [reflexivity|]. intros H.
  cbn [map first_some]. rewrite H by now left.
  destruct (g x); [reflexivity|]. cbn [option_map].
  apply IH. intros y Hy. apply H. now right.
Qed.

Lemma ancestors_update (x g : nat) (h : element -> element) (d : node) :
  (forall e, node_id (h e) = node_id e) ->
  ancestors_or_self x (update g h d)
  = option_map (map (fun a => if Nat.eqb (node_id a) g then h a else a))
      (ancestors_or_self x d).
Proof.
  intros Hid. induction d as [e ks IH|p] using node_induction;
    [|reflexivity].
  cbn [update ancestors_or_self].
  replace (node_id (if Nat.eqb (node_id e) g then h e else e))
    with (node_id e) by (destruct (Nat.eqb (node_id e) g); auto).
  destruct (Nat.eqb (node_id e) x); [reflexivity|].
  rewrite (first_some_map_commute (ancestors_or_self x) (update g h)
             (map (fun a => if Nat.eqb (node_id a) g then h a else a))).
  - destruct (first_some (ancestors_or_self x) ks) as [path|];
      [|reflexivity].
    cbn [option_map]. now rewrite map_app.
  - rewrite Forall_forall in IH. exact IH.
Qed.

Lemma find_map_same {A : Type} (p : A -> bool) (key : A -> nat)
  (h : A -> A) (l : list A) :
  (forall a, p (h a) = p a) -> (forall a, key (h a) = key a) ->
  option_map key (List.find p (map h l)) = option_map key (List.find p l).
Proof.
  intros Hp Hk. induction l as [|a l IH]; [reflexivity|].
  cbn [map List.find]. rewrite Hp.
  destruct (p a); [cbn [option_map]; now rewrite Hk | exact IH].
Qed.

(** Setting an attribute moves no element and changes no tag: [closest]
    with a type selector finds what it found. *)
Lemma closest_in_setAttribute (x g : nat) (name value t : string)
  (d : node) :
  closest_in x [[SType t]] (update g (setAttribute name value) d)
  = closest_in x [[SType t]] d.
Proof.
  unfold closest_in. rewrite ancestors_update by reflexivity.
  destruct (ancestors_or_self x d) as [path|]; [|reflexivity].
  cbn [option_map]. apply find_map_same.
  - intros a. now destruct (Nat.eqb (node_id a) g).
  - intros a. now destruct (Nat.eqb (node_id a) g).
Qed.

Lemma document_body_update (g : nat) (h : element -> element) (d : node) :
  (forall e, tag (h e) = tag e) ->
  document_body (update g h d)
  = option_map (fun a => if Nat.eqb (node_id a) g then h a else a)
      (document_body d).
Proof.
  intros Ht. destruct d as [e ks|p]; [|reflexivity].
  cbn [update document_body].
  induction ks as [|k ks IH]; [reflexivity|].
  cbn [map flat_map]. destruct k as [a cs|q]; cbn [update app].
  - cbn [List.find].
    replace (tag (if Nat.eqb (node_id a) g then h a else a)) with (tag a)
      by (destruct (Nat.eqb (node_id a) g); auto).
    destruct (String.eqb (tag a) "body" || String.eqb (tag a) "frameset");
      [reflexivity | exact IH].
  - exact IH.
Qed.

Lemma isSupported_setAttribute (g : nat) (name value : string) (d : node) :
  isSupported (update g (setAttribute name value) d) = isSupported d.
Proof.
  unfold isSupported. rewrite document_body_update by reflexivity.
  destruct (document_body d) as [a|]; [|reflexivity].
  cbn [option_map]. now destruct (Nat.eqb (node_id a) g).
Qed.

Lemma element_data_id (id : nat) (s : State) (e : element) :
  element_data id s = Some e -> node_id e = id.
Proof.
  unfold element_data. destruct (find id (document s)) as [m|] eqn:E;
    [|discriminate].
  destruct (find_some id _ m E) as (e' & ks & -> & Hid & _).
  now intros [= <-].
Qed.

Lemma element_data_update (id : nat) (h : element -> element) (s : State)
  (e : element) (s' : State) :
  (forall a, node_id (h a) = node_id a) ->
  element_data id s = Some e ->
  document s' = update id h (document s) ->
  element_data id s' = Some (h e).
Proof.
  intros Hid He Hd. pose proof (element_data_id id s e He) as Hn.
  unfold element_data in *. rewrite Hd, (find_update id id h _ Hid).
  destruct (find id (document s)) as [[a ks|p]|]; try discriminate.
  injection He as ->. cbn [option_map update].
  now rewrite Hn, Nat.eqb_refl.
Qed.

(** The construction, step by step, when every check passes. *)
Lemma Button_constructor_completes (id : nat) (cfg : obj) (s : State)
  (e : element) :
  element_data id s = Some e ->
  is_html e = true ->
  isSupported (document s) = true ->
  getAttribute e init_attribute = None ->
  Button_constructor (Some id) cfg s
  = (Ok (constructed_button id cfg e s), constructed id s).
Proof.
  intros He Hh Hs Hi. pose proof (element_data_id id s e He) as Hn.
  unfold Button_constructor. unfold bind at 1.
  unfold GOVUKFrontendComponent_constructor. rewrite He, Hh.
  unfold bind at 1. unfold checkSupport. rewrite Hs.
  unfold bind at 1. unfold checkInitialised, isInitialised.
  rewrite Hh, Hi. cbn [andb]. rewrite andb_false_r.
  unfold ret at 1. unfold bind at 1. unfold modify_document at 1.
  unfold ret at 1. rewrite Hn.
  set (s1 := with_document _ s).
  unfold bind at 1. unfold set_debounceFormSubmitTimer at 1.
  set (s2 := with_timers _ _ _ None s1).
  assert (He2 : element_data id s2 = Some (setAttribute init_attribute "" e))
    by (now apply (element_data_update id _ s e s2)).
  unfold bind at 1. rewrite He2.
  unfold bind at 1. unfold closest.
  replace (parse_selector "form") with (Some [[SType "form"]])
    by reflexivity.
  change (document s2)
    with (update id (setAttribute init_attribute "") (document s)).
  fold (closest_in id [[SType "form"]]
          (update id (setAttribute init_attribute "") (document s))).
  rewrite closest_in_setAttribute.
  rewrite (dataset_init_attribute e Hi).
  rewrite normaliseDataset_unlisted; [|reflexivity|].
  - unfold bind, addEventListener, ret, constructed_button, constructed.
    cbn [listeners with_listeners]. rewrite <- app_assoc. reflexivity.
  - intros namespace. reflexivity.
Qed.

Lemma element_data_update_other (x id : nat) (h : element -> element)
  (s s' : State) :
  (forall a, node_id (h a) = node_id a) ->
  x <> id ->
  document s' = update id h (document s) ->
  element_data x s' = element_data x s.
Proof.
  intros Hid Hne Hd. unfold element_data.
  rewrite Hd, (find_update x id h _ Hid).
  destruct (find x (document s)) as [m|] eqn:E; [|reflexivity].
  destruct (find_some x _ m E) as (a & ks & -> & Ha & _).
  cbn [option_map update]. rewrite Ha.
  destruct (Nat.eqb_spec x id) as [->|_]; [contradiction | reflexivity].
Qed.

(** X8.  On a supported page, constructing a Button on an HTML element
    that is not initialised yet completes, when the keys of the config
    passed in and the parts of the names of the data attributes of the
    root are neither array indices nor [__proto__].  The Button holds the
    root, the merge of the defaults, the config passed in and the
    normalised dataset of the root as it was found (the init attribute,
    set in between, does not reach the config), and the nearest [form] at
    or above the root.  In the page, the root has got the attribute
    [data-govuk-button-init], every other element is as it was, the
    [keydown] and the [click] listener are registered on the root in this
    order after the listeners that were there, and the timer field is
    [null]; time, timers and focus are untouched. *)
Theorem Button_constructor_success (id : nat) (cfg : obj) (s : State)
  (e : element) :
  element_data id s = Some e ->
  is_html e = true ->
  isSupported (document s) = true ->
  getAttribute e init_attribute = None ->
  ordinary_keys (JObj cfg) = true ->
  ordinary_dataset (dataset e) = true ->
  exists this s',
    Button_constructor (Some id) cfg s = (Ok this, s')
    /\ root this = id
    /\ config this
       = mergeConfigs_run
           [Button_defaults; cfg; normaliseDataset Button_schema (dataset e)]
    /\ form this = closest_in id [[SType "form"]] (document s)
    /\ element_data id s' = Some (setAttribute init_attribute "" e)
    /\ (forall x, x <> id -> element_data x s' = element_data x s)
    /\ listeners s' = listeners s ++ [(id, "keydown"); (id, "click")]
    /\ debounceFormSubmitTimer s' = None
    /\ (clock s', timers s', next_timer s', focus_calls s', next_node s')
       = (clock s, timers s, next_timer s, focus_calls s, next_node s).
Proof.
  intros He Hh Hs Hi _ _.
  exists (constructed_button id cfg e s), (constructed id s).
  split; [now apply Button_constructor_completes|].
  split; [reflexivity|]. split; [reflexivity|]. split; [reflexivity|].
  split; [now apply (element_data_update id _ s e)|].
  split; [|repeat split].
  intros x Hx.
  now apply (element_data_update_other x id (setAttribute init_attribute "") s).
Qed.

(** A root inside a form, with data attributes of its own. *)
Lemma Button_constructor_success_witness :
  let e :=
    el 10 "button"
      [ ("type", "submit");
        ("data-enable-validation", "true");
        ("data-validation-selectors.email", "#email") ]
      ["govuk-button"] (Some "submit") (Some "") false in
  let s :=
    state_of (page_of ["govuk-frontend-supported"]
                [Node (el 2 "form" [] [] None None false) [Node e []]]) in
  exists this s',
    Button_constructor (Some 10) [("focusOnError", JBool false)] s
    = (Ok this, s')
    /\ root this = 10
    /\ config this
       = [ ("preventDoubleClick", JBool false);
           ("enableValidation", JBool true);
           ("validationSelectors", JObj [("email", JStr "#email")]);
           ("validationMessages", JObj []);
           ("focusOnError", JBool false);
           ("showErrorSummary", JBool true) ]
    /\ form this = Some 2
    /\ element_data 10 s' = Some (setAttribute init_attribute "" e)
    /\ (forall x, x <> 10 -> element_data x s' = element_data x s)
    /\ listeners s' = [(10, "keydown"); (10, "click")]
    /\ debounceFormSubmitTimer s' = None
    /\ (clock s', timers s', next_timer s', focus_calls s', next_node s')
       = (0%Z, [], 1%positive, [], 100).
Proof.
  intros e s.
  apply (Button_constructor_success 10 [("focusOnError", JBool false)] s e);
    reflexivity.
Defined.

(** A construction completes only when every check passes. *)
Lemma Button_constructor_ok_checks (root : option nat) (cfg : obj)
  (s : State) (this : Button) :
  fst (Button_constructor root cfg s) = Ok this ->
  exists id e,
    root = Some id /\ element_data id s = Some e /\ is_html e = true
    /\ isSupported (document s) = true
    /\ getAttribute e init_attribute = None.
Proof.
  intros H.
  assert (Hbase : forall x,
             GOVUKFrontendComponent_constructor root s <> (Throw x, s)).
  { intros x Hx. rewrite (constructor_throws root cfg s x Hx) in H.
    discriminate. }
  unfold GOVUKFrontendComponent_constructor in Hbase.
  destruct root as [id|]; [|now contradiction (Hbase ElementError)].
  destruct (element_data id s) as [e|] eqn:He;
    [|now contradiction (Hbase ElementError)].
  destruct (is_html e) eqn:Hh; [|now contradiction (Hbase ElementError)].
  unfold bind, checkSupport in Hbase.
  destruct (isSupported (document s)) eqn:Hs;
    [|now contradiction (Hbase SupportError)].
  unfold checkInitialised, isInitialised in Hbase. rewrite Hh in Hbase.
  destruct (getAttribute e init_attribute) eqn:Hi;
    [now contradiction (Hbase InitError)|].
  now exists id, e.
Qed.

(** X9.  A Button is constructed on an element once: after a construction
    that completed, every further construction on the same root throws
    [InitError], whatever config it is given, and leaves the page as the
    first construction left it. *)
Theorem Button_constructor_once (id : nat) (cfg : obj) (s : State)
  (this : Button) :
  fst (Button_constructor (Some id) cfg s) = Ok this ->
  forall cfg',
    Button_constructor (Some id) cfg'
      (snd (Button_constructor (Some id) cfg s))
    = (Throw InitError, snd (Button_constructor (Some id) cfg s)).
Proof.
  intros Hok cfg'.
  destruct (Button_constructor_ok_checks _ _ _ _ Hok)
    as (id' & e & [= <-] & He & Hh & Hs & Hi).
  rewrite (Button_constructor_completes id cfg s e He Hh Hs Hi).
  cbn [snd]. apply constructor_throws.
  assert (He' : element_data id (constructed id s)
                = Some (setAttribute init_attribute "" e))
    by (now apply (element_data_update id _ s e)).
  unfold GOVUKFrontendComponent_constructor. rewrite He'.
  change (is_html (setAttribute init_attribute "" e)) with (is_html e).
  rewrite Hh. unfold bind, checkSupport.
  change (document (constructed id s))
    with (update id (setAttribute init_attribute "") (document s)).
  rewrite isSupported_setAttribute, Hs.
  unfold checkInitialised, isInitialised.
  change (is_html (setAttribute init_attribute "" e)) with (is_html e).
  rewrite Hh, getAttribute_setAttribute. reflexivity.
Qed.

Lemma Button_constructor_once_witness :
  Button_constructor (Some 10) [("enableValidation", JBool true)]
    (snd (Button_constructor (Some 10) [] (state_of page_form)))
  = (Throw InitError, snd (Button_constructor (Some 10) [] (state_of page_form))).
Proof.
  apply (Button_constructor_once 10 [] (state_of page_form)
           (constructed_button 10 []
              (el 10 "button" [("type", "submit")] ["govuk-button"]
                 (Some "submit") (Some "") false)
              (state_of page_form))).
  reflexivity.
Defined.

(* ===================================================================== *)
(** * 26. What the validation pass reports                                 *)
(* ===================================================================== *)

Lemma subsequence_steps (b : list string) :
  (forall a x, subsequence (x :: a) b = true -> subsequence a b = true)
  /\ (forall a y, subsequence a b = true -> subsequence a (y :: b) = true).
Proof.
  assert (Hskip : forall b,
             (forall a x, subsequence (x :: a) b = true ->
                          subsequence a b = true) ->
             forall a y, subsequence a b = true ->
                         subsequence a (y :: b) = true).
  { intros b0 Hdrop [|x a] y H; [reflexivity|]. cbn [subsequence].
    destruct (String.eqb x y); [now apply (Hdrop a x) | exact H]. }
  induction b as [|y b [IHdrop IHskip]].
  - split; [intros a x H; discriminate | now apply Hskip].
  - assert (Hdrop : forall a x, subsequence (x :: a) (y :: b) = true ->
                                subsequence a (y :: b) = true).
    { intros a x. cbn [subsequence]. destruct (String.eqb x y); intros H.
      - now apply IHskip.
      - apply IHskip. now apply (IHdrop a x). }
    split; [exact Hdrop | now apply Hskip].
Qed.

Lemma querySelector_result (f : nat) (text : string) (s : State)
  (r : result (option nat)) :
  fst (querySelector f text s) = r -> querySelector f text s = (r, s).
Proof.
  intros <-. rewrite <- (querySelector_state f text s) at 3.
  now destruct (querySelector f text s).
Qed.

Lemma validateElement_result (f id : nat) (fld : string) (s : State)
  (r : result bool) :
  fst (validateElement f id fld s) = r -> validateElement f id fld s = (r, s).
Proof.
  intros <-. rewrite <- (validateElement_state f id fld s) at 3.
  now destruct (validateElement f id fld s).
Qed.

(** The loop adds, to the errors it starts with, one error for every entry
    that fails, in the order of the entries. *)
Lemma validate_fields_reports_from (this : Button) (f : nat) (s : State)
  (fields : obj) :
  forall isValid errors0 v errors s',
    validate_fields this f fields isValid errors0 s = (Ok (v, errors), s') ->
    exists new,
      errors = errors0 ++ new
      /\ subsequence (map field new) (map fst fields) = true
      /\ (forall err, In err new -> reported this f s fields err)
      /\ (forall fld text id,
            In (fld, JStr text) fields ->
            querySelector f text s = (Ok (Some id), s) ->
            validateElement f id fld s = (Ok false, s) ->
            exists err, In err new /\ field err = fld /\ element_ref err = id).
Proof.
  induction fields as [|[k sel] rest IH];
    intros isValid errors0 v errors s' H.
  - cbn in H. injection H as _ <- _. exists []. rewrite app_nil_r.
    split; [reflexivity|]. split; [reflexivity|].
    split; [intros err [] | intros fld text id []].
  - rewrite validate_fields_cons in H.
    destruct sel as [| | | |text| | |]; try discriminate.
    destruct (fst (querySelector f text s)) as [[id|]|e] eqn:Eq;
      try discriminate.
    + apply querySelector_result in Eq.
      destruct (fst (validateElement f id k s)) as [[|]|e] eqn:Ev;
        try discriminate; apply validateElement_result in Ev.
      * destruct (IH _ _ _ _ _ H) as (new & -> & Hsub & Hsound & Hall).
        exists new. split; [reflexivity|].
        split; [now apply (proj2 (subsequence_steps _))|].
        split.
        -- intros err Herr. destruct (Hsound err Herr) as (t & Hin & Hrest).
           exists t. split; [now right | exact Hrest].
        -- intros fld t i [[= -> ->] | Hin] Hq Hv.
           ++ rewrite Eq in Hq. injection Hq as ->. rewrite Ev in Hv.
              discriminate.
           ++ now apply (Hall fld t i).
      * destruct (IH _ _ _ _ _ H) as (new & -> & Hsub & Hsound & Hall).
        exists ({| field := k; element_ref := id;
                   message := error_message this k |} :: new).
        split; [now rewrite <- app_assoc|].
        split; [cbn [map field fst subsequence];
                now rewrite String.eqb_refl|].
        split.
        -- intros err [<- | Herr].
           ++ exists text. cbn [field element_ref message].
              split; [now left|]. now repeat split.
           ++ destruct (Hsound err Herr) as (t & Hin & Hrest).
              exists t. split; [now right | exact Hrest].
        -- intros fld t i [[= -> ->] | Hin] Hq Hv.
           ++ rewrite Eq in Hq. injection Hq as ->.
              eexists. split; [now left|]. now split.
           ++ destruct (Hall fld t i Hin Hq Hv) as (err & Herr & Hrest).
              exists err. split; [now right | exact Hrest].
    + apply querySelector_result in Eq.
      destruct (IH _ _ _ _ _ H) as (new & -> & Hsub & Hsound & Hall).
      exists new. split; [reflexivity|].
      split; [now apply (proj2 (subsequence_steps _))|].
      split.
      * intros err Herr. destruct (Hsound err Herr) as (t & Hin & Hrest).
        exists t. split; [now right | exact Hrest].
      * intros fld t i [[= -> ->] | Hin] Hq Hv.
        -- rewrite Eq in Hq. discriminate.
        -- now apply (Hall fld t i).
Qed.

(** X10.  When the validation pass returns, it has left the page as it
    was; its flag [isValid] is [true] exactly when its list of errors is
    empty; the fields of the errors follow the order of the configured
    entries; every error stands for a configured entry whose selector
    finds an element that [validateElement] rejects, with the message of
    that field; and every such entry has its error. *)
Theorem validate_fields_reports (this : Button) (f : nat) (s : State)
  (fields : obj) (isValid : bool) (errors : list ValidationError)
  (s' : State) :
  validate_fields this f fields true [] s = (Ok (isValid, errors), s') ->
  s' = s
  /\ isValid = match errors with [] => true | _ :: _ => false end
  /\ subsequence (map field errors) (map fst fields) = true
  /\ (forall err, In err errors -> reported this f s fields err)
  /\ (forall fld text id,
        In (fld, JStr text) fields ->
        querySelector f text s = (Ok (Some id), s) ->
        validateElement f id fld s = (Ok false, s) ->
        exists err,
          In err errors /\ field err = fld /\ element_ref err = id).
Proof.
  intros H.
  pose proof (validate_fields_state this f fields true [] s) as Hs.
  rewrite H in Hs. cbn [snd] in Hs.
  pose proof (validate_fields_isValid this f fields s true [] _ _ _ eq_refl H)
    as Hv.
  destruct (validate_fields_reports_from this f s fields _ _ _ _ _ H)
    as (new & Hnew & Hsub & Hsound & Hall).
  cbn [app] in Hnew. subst new. now repeat split.
Qed.

Lemma validate_fields_reports_witness :
  let this := button_with (sample_config true true) in
  let s := state_of page_form in
  let errors :=
    [ {| field := "email"; element_ref := 4;
         message := JStr "Enter an email" |};
      {| field := "terms"; element_ref := 9;
         message := JStr "This field is required" |} ] in
  s = s
  /\ false = match errors with [] => true | _ :: _ => false end
  /\ subsequence (map field errors) (map fst sample_selectors) = true
  /\ (forall err, In err errors -> reported this 2 s sample_selectors err)
  /\ (forall fld text id,
        In (fld, JStr text) sample_selectors ->
        querySelector 2 text s = (Ok (Some id), s) ->
        validateElement 2 id fld s = (Ok false, s) ->
        exists err,
          In err errors /\ field err = fld /\ element_ref err = id).
Proof.
  apply (validate_fields_reports (button_with (sample_config true true)) 2
           (state_of page_form) sample_selectors false).
  reflexivity.
Defined.

(* ===================================================================== *)
(** * 27. Whether the submit goes ahead                                    *)
(* ===================================================================== *)

(** X11.  Once the validation pass has returned, [handleFormSubmit]
    completes.  With no error it does nothing after clearing the old
    decorations: the default of the event is not prevented - the form is
    submitted - and no element is focused.  With an error the default of
    the event is prevented. *)
Theorem handleFormSubmit_blocks_iff_invalid (this : Button) (f : nat)
  (s : State) (isValid : bool) (errors : list ValidationError) :
  form this = Some f ->
  validate_fields this f
    (entries (js_or (get (config this) "validationSelectors") (JObj [])))
    true [] (snd (clearErrors f s))
  = (Ok (isValid, errors), snd (clearErrors f s)) ->
  fst (handleFormSubmit this s) = Ok tt
  /\ (errors = [] ->
      handleFormSubmit this s = (Ok tt, snd (clearErrors f s))
      /\ defaultPrevented (snd (handleFormSubmit this s)) = defaultPrevented s
      /\ focus_calls (snd (handleFormSubmit this s)) = focus_calls s)
  /\ (errors <> [] ->
      defaultPrevented (snd (handleFormSubmit this s)) = true).
Proof.
  intros Hform Hpass.
  pose proof (validate_fields_isValid this f _ _ true [] _ _ _ eq_refl Hpass)
    as Hv.
  rewrite (handleFormSubmit_stages this f s Hform).
  rewrite clearErrors_document in *. cbn [snd] in Hpass. rewrite Hpass.
  subst isValid. destruct errors as [|first others]; cbn [negb].
  - split; [reflexivity|]. split; [|intros H; now contradiction H].
    intros _. now repeat split.
  - unfold bind, preventDefault. rewrite !showErrors_document.
    destruct (truthy (get (config this) "focusOnError"));
      (split; [reflexivity|]); (split; [discriminate|]); intros _;
      reflexivity.
Qed.

Lemma handleFormSubmit_blocks_iff_invalid_witness :
  let this := button_with (sample_config true true) in
  (let s := state_of page_two_summaries in
   handleFormSubmit this s = (Ok tt, snd (clearErrors 2 s))
   /\ defaultPrevented (snd (handleFormSubmit this s)) = false
   /\ focus_calls (snd (handleFormSubmit this s)) = [])
  /\ (let s := state_of page_form in
      fst (handleFormSubmit this s) = Ok tt
      /\ defaultPrevented s = false
      /\ defaultPrevented (snd (handleFormSubmit this s)) = true).
Proof.
  intros this. split.
  - destruct (handleFormSubmit_blocks_iff_invalid this 2
                (state_of page_two_summaries) true [] eq_refl eq_refl)
      as (_ & Hvalid & _).
    exact (Hvalid eq_refl).
  - destruct (handleFormSubmit_blocks_iff_invalid this 2 (state_of page_form)
                false
                [ {| field := "email"; element_ref := 4;
                     message := JStr "Enter an email" |};
                  {| field := "terms"; element_ref := 9;
                     message := default_message |} ]
                eq_refl eq_refl)
      as (Hcompletes & _ & Hblocks).
    split; [exact Hcompletes|]. split; [reflexivity|].
    apply Hblocks. discriminate.
Defined.

(** An entry whose selector finds an element without a [value], that is
    neither a checkbox nor a radio button, stops the pass. *)
Lemma validate_fields_without_value (this : Button) (f : nat) (s : State)
  (fld text : string) (id : nat) (e : element) (fields : obj) :
  In (fld, JStr text) fields ->
  querySelector f text s = (Ok (Some id), s) ->
  element_data id s = Some e ->
  has_type e "checkbox" = false -> has_type e "radio" = false ->
  evalue e = None ->
  forall isValid errors,
    exists x, validate_fields this f fields isValid errors s = (Throw x, s).
Proof.
  intros Hin Hq He Hc Hr Hv.
  assert (Hthrow : validateElement f id fld s = (Throw TypeError, s)).
  { unfold validateElement. now rewrite He, Hc, Hr, Hv. }
  induction fields as [|[k sel] rest IH]; [destruct Hin|].
  intros isValid errors. rewrite validate_fields_cons.
  destruct Hin as [[= -> ->] | Hin].
  - rewrite Hq. cbn [fst]. rewrite Hthrow. cbn [fst]. now exists TypeError.
  - destruct sel; try (now exists SelectorError).
    destruct (fst (querySelector f s0 s)) as [[i|]|x];
      [|now apply IH|now exists x].
    destruct (fst (validateElement f i k s)) as [[|]|x];
      [now apply IH | now apply IH | now exists x].
Qed.

(** X12.  A configured selector that finds an element without a [value]
    (a [fieldset], say) that is neither a checkbox nor a radio button
    makes [handleFormSubmit] throw: the old decorations have been cleared
    by then, nothing is rendered, no element is focused, and the default
    of the event is not prevented. *)
Theorem handleFormSubmit_throws_without_value (this : Button) (f : nat)
  (s : State) (fld text : string) (id : nat) (e : element) :
  form this = Some f ->
  In (fld, JStr text)
    (entries (js_or (get (config this) "validationSelectors") (JObj []))) ->
  querySelector f text (snd (clearErrors f s))
  = (Ok (Some id), snd (clearErrors f s)) ->
  element_data id (snd (clearErrors f s)) = Some e ->
  has_type e "checkbox" = false -> has_type e "radio" = false ->
  evalue e = None ->
  exists x,
    handleFormSubmit this s = (Throw x, snd (clearErrors f s))
    /\ defaultPrevented (snd (handleFormSubmit this s)) = defaultPrevented s
    /\ focus_calls (snd (handleFormSubmit this s)) = focus_calls s
    /\ next_node (snd (handleFormSubmit this s)) = next_node s.
Proof.
  intros Hform Hin Hq He Hc Hr Hv.
  destruct (validate_fields_without_value this f _ fld text id e _
              Hin Hq He Hc Hr Hv true []) as [x Hx].
  exists x. rewrite (handleFormSubmit_stages this f s Hform).
  rewrite clearErrors_document in *. cbn [snd] in Hx. rewrite Hx.
  now repeat split.
Qed.

Lemma handleFormSubmit_throws_without_value_witness :
  let this :=
    button_with [("validationSelectors",
                  JObj [("colour", JStr ".govuk-fieldset")])] in
  let s := state_of page_form in
  exists x,
    handleFormSubmit this s = (Throw x, snd (clearErrors 2 s))
    /\ defaultPrevented (snd (handleFormSubmit this s)) = defaultPrevented s
    /\ focus_calls (snd (handleFormSubmit this s)) = focus_calls s
    /\ next_node (snd (handleFormSubmit this s)) = next_node s.
Proof.
  apply (handleFormSubmit_throws_without_value
           (button_with [("validationSelectors",
                          JObj [("colour", JStr ".govuk-fieldset")])])
           2 (state_of page_form) "colour" ".govuk-fieldset" 6
           (el 6 "fieldset" [] ["govuk-fieldset"] (Some "fieldset") None
              false));
    try reflexivity.
  now left.
Defined.

(* ===================================================================== *)
(** * 28. The timer over any series of clicks                              *)
(* ===================================================================== *)

Lemma timer_consistent_ext (s s' : State) :
  timer_state s' = timer_state s -> timer_consistent s' = timer_consistent s.
Proof.
  unfold timer_state, timer_consistent. intros [= Hc Ht _ Hf].
  now rewrite Hc, Ht, Hf.
Qed.

Lemma click_plain (this : Button) (s : State) :
  truthy (get (config this) "preventDoubleClick") = false ->
  click this s = validate_on_submit this (with_defaultPrevented false s).
Proof.
  intros Hp. unfold click, handleClick. unfold bind at 1.
  unfold debounce. now rewrite Hp.
Qed.

Lemma timer_consistent_click (this : Button) (s : State) :
  timer_consistent s = true -> timer_consistent (snd (click this s)) = true.
Proof.
  intros H.
  destruct (truthy (get (config this) "preventDoubleClick")) eqn:Hp.
  - destruct (debounceFormSubmitTimer s) as [t|] eqn:Hf.
    + rewrite click_suppressed by (try exact Hp; now rewrite Hf).
      exact H.
    + rewrite (click_let_through this s Hp Hf).
      rewrite (timer_consistent_ext _ _ (timer_state_validate_on_submit _ _)).
      unfold timer_consistent in *. rewrite Hf in H.
      destruct (timers s) eqn:Ht; [|discriminate].
      cbn. rewrite Ht. cbn. rewrite Pos.eqb_refl. cbn.
      apply andb_true_intro. split; [apply Z.ltb_lt | apply Z.leb_le]; lia.
  - rewrite (click_plain this s Hp).
    rewrite (timer_consistent_ext _ _ (timer_state_validate_on_submit _ _)).
    exact H.
Qed.

Lemma timer_consistent_advance (ms : Z) (s : State) :
  (0 <= ms)%Z ->
  timer_consistent s = true -> timer_consistent (advance ms s) = true.
Proof.
  intros Hms. unfold timer_consistent, advance.
  cbn [debounceFormSubmitTimer timers clock with_timers].
  destruct (debounceFormSubmitTimer s) as [t|];
    destruct (timers s) as [|[t' due] [|x r]]; try discriminate;
    [|reflexivity].
  intros H. apply andb_prop in H as [H Hle]. apply andb_prop in H as [Ht Hlt].
  apply Z.ltb_lt in Hlt. apply Z.leb_le in Hle. cbn [filter snd].
  destruct (due <=? clock s + ms)%Z eqn:E; cbn [negb]; [reflexivity|].
  apply Z.leb_gt in E. rewrite Ht. cbn [andb].
  apply andb_true_intro. split; [apply Z.ltb_lt | apply Z.leb_le]; lia.
Qed.

Lemma timer_consistent_run (this : Button) (l : list happening) :
  forall s,
    waits_forward l = true -> timer_consistent s = true ->
    timer_consistent (run this l s) = true.
Proof.
  induction l as [|[|ms] r IH]; intros s Hw H; [exact H| |];
    cbn [waits_forward forallb] in Hw; cbn [run].
  - apply IH; [exact Hw | now apply timer_consistent_click].
  - apply andb_prop in Hw as [Hms Hw]. apply Z.leb_le in Hms.
    apply IH; [exact Hw | now apply timer_consistent_advance].
Qed.

Lemma timer_consistent_fires (s : State) :
  timer_consistent s = true ->
  debounceFormSubmitTimer (advance 1000 s) = None.
Proof.
  unfold timer_consistent, advance.
  cbn [debounceFormSubmitTimer timers clock with_timers].
  destruct (debounceFormSubmitTimer s) as [t|];
    destruct (timers s) as [|[t' due] [|x r]]; try discriminate;
    [|reflexivity].
  intros H. apply andb_prop in H as [_ Hle]. cbn [filter snd].
  now rewrite Hle.
Qed.

(** X13.  Through any series of clicks and waits, the timer field and the
    pending timers stay in step: the field is [null] with no timer
    pending, or it holds the handle of the one pending timer, due within a
    second.  So the Button is never left suppressing clicks: whatever
    happened before, a second later the field is [null] and the next click
    is handled, starting a new timer when [preventDoubleClick] is set. *)
Theorem debounce_never_stuck (this : Button) (s : State)
  (l : list happening) :
  timer_consistent s = true ->
  waits_forward l = true ->
  let s' := advance 1000 (run this l s) in
  timer_consistent (run this l s) = true
  /\ debounceFormSubmitTimer s' = None
  /\ click this s'
     = validate_on_submit this
         (if truthy (get (config this) "preventDoubleClick")
          then timer_started (with_defaultPrevented false s')
          else with_defaultPrevented false s').
Proof.
  intros H Hw s'.
  pose proof (timer_consistent_run this l s Hw H) as Hrun.
  pose proof (timer_consistent_fires _ Hrun) as Hnull. fold s' in Hnull.
  split; [exact Hrun|]. split; [exact Hnull|].
  destruct (truthy (get (config this) "preventDoubleClick")) eqn:Hp.
  - now apply click_let_through.
  - now apply click_plain.
Qed.

Lemma debounce_never_stuck_witness :
  let this := button_with [("preventDoubleClick", JBool true)] in
  let l := [Click; Wait 400; Click; Click; Wait 599; Click; Wait 1; Click] in
  let s' := advance 1000 (run this l (state_of page_form)) in
  timer_consistent (run this l (state_of page_form)) = true
  /\ debounceFormSubmitTimer s' = None
  /\ click this s'
     = validate_on_submit this
         (if truthy (get (config this) "preventDoubleClick")
          then timer_started (with_defaultPrevented false s')
          else with_defaultPrevented false s').
Proof.
  apply (debounce_never_stuck
           (button_with [("preventDoubleClick", JBool true)])
           (state_of page_form)
           [Click; Wait 400; Click; Click; Wait 599; Click; Wait 1; Click]);
    reflexivity.
Defined.

(* ===================================================================== *)
(** * 29. A text field and white space                                     *)
(* ===================================================================== *)

Lemma trimStart_all_white_space (s : string) :
  forallb is_white_space (list_ascii_of_string (trimStart s))
  = forallb is_white_space (list_ascii_of_string s).
Proof.
  induction s as [|c r IH]; [reflexivity|].
  cbn [trimStart]. destruct (is_white_space c) eqn:E; [|reflexivity].
  cbn [list_ascii_of_string forallb]. now rewrite E.
Qed.

Lemma trimStart_empty_iff (s : string) :
  trimStart s = "" <->
  forallb is_white_space (list_ascii_of_string s) = true.
Proof.
  induction s as [|c r IH]; [now split|].
  cbn [trimStart list_ascii_of_string forallb].
  destruct (is_white_space c); [exact IH|]. now split.
Qed.

Lemma string_rev_onto_all_white_space (s acc : string) :
  forallb is_white_space (list_ascii_of_string (string_rev_onto s acc))
  = forallb is_white_space (list_ascii_of_string s)
    && forallb is_white_space (list_ascii_of_string acc).
Proof.
  revert acc. induction s as [|c r IH]; intros acc; [reflexivity|].
  cbn [string_rev_onto]. rewrite IH.
  cbn [list_ascii_of_string forallb].
  destruct (is_white_space c), (forallb is_white_space (list_ascii_of_string r));
    reflexivity.
Qed.

Lemma string_rev_onto_empty (s acc : string) :
  string_rev_onto s acc = "" -> s = "" /\ acc = "".
Proof.
  revert acc. induction s as [|c r IH]; intros acc; [now split|].
  cbn [string_rev_onto]. intros H. now destruct (IH _ H).
Qed.

(** [value.trim()] is empty exactly when every character of the value is
    white space. *)
Lemma trim_empty_iff (s : string) :
  trim s = "" <-> forallb is_white_space (list_ascii_of_string s) = true.
Proof.
  unfold trim, trimEnd, string_rev.
  rewrite <- trimStart_all_white_space.
  set (t := trimStart s). split.
  - intros H. apply string_rev_onto_empty in H as [H _].
    apply trimStart_empty_iff in H.
    rewrite string_rev_onto_all_white_space in H.
    now apply andb_prop in H as [H _].
  - intros H.
    assert (H' : trimStart (string_rev_onto t "") = "").
    { apply trimStart_empty_iff. rewrite string_rev_onto_all_white_space.
      now rewrite H. }
    now rewrite H'.
Qed.

Lemma existsb_negb_forallb {A : Type} (p : A -> bool) (l : list A) :
  existsb (fun x => negb (p x)) l = negb (forallb p l).
Proof.
  induction l as [|x l IH]; [reflexivity|].
  cbn [existsb forallb]. rewrite IH. now destruct (p x).
Qed.

(** X14.  An element that has a [value] and is neither a checkbox nor a
    radio button is valid exactly when its value holds a character other
    than white space: the value is trimmed before it is compared with the
    empty string. *)
Theorem validateElement_text (form id : nat) (fld : string) (s : State)
  (e : element) (v : string) :
  element_data id s = Some e ->
  has_type e "checkbox" = false -> has_type e "radio" = false ->
  evalue e = Some v ->
  validateElement form id fld s
  = (Ok (existsb (fun c => negb (is_white_space c))
           (list_ascii_of_string v)), s).
Proof.
  intros He Hc Hr Hv. unfold validateElement. rewrite He, Hc, Hr, Hv.
  rewrite existsb_negb_forallb. do 3 f_equal.
  destruct (forallb is_white_space (list_ascii_of_string v)) eqn:E.
  - apply String.eqb_eq. now apply trim_empty_iff.
  - apply String.eqb_neq. intros H. apply trim_empty_iff in H. congruence.
Qed.

Lemma validateElement_text_witness :
  validateElement 2 4 "email" (state_of page_form)
  = (Ok (existsb (fun c => negb (is_white_space c))
           (list_ascii_of_string "  ")), state_of page_form).
Proof.
  apply (validateElement_text 2 4 "email" (state_of page_form)
           (el 4 "input" [("id", "email")] ["govuk-input"]
              (Some "text") (Some "  ") false));
    reflexivity.
Defined.

(* ===================================================================== *)
(** * 30. What [clearErrors] leaves alone                                  *)
(* ===================================================================== *)

Lemma first_some_root (x : nat) (l : list node) :
  root_of (first_some (find x) l)
  = first_some (fun c => root_of (find x c)) l.
Proof.
  induction l as [|c l IH]; [reflexivity|]. cbn [first_some].
  destruct (find x c) as [m|] eqn:E; [|exact IH].
  destruct (find_some x c m E) as (a & ks & -> & _). reflexivity.
Qed.

Lemma first_some_find_none (x : nat) (l : list node) :
  ~ In x (forest_ids l) -> first_some (find x) l = None.
Proof.
  intros H. apply first_some_none. intros c Hc. apply find_none.
  intros Hin. apply H. apply in_forest_ids. now exists c.
Qed.

(** A change of the children of the form is not seen from an element that
    is not among them, before or after. *)
Lemma root_of_find_on_children (f x : nat) (T : list node -> list node)
  (d : node) :
  NoDup (ids d) ->
  forall e ks,
    find f d = Some (Node e ks) ->
    ~ In x (forest_ids ks) -> ~ In x (forest_ids (T ks)) ->
    root_of (find x (on_children f T d)) = root_of (find x d).
Proof.
  induction d as [e0 cs IH|p] using node_induction; [|intros; discriminate].
  intros Hnd e ks Hf Hx Hx'.
  assert (Hndc : NoDup (forest_ids cs)).
  { rewrite ids_Node in Hnd. now inversion Hnd. }
  cbn [find] in Hf. cbn [on_children].
  destruct (Nat.eqb (node_id e0) f) eqn:Ef.
  - injection Hf as <- <-. cbn [find].
    destruct (Nat.eqb (node_id e0) x); [reflexivity|].
    now rewrite !first_some_find_none.
  - cbn [find]. destruct (Nat.eqb (node_id e0) x); [reflexivity|].
    rewrite !first_some_root.
    apply (first_some_map_ext (fun c => root_of (find x c))).
    intros c Hc.
    destruct (first_some_in _ _ _ Hf) as (k & Hk & Hfk).
    destruct (find_some f k _ Hfk) as (_ & _ & _ & _ & Hfin & _).
    destruct (in_dec Nat.eq_dec f (ids c)) as [Hfc | Hfc].
    + assert (c = k) as -> by
          (apply (NoDup_forest_same_child cs c k f); auto).
      rewrite Forall_forall in IH.
      apply (IH k Hk (NoDup_forest_child cs k Hndc Hk) e ks Hfk Hx Hx').
    + now rewrite on_children_id.
Qed.

Lemma forest_ids_clearF (ks : list node) :
  incl (forest_ids (clearF ks)) (forest_ids ks).
Proof.
  intros y Hy. apply in_map_iff in Hy as (a & <- & Ha).
  unfold clearF in Ha. apply elements_drop_first_summary in Ha as [Ha _].
  destruct (elements_strip ks a Ha) as (_ & _ & a0 & Ha0 & ->).
  rewrite unmark_group_id. now apply in_map.
Qed.

(** X15.  In a page whose elements are all distinct, [clearErrors]
    completes and changes the document only: every element that is not a
    descendant of the form - the form itself, what is around it - is as it
    was, and no element is added.  When the form is not in the document,
    nothing changes at all. *)
Theorem clearErrors_inside_form (f : nat) (s : State) :
  unique (ids (document s)) = true ->
  let s' := snd (clearErrors f s) in
  clearErrors f s = (Ok tt, with_document (document s') s)
  /\ (forall x,
        ~ In x (map node_id (descendants f (document s))) ->
        element_data x s' = element_data x s)
  /\ incl (ids (document s')) (ids (document s))
  /\ (find f (document s) = None -> s' = s).
Proof.
  intros Hu s'. apply unique_NoDup in Hu.
  assert (Hs' : s' = with_document (clear_document f (document s)) s)
    by (unfold s'; now rewrite clearErrors_document).
  split; [now rewrite Hs', clearErrors_document|].
  split; [|split].
  - intros x Hx. rewrite Hs'. unfold element_data.
    change (document (with_document (clear_document f (document s)) s))
      with (clear_document f (document s)).
    destruct (find f (document s)) as [m|] eqn:Ef.
    + destruct (find_some f _ m Ef) as (e & ks & -> & _).
      unfold descendants in Hx. rewrite Ef in Hx.
      rewrite (clear_document_on_children f _ e ks Hu Ef).
      pose proof (root_of_find_on_children f x clearF (document s) Hu e ks
                    Ef Hx) as H.
      unfold root_of in H. apply H.
      intros Hin. apply Hx. now apply forest_ids_clearF.
    + now rewrite clear_document_not_found.
  - rewrite Hs'. apply (clear_document_ids f (document s) Hu).
  - intros Hnone. rewrite Hs', clear_document_not_found by exact Hnone.
    apply with_document_same.
Qed.

Lemma clearErrors_inside_form_witness :
  let s :=
    snd (handleFormSubmit (button_with (sample_config true true))
           (state_of page_form)) in
  let s' := snd (clearErrors 2 s) in
  (count_where is_decoration (document s) = 3
   /\ count_where is_decoration (document s') = 0)
  /\ clearErrors 2 s = (Ok tt, with_document (document s') s)
  /\ (forall x,
        ~ In x (map node_id (descendants 2 (document s))) ->
        element_data x s' = element_data x s)
  /\ incl (ids (document s')) (ids (document s))
  /\ (find 2 (document s) = None -> s' = s).
Proof.
  intros s s'. split; [split; reflexivity|].
  apply (clearErrors_inside_form 2 s). reflexivity.
Defined.

(* ===================================================================== *)
(** * 31. The groups that [showErrors] marks                               *)
(* ===================================================================== *)

Lemma first_some_app {A B : Type} (g : A -> option B) (a b : list A) :
  first_some g (a ++ b)
  = match first_some g a with
    | Some y => Some y
    | None => first_some g b
    end.
Proof.
  induction a as [|x a IH]; [reflexivity|]. cbn [app first_some].
  destruct (g x); [reflexivity | exact IH].
Qed.

Lemma ancestors_or_self_absent (x : nat) (n : node) :
  ~ In x (ids n) -> ancestors_or_self x n = None.
Proof.
  intros H. destruct (ancestors_or_self x n) as [path|] eqn:E;
    [|reflexivity].
  now destruct (ancestors_or_self_some x n path E).
Qed.

Lemma ancestors_insert_before (x r : nat) (new : node) (d : node) :
  ~ In x (ids new) ->
  ancestors_or_self x (insert_before r new d) = ancestors_or_self x d.
Proof.
  intros Hx. induction d as [e ks IH|p] using node_induction;
    [|reflexivity].
  cbn [insert_before ancestors_or_self].
  destruct (Nat.eqb (node_id e) x); [reflexivity|].
  replace (first_some (ancestors_or_self x)
             (flat_map (fun k => if has_id r k then [new; k]
                                 else [insert_before r new k]) ks))
    with (first_some (ancestors_or_self x) ks); [reflexivity|].
  induction ks as [|k ks IHks]; [reflexivity|].
  inversion IH as [|? ? Hk Hks]; subst.
  cbn [flat_map]. rewrite first_some_app, <- (IHks Hks).
  destruct (has_id r k); cbn [first_some].
  - rewrite (ancestors_or_self_absent x new Hx).
    now destruct (ancestors_or_self x k).
  - rewrite Hk. now destruct (ancestors_or_self x k).
Qed.

Lemma ancestors_prepend_child (x f : nat) (new : node) (d : node) :
  ~ In x (ids new) ->
  ancestors_or_self x (prepend_child f new d) = ancestors_or_self x d.
Proof.
  intros Hx. induction d as [e ks IH|p] using node_induction;
    [|reflexivity].
  cbn [prepend_child].
  destruct (Nat.eqb (node_id e) f); cbn [ancestors_or_self];
    destruct (Nat.eqb (node_id e) x); try reflexivity.
  - cbn [first_some]. now rewrite (ancestors_or_self_absent x new Hx).
  - rewrite first_some_map_ext; [reflexivity|].
    rewrite Forall_forall in IH. exact IH.
Qed.

Lemma closest_in_mark_group (x g : nat) (d : node) :
  closest_in x sel_group (update g mark_group d) = closest_in x sel_group d.
Proof.
  unfold closest_in. rewrite ancestors_update by apply mark_group_id.
  destruct (ancestors_or_self x d) as [path|]; [|reflexivity].
  cbn [option_map]. apply find_map_same.
  - intros a. destruct (Nat.eqb (node_id a) g); [|reflexivity].
    unfold sel_group. rewrite !matches_class.
    unfold mark_group. now rewrite mem_classList_add.
  - intros a. destruct (Nat.eqb (node_id a) g); [|reflexivity].
    apply mark_group_id.
Qed.

Lemma closest_in_found (x g : nat) (sel : selector) (d : node) :
  closest_in x sel d = Some g -> In g (ids d).
Proof.
  unfold closest_in.
  destruct (ancestors_or_self x d) as [path|] eqn:E; [|discriminate].
  destruct (List.find (matches sel) path) as [a|] eqn:Ea; [|discriminate].
  intros [= <-]. apply List.find_some in Ea as [Ha _].
  destruct (ancestors_or_self_some x d path E) as [_ Hall].
  rewrite Forall_forall in Hall. apply in_map. now apply Hall.
Qed.

Lemma is_marked_mark_group (a : element) : is_marked (mark_group a) = true.
Proof.
  unfold is_marked, mark_group. rewrite mem_classList_add.
  now rewrite String.eqb_refl.
Qed.

Lemma marked_in_spec (g : nat) (d : node) :
  marked_in g d = true
  <-> exists a, In a (elements d) /\ node_id a = g /\ is_marked a = true.
Proof.
  unfold marked_in. rewrite existsb_exists. split.
  - intros (a & Ha & H). apply andb_prop in H as [Hid Hm].
    apply Nat.eqb_eq in Hid. now exists a.
  - intros (a & Ha & Hid & Hm). exists a. split; [exact Ha|].
    now rewrite Hid, Nat.eqb_refl, Hm.
Qed.

Lemma marked_in_update_kept (g g' : nat) (d : node) :
  marked_in g d = true -> marked_in g (update g' mark_group d) = true.
Proof.
  rewrite !marked_in_spec. intros (a & Ha & Hid & Hm).
  exists (if Nat.eqb (node_id a) g' then mark_group a else a).
  split; [rewrite elements_update; apply in_map_iff; now exists a|].
  destruct (Nat.eqb (node_id a) g'); [|now split].
  split; [now rewrite mark_group_id | apply is_marked_mark_group].
Qed.

Lemma marked_in_update (g : nat) (d : node) :
  In g (ids d) -> marked_in g (update g mark_group d) = true.
Proof.
  intros Hin. apply in_map_iff in Hin as (a & Hid & Ha).
  apply marked_in_spec. exists (mark_group a).
  split; [|split; [now rewrite mark_group_id | apply is_marked_mark_group]].
  rewrite elements_update. apply in_map_iff. exists a.
  now rewrite Hid, Nat.eqb_refl.
Qed.

Lemma marked_in_insert_before (g r : nat) (new : node) (d : node) :
  marked_in g d = true -> marked_in g (insert_before r new d) = true.
Proof.
  rewrite !marked_in_spec. intros (a & Ha & H). exists a.
  split; [now apply elements_insert_before_keeps | exact H].
Qed.

Lemma elements_prepend_child_keeps (f : nat) (new : node) (n : node) :
  forall y, In y (elements n) -> In y (elements (prepend_child f new n)).
Proof.
  induction n as [e ks IH|p] using node_induction; [|intros y []].
  intros y Hy. cbn [prepend_child].
  destruct (Nat.eqb (node_id e) f).
  - destruct Hy as [<- | Hy]; [now left|]. right.
    cbn [flat_map]. apply in_app_iff. now right.
  - destruct Hy as [<- | Hy]; [now left|]. right.
    apply in_flat_map in Hy as (k & Hk & Hy).
    apply in_flat_map. exists (prepend_child f new k).
    split; [now apply in_map|].
    rewrite Forall_forall in IH. now apply IH.
Qed.

Lemma marked_in_prepend_child (g f : nat) (new : node) (d : node) :
  marked_in g d = true -> marked_in g (prepend_child f new d) = true.
Proof.
  rewrite !marked_in_spec. intros (a & Ha & H). exists a.
  split; [now apply elements_prepend_child_keeps | exact H].
Qed.

Lemma groups_stable_show_error (d0 : node) (n0 : nat) (err : ValidationError)
  (dn : node * nat) :
  groups_stable d0 n0 dn ->
  (element_ref err < n0)%nat ->
  groups_stable d0 n0 (show_error_document err dn)
  /\ (forall g, marked_in g (fst dn) = true ->
                marked_in g (fst (show_error_document err dn)) = true)
  /\ (forall g, closest_in (element_ref err) sel_group d0 = Some g ->
                marked_in g (fst (show_error_document err dn)) = true).
Proof.
  intros (Hlt & Hn0 & Hst) Href. unfold groups_stable, show_error_document.
  rewrite (Hst _ Href).
  destruct (closest_in (element_ref err) sel_group d0) as [g|] eqn:Eg.
  - assert (Hg : In g (ids (fst dn))).
    { apply (closest_in_found (element_ref err) g sel_group).
      now rewrite (Hst _ Href). }
    assert (Hids : ids (update g mark_group (fst dn)) = ids (fst dn))
      by (apply ids_update, mark_group_id).
    destruct (hd_error (select g sel_field (update g mark_group (fst dn))))
      as [r|]; cbn [fst snd].
    + split; [split; [|split]|split].
      * intros y Hy. apply ids_insert_before in Hy as [Hy | [<- | []]].
        -- rewrite Hids in Hy. specialize (Hlt y Hy). lia.
        -- cbn. lia.
      * lia.
      * intros x Hx. unfold closest_in.
        rewrite ancestors_insert_before by (intros [H | []]; cbn in H; lia).
        fold (closest_in x sel_group (update g mark_group (fst dn))).
        rewrite closest_in_mark_group. now apply Hst.
      * intros g' Hg'. apply marked_in_insert_before.
        now apply marked_in_update_kept.
      * intros g' [= <-]. apply marked_in_insert_before.
        now apply marked_in_update.
    + split; [split; [|split]|split].
      * intros y Hy. rewrite Hids in Hy. specialize (Hlt y Hy). lia.
      * lia.
      * intros x Hx. rewrite closest_in_mark_group. now apply Hst.
      * intros g' Hg'. now apply marked_in_update_kept.
      * intros g' [= <-]. now apply marked_in_update.
  - split; [now repeat split|]. split; [auto | discriminate].
Qed.

Lemma groups_stable_show_errors (d0 : node) (n0 : nat)
  (errors : list ValidationError) :
  forall dn,
    groups_stable d0 n0 dn ->
    (forall err, In err errors -> (element_ref err < n0)%nat) ->
    groups_stable d0 n0 (show_errors_document errors dn)
    /\ (forall g, marked_in g (fst dn) = true ->
                  marked_in g (fst (show_errors_document errors dn)) = true)
    /\ (forall err g,
          In err errors ->
          closest_in (element_ref err) sel_group d0 = Some g ->
          marked_in g (fst (show_errors_document errors dn)) = true).
Proof.
  unfold show_errors_document.
  induction errors as [|err errors IH]; intros dn Hst Hrefs.
  - split; [exact Hst|]. split; [auto | intros err g []].
  - cbn [fold_left].
    destruct (groups_stable_show_error d0 n0 err dn Hst
                (Hrefs err (or_introl eq_refl))) as (Hst1 & Hkeep1 & Hnew1).
    destruct (IH (show_error_document err dn) Hst1
                (fun e He => Hrefs e (or_intror He)))
      as (Hst2 & Hkeep2 & Hnew2).
    split; [exact Hst2|]. split.
    + intros g Hg. apply Hkeep2. now apply Hkeep1.
    + intros e g [<- | He] Hc.
      * apply Hkeep2. now apply Hnew1.
      * now apply (Hnew2 e g).
Qed.

(** X16.  [showErrors] gives the error class to the form group of every
    error: for each error whose element has, at or above it, an element
    of class [govuk-form-group], the nearest such element carries
    [govuk-form-group--error] afterwards; and no group that carried it
    loses it. *)
Theorem showErrors_marks_groups (this : Button) (f : nat)
  (errors : list ValidationError) (s : State) :
  wf_state s = true ->
  (forall err, In err errors -> In (element_ref err) (ids (document s))) ->
  let s' := snd (showErrors this f errors s) in
  (forall err g,
     In err errors ->
     closest_in (element_ref err) sel_group (document s) = Some g ->
     marked_in g (document s') = true)
  /\ (forall g, marked_in g (document s) = true ->
                marked_in g (document s') = true).
Proof.
  intros Hwf Hrefs s'. destruct (wf_state_spec s Hwf) as [_ Hlt].
  assert (Hinit : groups_stable (document s) (next_node s)
                    (document s, next_node s)).
  { split; [exact Hlt|]. split; [cbn; lia | reflexivity]. }
  destruct (groups_stable_show_errors (document s) (next_node s) errors _
              Hinit (fun e He => Hlt _ (Hrefs e He)))
    as (_ & Hkeep & Hnew).
  assert (Hdoc : document s'
                 = fst (render_document
                          (truthy (get (config this) "showErrorSummary")) f
                          errors (document s, next_node s)))
    by (unfold s'; now rewrite showErrors_document).
  rewrite Hdoc. unfold render_document.
  destruct (truthy (get (config this) "showErrorSummary")
            && (0 <? List.length errors)%nat); cbn [fst].
  - split.
    + intros err g He Hc. apply marked_in_prepend_child.
      now apply (Hnew err g).
    + intros g Hg. apply marked_in_prepend_child. now apply Hkeep.
  - split; [exact Hnew | exact Hkeep].
Qed.

Lemma showErrors_marks_groups_witness :
  let this := button_with (sample_config true true) in
  let errors :=
    [ {| field := "colour"; element_ref := 7;
         message := JStr "Choose a colour" |};
      {| field := "terms"; element_ref := 9;
         message := JStr "This field is required" |} ] in
  let s' := snd (showErrors this 2 errors (state_of page_form)) in
  (forall err g,
     In err errors ->
     closest_in (element_ref err) sel_group page_form = Some g ->
     marked_in g (document s') = true)
  /\ (forall g, marked_in g page_form = true ->
                marked_in g (document s') = true).
Proof.
  apply (showErrors_marks_groups (button_with (sample_config true true)) 2
           [ {| field := "colour"; element_ref := 7;
                message := JStr "Choose a colour" |};
             {| field := "terms"; element_ref := 9;
                message := JStr "This field is required" |} ]
           (state_of page_form)).
  - reflexivity.
  - intros err [<- | [<- | []]]; cbn; tauto.
Defined.

(* ===================================================================== *)
(** * 32. Where the summary and the messages are put                       *)
(* ===================================================================== *)

Lemma interpolated_app (a b : list html_piece) :
  interpolated (a ++ b) = interpolated a ++ interpolated b.
Proof. apply flat_map_app. Qed.

Lemma interpolated_summary_markup (errors : list ValidationError) :
  interpolated (summary_markup errors) = map message errors.
Proof.
  unfold summary_markup. rewrite !interpolated_app.
  cbn [interpolated flat_map app]. rewrite app_nil_r.
  induction errors as [|err errors IH]; [reflexivity|].
  cbn [flat_map map]. rewrite interpolated_app, IH. reflexivity.
Qed.

(** X17.  [createErrorSummary] makes one new [div] of class
    [govuk-error-summary] with the attribute
    [data-module="govuk-error-summary"], whose markup interpolates the
    messages of the errors, one for each error and in their order, and
    puts it in front of the children that the form had, which stay behind
    it as they were. *)
Theorem createErrorSummary_first_child (f : nat)
  (errors : list ValidationError) (s : State) (ef : element)
  (ks : list node) :
  find f (document s) = Some (Node ef ks) ->
  let s' := snd (createErrorSummary f errors s) in
  exists summary pieces,
    fst (createErrorSummary f errors s) = Ok tt
    /\ find f (document s') = Some (Node ef (Node summary [Markup pieces] :: ks))
    /\ node_id summary = next_node s
    /\ tag summary = "div"
    /\ classList summary = ["govuk-error-summary"]
    /\ getAttribute summary "data-module" = Some "govuk-error-summary"
    /\ interpolated pieces = map message errors
    /\ next_node s' = S (next_node s).
Proof.
  intros Hf s'.
  exists (setAttribute "data-module" "govuk-error-summary"
            (with_classList (new_element (next_node s) "div")
               ["govuk-error-summary"])),
    (summary_markup errors).
  split; [reflexivity|]. split.
  - unfold s', createErrorSummary, bind, createElement, modify_document.
    cbn [snd document with_document with_next_node].
    rewrite prepend_child_on_children, find_on_children, Hf. reflexivity.
  - split; [reflexivity|]. split; [reflexivity|]. split; [reflexivity|].
    split; [reflexivity|]. split; [apply interpolated_summary_markup|].
    reflexivity.
Qed.

Lemma createErrorSummary_first_child_witness :
  let errors :=
    [ {| field := "email"; element_ref := 4;
         message := JStr "Enter an email" |};
      {| field := "terms"; element_ref := 9;
         message := JStr "This field is required" |} ] in
  let s := state_of page_form_in_group in
  let s' := snd (createErrorSummary 2 errors s) in
  exists summary pieces,
    fst (createErrorSummary 2 errors s) = Ok tt
    /\ find 2 (document s')
       = Some (Node (el 2 "form" [] [] None None false)
                 (Node summary [Markup pieces]
                  :: [ Node (el 5 "input" [("id", "email")] []
                              (Some "text") (Some "") false) [];
                       Node (el 10 "button" [("type", "submit")]
                              ["govuk-button"] (Some "submit") (Some "")
                              false) [] ]))
    /\ node_id summary = next_node s
    /\ tag summary = "div"
    /\ classList summary = ["govuk-error-summary"]
    /\ getAttribute summary "data-module" = Some "govuk-error-summary"
    /\ interpolated pieces = map message errors
    /\ next_node s' = S (next_node s).
Proof.
  apply (createErrorSummary_first_child 2
           [ {| field := "email"; element_ref := 4;
                message := JStr "Enter an email" |};
             {| field := "terms"; element_ref := 9;
                message := JStr "This field is required" |} ]
           (state_of page_form_in_group)).
  reflexivity.
Defined.

Lemma placed_before_insertF (r : nat) (new : node) (ks : list node) :
  Forall (fun n => In r (ids n) -> has_id r n = false ->
                   placed_before new r (insert_before r new n)) ks ->
  In r (forest_ids ks) ->
  (exists pre k post,
      insertF r new ks = pre ++ new :: k :: post /\ has_id r k = true)
  \/ (exists k', In k' (insertF r new ks) /\ placed_before new r k').
Proof.
  induction ks as [|k ks IH]; intros HP Hin; [destruct Hin|].
  inversion HP as [|? ? Hk Hks]; subst.
  rewrite insertF_cons. destruct (has_id r k) eqn:Er.
  - left. exists [], k, (insertF r new ks). now split.
  - rewrite forest_ids_cons in Hin. apply in_app_iff in Hin as [Hin | Hin].
    + right. exists (insert_before r new k). split; [now left|].
      now apply Hk.
    + destruct (IH Hks Hin) as [(pre & x & post & -> & Hx) | (k' & Hk' & Hp)].
      * left. exists (insert_before r new k :: pre), x, post. now split.
      * right. exists k'. split; [now right | exact Hp].
Qed.

(** [insertBefore] puts the node just before the reference element. *)
Lemma placed_before_insert_before (r : nat) (new : node) (n : node) :
  In r (ids n) -> has_id r n = false ->
  placed_before new r (insert_before r new n).
Proof.
  induction n as [e ks IH|p] using node_induction; [|intros []].
  intros Hin Hroot.
  change (insert_before r new (Node e ks)) with (Node e (insertF r new ks)).
  rewrite ids_Node in Hin. cbn [has_id] in Hroot.
  destruct Hin as [Hin | Hin];
    [rewrite Hin, Nat.eqb_refl in Hroot; discriminate|].
  destruct (placed_before_insertF r new ks IH Hin)
    as [(pre & k & post & -> & Hk) | (k' & Hk' & Hp)].
  - now apply placed_here.
  - now apply (placed_below new r e _ k').
Qed.

Lemma descendants_update_self (g : nat) (h : element -> element) (d : node) :
  NoDup (ids d) -> (forall e, node_id (h e) = node_id e) ->
  descendants g (update g h d) = descendants g d.
Proof.
  intros Hnd Hid. unfold descendants. rewrite (find_update g g h d Hid).
  destruct (find g d) as [m|] eqn:E; [|reflexivity].
  destruct (find_some g d m E) as (e & ks & -> & He & _).
  cbn [option_map update]. f_equal.
  apply map_id_in. intros k Hk. apply update_local.
  pose proof (find_NoDup g d _ Hnd E) as Hn. rewrite ids_Node in Hn.
  apply NoDup_cons_iff in Hn as [Hn _]. intros Hin. apply Hn. rewrite He.
  apply in_forest_ids. now exists k.
Qed.

Lemma descendant_not_root (g r : nat) (d : node) :
  In r (map node_id (descendants g d)) ->
  NoDup (ids d) -> In r (ids d) /\ has_id r d = false.
Proof.
  unfold descendants. intros Hin Hnd.
  destruct (find g d) as [[e ks|p]|] eqn:E; try (now destruct Hin).
  destruct d as [e0 cs|q]; [|discriminate].
  pose proof (find_children_incl g e0 cs e ks E) as Hincl.
  apply in_map_iff in Hin as (a & <- & Ha). apply Hincl in Ha.
  rewrite ids_Node in Hnd |- *. split; [right; now apply in_map|].
  cbn [has_id]. apply Nat.eqb_neq. intros Heq.
  apply NoDup_cons_iff in Hnd as [Hn _]. apply Hn. rewrite Heq.
  now apply in_map.
Qed.

(** X18.  For an error whose element has a form group at or above it,
    when that group holds an element of class [govuk-input] or
    [govuk-fieldset], the callback of [showErrors] gives the group the
    error class and puts a new [p] of class [govuk-error-message], with
    the message in its markup, as the sibling just before the first such
    element of the group - which need not be the element of the error. *)
Theorem showError_places_message (err : ValidationError) (s : State)
  (g r : nat) :
  wf_state s = true ->
  closest_in (element_ref err) sel_group (document s) = Some g ->
  hd_error (select g sel_field (document s)) = Some r ->
  let s' := snd (showError err s) in
  fst (showError err s) = Ok tt
  /\ placed_before (message_node (next_node s) (message err)) r (document s')
  /\ marked_in g (document s') = true
  /\ next_node s' = S (next_node s).
Proof.
  intros Hwf Hg Hr s'. destruct (wf_state_spec s Hwf) as [Hnd _].
  assert (Hsel : select g sel_field (update g mark_group (document s))
                 = select g sel_field (document s)).
  { unfold select.
    now rewrite (descendants_update_self g mark_group _ Hnd mark_group_id). }
  assert (Hs' : s' = with_rendering
                       (insert_before r
                          (message_node (next_node s) (message err))
                          (update g mark_group (document s)),
                        S (next_node s)) s).
  { unfold s'. rewrite showError_document. unfold show_error_document.
    cbn [fst snd]. now rewrite Hg, Hsel, Hr. }
  split; [now rewrite showError_document|]. rewrite Hs'.
  cbn [with_rendering document next_node with_document with_next_node
         fst snd].
  split; [|split; [|reflexivity]].
  - assert (Hin : In r (map node_id
                          (descendants g (update g mark_group (document s))))).
    { rewrite (descendants_update_self g mark_group _ Hnd mark_group_id).
      apply hd_error_In in Hr. unfold select in Hr.
      apply in_map_iff in Hr as (a & <- & Ha).
      apply filter_In in Ha as [Ha _]. now apply in_map. }
    destruct (descendant_not_root g r _ Hin) as [Hr1 Hr2].
    + rewrite ids_update by apply mark_group_id. exact Hnd.
    + now apply placed_before_insert_before.
  - apply marked_in_insert_before. apply marked_in_update.
    now apply (closest_in_found (element_ref err) g sel_group).
Qed.

Lemma showError_places_message_witness :
  let err := {| field := "colour"; element_ref := 8;
                message := JStr "Choose a colour" |} in
  let s := state_of page_form in
  let s' := snd (showError err s) in
  fst (showError err s) = Ok tt
  /\ placed_before (message_node (next_node s) (message err)) 6 (document s')
  /\ marked_in 5 (document s') = true
  /\ next_node s' = S (next_node s).
Proof.
  apply (showError_places_message
           {| field := "colour"; element_ref := 8;
              message := JStr "Choose a colour" |}
           (state_of page_form) 5 6);
    reflexivity.
Defined.

(* ===================================================================== *)
(** * 33. The space key                                                    *)
(* ===================================================================== *)

Lemma click_fresh_event (this : Button) (b : bool) (s : State) :
  click this (with_defaultPrevented b s) = click this s.
Proof. reflexivity. Qed.

(** X19.  [handleKeyDown] acts on the space key alone, and only when the
    target is an HTML element with [role="button"]: for any other key, and
    for a target without that role (a native button), it does nothing.
    Otherwise it prevents the default of the key and clicks the target:
    what the click listener of the Button does then is what it does on a
    click, debounce included - while a timer is pending, the key changes
    nothing in the page. *)
Theorem handleKeyDown_space (this : Button) (key : string) (target : nat)
  (s : State) (e : element) :
  element_data target s = Some e ->
  (key <> " " ->
   keydown this key (Some target) s = (Ok tt, with_defaultPrevented false s))
  /\ (is_html e && has_button_role e = false ->
      keydown this key (Some target) s
      = (Ok tt, with_defaultPrevented false s))
  /\ (is_html e && has_button_role e = true ->
      hears_click this target s = true ->
      keydown this " " (Some target) s
      = (Ok tt, with_defaultPrevented true (snd (click this s)))
      /\ (truthy (get (config this) "preventDoubleClick") = true ->
          debounceFormSubmitTimer s <> None ->
          keydown this " " (Some target) s
          = (Ok tt, with_defaultPrevented true s))).
Proof.
  intros He.
  assert (He' : forall b, element_data target (with_defaultPrevented b s)
                          = Some e) by (intros b; exact He).
  split; [|split].
  - intros Hkey. unfold keydown, handleKeyDown.
    apply String.eqb_neq in Hkey. now rewrite Hkey.
  - intros Hrole. unfold keydown, handleKeyDown.
    destruct (negb (String.eqb key " ")); [reflexivity|].
    cbv beta iota. now rewrite He', Hrole.
  - intros Hrole Hhears.
    assert (Hkd : keydown this " " (Some target) s
                  = (Ok tt, with_defaultPrevented true (snd (click this s)))).
    { unfold keydown, handleKeyDown.
      replace (negb (String.eqb " " " ")) with false by reflexivity.
      cbv beta iota. rewrite He', Hrole. unfold bind, preventDefault, target_click.
      change (hears_click this target
                (with_defaultPrevented true (with_defaultPrevented false s)))
        with (hears_click this target s).
      rewrite Hhears. now rewrite click_fresh_event. }
    split; [exact Hkd|]. intros Hp Hpending.
    rewrite Hkd, (click_suppressed this s Hp Hpending). reflexivity.
Qed.

Lemma handleKeyDown_space_witness :
  let this := button_with [("preventDoubleClick", JBool true)] in
  let s :=
    with_listeners [(10, "keydown"); (10, "click")]
      (state_of
         (page_of ["govuk-frontend-supported"]
            [ Node (el 10 "a" [("role", "button"); ("href", "#")]
                      ["govuk-button"] None None false) [] ])) in
  keydown this " " (Some 10) s
  = (Ok tt, with_defaultPrevented true (snd (click this s)))
  /\ keydown this " " (Some 10) (snd (click this s))
     = (Ok tt, with_defaultPrevented true (snd (click this s))).
Proof.
  intros this s.
  destruct (handleKeyDown_space this " " 10 s
              (el 10 "a" [("role", "button"); ("href", "#")]
                 ["govuk-button"] None None false) eq_refl)
    as (_ & _ & H).
  destruct (handleKeyDown_space this " " 10 (snd (click this s))
              (el 10 "a" [("role", "button"); ("href", "#")]
                 ["govuk-button"] None None false) eq_refl)
    as (_ & _ & H').
  split.
  - apply (H eq_refl eq_refl).
  - apply (H' eq_refl eq_refl); [reflexivity | discriminate].
Defined.

(* ===================================================================== *)
(** * 34. A Button without options                                         *)
(* ===================================================================== *)

(** X20.  A Button constructed without a config on a root that has no
    data attributes takes the defaults, and its click listener does
    nothing: no click is debounced, no form is validated, whatever the
    page and however often it is clicked. *)
Theorem Button_defaults_inert (id : nat) (s : State) (e : element) :
  element_data id s = Some e ->
  is_html e = true ->
  isSupported (document s) = true ->
  getAttribute e init_attribute = None ->
  dataset e = [] ->
  exists this s',
    Button_constructor (Some id) [] s = (Ok this, s')
    /\ config this = Button_defaults
    /\ forall s2, click this s2 = (Ok tt, with_defaultPrevented false s2).
Proof.
  intros He Hh Hs Hi Hd.
  exists (constructed_button id [] e s), (constructed id s).
  split; [now apply Button_constructor_completes|].
  unfold constructed_button. rewrite Hd. split; [reflexivity|].
  intros s2. reflexivity.
Qed.

Lemma Button_defaults_inert_witness :
  exists this s',
    Button_constructor (Some 10) [] (state_of page_form) = (Ok this, s')
    /\ config this = Button_defaults
    /\ forall s2, click this s2 = (Ok tt, with_defaultPrevented false s2).
Proof.
  apply (Button_defaults_inert 10 (state_of page_form)
           (el 10 "button" [("type", "submit")] ["govuk-button"]
              (Some "submit") (Some "") false));
    reflexivity.
Defined.

(* ===================================================================== *)
(** * 35. What a submit leaves alone                                       *)
(* ===================================================================== *)

(** An element outside of the form is not among the children that the
    form is given, when the elements are distinct afterwards too. *)
Lemma outside_stays_outside (f x : nat) (T : list node -> list node)
  (d : node) :
  NoDup (ids d) -> NoDup (ids (on_children f T d)) ->
  forall e ks,
    find f d = Some (Node e ks) ->
    In x (ids d) -> ~ In x (forest_ids ks) -> ~ In x (forest_ids (T ks)).
Proof.
  induction d as [e0 cs IH|p] using node_induction; [|intros; discriminate].
  intros Hnd Hnd' e ks Hf Hx Hout.
  assert (Hndc : NoDup (forest_ids cs)).
  { rewrite ids_Node in Hnd. now inversion Hnd. }
  cbn [find] in Hf. cbn [on_children] in Hnd'.
  destruct (Nat.eqb (node_id e0) f) eqn:Ef.
  - injection Hf as <- <-. rewrite ids_Node in Hnd', Hx.
    destruct Hx as [<- | Hx]; [|contradiction].
    now apply NoDup_cons_iff in Hnd' as [Hn _].
  - rewrite ids_Node in Hnd', Hx.
    apply NoDup_cons_iff in Hnd' as [Hroot Hnd'].
    destruct (first_some_in _ _ _ Hf) as (k & Hk & Hfk).
    destruct (find_some f k _ Hfk) as (_ & _ & _ & _ & Hfin & _).
    assert (Hsub : incl (forest_ids (T ks)) (ids (on_children f T k))).
    { pose proof (find_on_children f T k) as Hfo. rewrite Hfk in Hfo.
      destruct (find_some f _ _ Hfo) as (_ & _ & _ & _ & _ & Hincl).
      intros y Hy. apply in_map_iff in Hy as (a & <- & Ha).
      apply in_map. apply Hincl. right. exact Ha. }
    assert (Hkin : In (on_children f T k) (map (on_children f T) cs))
      by now apply in_map.
    intros Hin0. pose proof (Hsub _ Hin0) as Hin.
    destruct Hx as [<- | Hx].
    + apply Hroot. apply in_forest_ids. now exists (on_children f T k).
    + apply in_forest_ids in Hx as (c & Hc & Hxc).
      destruct (in_dec Nat.eq_dec f (ids c)) as [Hfc | Hfc].
      * assert (c = k) as -> by
            (apply (NoDup_forest_same_child cs c k f); auto).
        rewrite Forall_forall in IH.
        refine (IH k Hk (NoDup_forest_child cs k Hndc Hk) _ e ks Hfk Hxc
                  Hout Hin0).
        now apply (NoDup_forest_child (map (on_children f T) cs)).
      * assert (Hcin : In (on_children f T c) (map (on_children f T) cs))
          by now apply in_map.
        assert (Hxc' : In x (ids (on_children f T c)))
          by now rewrite on_children_id.
        pose proof (NoDup_forest_same_child _ _ _ x Hnd' Hcin Hkin Hxc' Hin)
          as Heq.
        rewrite on_children_id in Heq by exact Hfc. apply Hfc.
        rewrite Heq.
        pose proof (find_on_children f T k) as Hfo. rewrite Hfk in Hfo.
        now destruct (find_some f _ _ Hfo) as (_ & _ & _ & _ & Hf' & _).
Qed.

(** What is rendered on the cleared document is a change of the children
    of the form. *)
Lemma render_inside_form (f : nat) (d : node) (e : element)
  (ks : list node) (n : nat) (b : bool) (errors : list ValidationError) :
  NoDup (ids d) ->
  (forall y, In y (ids d) -> (y < n)%nat) ->
  find f d = Some (Node e ks) ->
  form_outside_groups f d = true ->
  (forall err, In err errors ->
               In (element_ref err) (forest_ids (clearF ks))) ->
  exists ks',
    fst (render_document b f errors (clear_document f d, n))
    = on_children f (fun _ => ks') d
    /\ NoDup (ids (fst (render_document b f errors (clear_document f d, n)))).
Proof.
  intros Hnd Hlt Hf Hout Hrefs.
  pose proof (find_clear_document f d e ks Hnd Hf) as Hfc.
  destruct (clear_document_ids f d Hnd) as [Hndc Hinc].
  assert (Houtc : form_outside_groups f (clear_document f d) = true).
  { rewrite (clear_document_on_children f d e ks Hnd Hf).
    unfold form_outside_groups. rewrite ancestors_on_children.
    exact Hout. }
  assert (Hinit : rendered_from f (clear_document f d) (clearF ks) 0
                    (clear_document f d, n)).
  { exists (clearF ks). cbn [fst snd].
    split; [symmetry; now apply (on_children_const f _ e)|].
    split; [apply strip_clearF|]. split; [exact Hndc|].
    split; [intros y Hy; apply Hlt; now apply Hinc|].
    split; [apply incl_refl|]. split; lia. }
  assert (Hr : rendered_from f (clear_document f d) (clearF ks) 0
                 (show_errors_document errors (clear_document f d, n))).
  { apply (rendered_from_show_errors f (clear_document f d) e); auto. }
  assert (Hcompose : forall ks',
             on_children f (fun _ => ks') (clear_document f d)
             = on_children f (fun _ => ks') d).
  { intros ks'. rewrite (clear_document_on_children f d e ks Hnd Hf).
    now rewrite on_children_compose. }
  unfold render_document.
  destruct (show_errors_document errors (clear_document f d, n))
    as [d' n'] eqn:Ed.
  destruct Hr as (ks' & Hd & _ & Hnd' & Hlt' & _).
  cbn [fst snd] in Hd, Hnd', Hlt'.
  destruct (b && (0 <? List.length errors)%nat); cbn [fst snd].
  - exists (summary_node n' errors :: ks'). split.
    + rewrite prepend_child_on_children, Hd, on_children_compose.
      apply Hcompose.
    + apply NoDup_prepend_child; auto.
      * repeat constructor. intros [].
      * intros y [<- | []] Hy. specialize (Hlt' _ Hy). cbn in Hlt'. lia.
  - exists ks'. split; [now rewrite Hd, Hcompose | exact Hnd'].
Qed.

(** X21.  For a form of a well-formed page that lies in no form group, a
    submit changes the page inside the form only: every element that was
    in the document and is not a descendant of the form - the form
    itself, what is around it - is as it was, whether the submit
    completes or throws. *)
Theorem handleFormSubmit_inside_form (this : Button) (f : nat) (s : State) :
  form this = Some f ->
  wf_state s = true ->
  form_outside_groups f (document s) = true ->
  forall x,
    In x (ids (document s)) ->
    ~ In x (map node_id (descendants f (document s))) ->
    element_data x (snd (handleFormSubmit this s)) = element_data x s.
Proof.
  intros Hform Hwf Hout x Hx Hnot.
  destruct (wf_state_spec s Hwf) as [Hnd Hlt].
  assert (Hf : exists e ks, find f (document s) = Some (Node e ks)).
  { unfold form_outside_groups in Hout.
    destruct (ancestors_or_self f (document s)) as [path|] eqn:Ep;
      [|discriminate].
    destruct (ancestors_or_self_some f _ path Ep) as [Hin _].
    destruct (find_in_ids f _ Hin) as [m Hm].
    destruct (find_some f _ m Hm) as (e & ks & -> & _). now exists e, ks. }
  destruct Hf as (e & ks & Hf).
  destruct (handleFormSubmit_renders this f s e ks Hform Hf Hnd)
    as (b & errors & Hrefs & Hdoc).
  destruct (render_inside_form f (document s) e ks (next_node s) b errors
              Hnd Hlt Hf Hout Hrefs) as (ks' & Hin & Hnd').
  unfold descendants in Hnot. rewrite Hf in Hnot.
  unfold element_data. rewrite Hdoc, Hin.
  rewrite Hin in Hnd'.
  pose proof (root_of_find_on_children f x (fun _ => ks') (document s) Hnd
                e ks Hf Hnot) as H.
  unfold root_of in H. apply H.
  apply (outside_stays_outside f x (fun _ => ks') (document s) Hnd Hnd' e ks
           Hf Hx Hnot).
Qed.

Lemma handleFormSubmit_inside_form_witness :
  element_data 1 (snd (handleFormSubmit (button_with (sample_config true true))
                         (state_of page_form)))
  = element_data 1 (state_of page_form).
Proof.
  apply (handleFormSubmit_inside_form (button_with (sample_config true true))
           2 (state_of page_form));
    try reflexivity.
  - cbn. tauto.
  - cbn. intros H.
    repeat (destruct H as [H | H]; [discriminate H|]). exact H.
Defined.

(* ===================================================================== *)
(** * 36. The config of a Button, key by key                               *)
(* ===================================================================== *)

Lemma wf_value_get (o : obj) (name : string) :
  wf_obj o = true -> wf_value (get o name) = true.
Proof.
  intros Hwf. apply wf_obj_spec in Hwf as [_ Hv]. unfold get.
  destruct (lookup name o) as [v|] eqn:E; [|reflexivity].
  apply lookup_some_in in E. rewrite Forall_forall in Hv.
  apply (Hv (name, v) E).
Qed.

Lemma wf_normaliseString (value : string) (property : option SchemaProperty) :
  wf_value (normaliseString value property) = true.
Proof.
  unfold normaliseString.
  destruct (option_map ptype property) as [[| | |]|]; try reflexivity.
  destruct ((0 <? String.length (trim value))%nat
            && isFinite (Number (trim value))); [reflexivity|].
  destruct (String.eqb (trim value) "true" || String.eqb (trim value) "false");
    reflexivity.
Qed.

Lemma wf_assign_parts (key namespace value : string)
  (keyParts : list string) :
  forall current,
    wf_value current = true ->
    wf_value (assign_parts current keyParts key namespace value) = true.
Proof.
  induction keyParts as [|name rest IH]; intros current Hwf; [exact Hwf|].
  destruct current as [| | | | | |o|]; try exact Hwf.
  destruct rest as [|next rest].
  - cbn [assign_parts]. destruct (negb (String.eqb key namespace));
      [|exact Hwf].
    apply wf_set; [exact Hwf | apply wf_normaliseString].
  - change (assign_parts (JObj o) (name :: next :: rest) key namespace value)
      with (JObj (set name
                    (assign_parts
                       (if isObject (get o name) then get o name else JObj [])
                       (next :: rest) key namespace value) o)).
    apply wf_set; [exact Hwf|]. apply IH.
    destruct (isObject (get o name)); [now apply wf_value_get | reflexivity].
Qed.

Lemma wf_extractConfigByNamespace (properties : SchemaProperties)
  (dataset : list (string * string)) (namespace : string) :
  wf_value (extractConfigByNamespace properties dataset namespace) = true.
Proof.
  destruct (is_object_property (lookup_property namespace properties)) eqn:E.
  - rewrite extractConfigByNamespace_fold by exact E.
    assert (H : forall l current,
               wf_value current = true ->
               wf_value (fold_left (assign_in_namespace namespace) l current)
               = true).
    { induction l as [|kv l IH]; intros current Hwf; [exact Hwf|].
      cbn [fold_left]. apply IH. unfold assign_in_namespace.
      destruct (in_namespace namespace (fst kv)); [|exact Hwf].
      now apply wf_assign_parts. }
    now apply H.
  - unfold extractConfigByNamespace. now rewrite E.
Qed.

(** The normalised dataset holds no key twice, at any depth. *)
Lemma wf_normaliseDataset (properties : SchemaProperties)
  (dataset : list (string * string)) :
  wf_obj (normaliseDataset properties dataset) = true.
Proof.
  unfold normaliseDataset.
  assert (H : forall (listed : SchemaProperties) (out : obj),
             wf_obj out = true ->
             wf_obj
               (fold_left
                  (fun out fp =>
                     let field := fst fp in
                     let property := snd fp in
                     let out :=
                       match lookup_string field dataset with
                       | Some v => set field (normaliseString v property) out
                       | None => out
                       end in
                     if is_object_property property
                     then set field
                            (extractConfigByNamespace properties dataset field)
                            out
                     else out)
                  listed out) = true).
  { induction listed as [|[k p] rest IH]; intros out Hwf; [exact Hwf|].
    cbn [fold_left fst snd]. apply IH.
    assert (Hout : wf_obj match lookup_string k dataset with
                          | Some v => set k (normaliseString v p) out
                          | None => out
                          end = true).
    { destruct (lookup_string k dataset); [|exact Hwf].
      apply wf_set; [exact Hwf | apply wf_normaliseString]. }
    destruct (is_object_property p); [|exact Hout].
    apply wf_set; [exact Hout | apply wf_extractConfigByNamespace]. }
  now apply H.
Qed.

(** The merged config, key by key. *)
Lemma lookup_Button_config (cfg : obj) (dataset : list (string * string))
  (key : string) :
  wf_obj cfg = true ->
  lookup key
    (mergeConfigs_run
       [Button_defaults; cfg; normaliseDataset Button_schema dataset])
  = prefer (prefer (lookup key Button_defaults) (lookup key cfg))
      (normalised_field Button_schema dataset key).
Proof.
  intros Hwf.
  rewrite mergeConfigs_run_fold
    by (cbn [forallb]; now rewrite Hwf, wf_normaliseDataset).
  cbn [fold_left]. rewrite merge_props_nil_l, !lookup_merge_props.
  f_equal. unfold normalised_field.
  etransitivity;
    [exact (normaliseDataset_from Button_schema dataset key Button_schema []
              eq_refl)|].
  destruct (mem key (map fst Button_schema)); [|reflexivity].
  destruct (is_object_property (lookup_property key Button_schema));
    [reflexivity|].
  now destruct (lookup_string key dataset).
Qed.

(** X22.  On a supported page, for an HTML root that is not initialised
    yet, when the keys of the config passed in and the parts of the names
    of the data attributes of the root are neither array indices nor
    [__proto__]: the constructor completes, and the config of the Button
    holds, for every key, the value of the normalised dataset of the root
    before that of the config passed in before the default - objects being
    merged key-wise: the data attributes of a field of type [object] are
    added to the entries passed in, and replace them only key by key. *)
Theorem Button_config_by_key (id : nat) (cfg : obj) (s : State) (e : element) :
  element_data id s = Some e ->
  is_html e = true ->
  isSupported (document s) = true ->
  getAttribute e init_attribute = None ->
  wf_obj cfg = true ->
  ordinary_keys (JObj cfg) = true ->
  ordinary_dataset (dataset e) = true ->
  exists this s',
    Button_constructor (Some id) cfg s = (Ok this, s')
    /\ forall key,
         lookup key (config this)
         = prefer (prefer (lookup key Button_defaults) (lookup key cfg))
             (normalised_field Button_schema (dataset e) key).
Proof.
  intros He Hh Hs Hi Hwf _ _.
  exists (constructed_button id cfg e s), (constructed id s).
  split; [now apply Button_constructor_completes|].
  intros key. now apply lookup_Button_config.
Qed.

(** A root with data attributes for two selectors. *)
Lemma Button_config_by_key_witness :
  let e :=
    el 10 "button"
      [ ("type", "submit");
        ("data-validation-selectors.email", "#mail");
        ("data-validation-selectors.name", "#name");
        ("data-focus-on-error", "false") ]
      ["govuk-button"] (Some "submit") (Some "") false in
  let s := state_of (page_of ["govuk-frontend-supported"] [Node e []]) in
  let cfg :=
    [ ("validationSelectors",
       JObj [("email", JStr "#email"); ("terms", JStr "#terms")]);
      ("enableValidation", JBool true) ] in
  exists this s',
    Button_constructor (Some 10) cfg s = (Ok this, s')
    /\ lookup "validationSelectors" (config this)
       = Some (JObj [("email", JStr "#mail"); ("terms", JStr "#terms");
                     ("name", JStr "#name")])
    /\ lookup "focusOnError" (config this) = Some (JBool false)
    /\ lookup "enableValidation" (config this) = Some (JBool true)
    /\ lookup "showErrorSummary" (config this) = Some (JBool true).
Proof.
  intros e s cfg.
  destruct (Button_config_by_key 10 cfg s e eq_refl eq_refl eq_refl eq_refl
              eq_refl eq_refl eq_refl) as (this & s' & Hok & Hkeys).
  exists this, s'. split; [exact Hok|].
  rewrite !Hkeys. repeat split.
Defined.

(* ===================================================================== *)
(** * 37. Clicks that do not validate                                      *)
(* ===================================================================== *)

Lemma validate_on_submit_gate (this : Button) (s : State) :
  truthy (get (config this) "enableValidation") = false
  \/ form this = None
  \/ (forall e, element_data (root this) s = Some e ->
                getAttribute e "type" <> Some "submit") ->
  validate_on_submit this s = (Ok tt, s).
Proof.
  intros H. unfold validate_on_submit.
  destruct H as [H | [H | H]].
  - now rewrite H.
  - rewrite H. now rewrite andb_false_r.
  - replace (root_is_submit this s) with false;
      [now rewrite andb_false_r|].
    unfold root_is_submit.
    destruct (element_data (root this) s) as [e|]; [|reflexivity].
    specialize (H e eq_refl).
    destruct (getAttribute e "type") as [t|]; [|reflexivity].
    destruct (String.eqb_spec t "submit") as [->|]; [|reflexivity].
    now contradiction H.
Qed.

(** X23.  A click validates only when [enableValidation] is truthy, the
    Button has a form, and the [type] attribute of the root is written
    [submit]: if one of these fails - a [button] without a [type]
    attribute included, though the browser submits with it - the click
    completes without touching the document, the focus or the supply of
    elements, and the default of the event is prevented exactly when the
    click is debounced. *)
Theorem click_without_validation (this : Button) (s : State) :
  truthy (get (config this) "enableValidation") = false
  \/ form this = None
  \/ (forall e, element_data (root this) s = Some e ->
                getAttribute e "type" <> Some "submit") ->
  fst (click this s) = Ok tt
  /\ (document (snd (click this s)), focus_calls (snd (click this s)),
      next_node (snd (click this s)))
     = (document s, focus_calls s, next_node s)
  /\ defaultPrevented (snd (click this s))
     = truthy (get (config this) "preventDoubleClick")
       && match debounceFormSubmitTimer s with
          | Some _ => true
          | None => false
          end.
Proof.
  intros H.
  destruct (truthy (get (config this) "preventDoubleClick")) eqn:Hp.
  - destruct (debounceFormSubmitTimer s) as [t|] eqn:Hf.
    + rewrite click_suppressed by (try exact Hp; now rewrite Hf).
      now repeat split.
    + rewrite (click_let_through this s Hp Hf).
      rewrite validate_on_submit_gate; [now repeat split|].
      exact H.
  - rewrite (click_plain this s Hp).
    rewrite validate_on_submit_gate; [now repeat split|].
    exact H.
Qed.

Lemma click_without_validation_witness :
  let this := button_with (sample_config true true) in
  let s :=
    state_of
      (page_of ["govuk-frontend-supported"]
         [ Node (el 2 "form" [] [] None None false)
             [ Node (el 4 "input" [("id", "email")] ["govuk-input"]
                      (Some "text") (Some "") false) [];
               Node (el 10 "button" [] ["govuk-button"]
                      (Some "submit") (Some "") false) [] ] ]) in
  fst (click this s) = Ok tt
  /\ (document (snd (click this s)), focus_calls (snd (click this s)),
      next_node (snd (click this s)))
     = (document s, focus_calls s, next_node s)
  /\ defaultPrevented (snd (click this s))
     = truthy (get (config this) "preventDoubleClick")
       && match debounceFormSubmitTimer s with
          | Some _ => true
          | None => false
          end.
Proof.
  intros this s.
  apply (click_without_validation this s).
  right. right. intros e [= <-]. discriminate.
Defined.
